(** * flask-peewee admin: a shallow embedding of [flask_peewee/admin.py]

    The development follows the module top to bottom: the entity-type
    metadata the admin reads from the ORM, the query object it rewrites,
    [ModelAdmin] (ordering, delete preview, related-field collection, the
    ajax lookup), the [Admin] registry with its authorisation wrapper and
    [Export] (query preparation and the streamed JSON array). *)

From Stdlib Require Import ZArith Ascii List Lia.
From Stdlib Require String DecimalZ.
From stdpp Require Import gmap strings list sorting.

Set Warnings "-register-all,-clear-no-such-hyp".

Open Scope Z_scope.
Open Scope stdpp_scope.

(** ** Python values shared by the whole module *)

(** Exceptions the module raises or lets through. *)
Inductive exn :=
  | KeyError
  | AttributeError
  | IndexError
  | TypeError
  | DoesNotExist
  | RuntimeError
  | NameError
  | HTTPException (code : Z).

(** The result of a call that may raise. *)
Inductive result (A : Type) :=
  | Ok (a : A)
  | Raise (e : exn).
Arguments Ok {A} a.
Arguments Raise {A} e.

#[global] Instance result_ret : MRet result := fun A a => Ok a.
#[global] Instance result_bind : MBind result := fun A B f r =>
  match r with
  | Ok a => f a
  | Raise e => Raise e
  end.

#[global] Instance exn_eq_dec : EqDecision exn.
Proof. solve_decision. Defined.

(** [d[k]] on a dict: [KeyError] when the key is missing. *)
Definition dict_get `{Countable K} {V} (d : gmap K V) (k : K) : result V :=
  match d !! k with
  | Some v => Ok v
  | None => Raise KeyError
  end.

(** The line feed, for the literals ['[\n'], [',\n'] and ['\n]']. *)
Definition LF : string := String (ascii_of_nat 10) EmptyString.

(** ['__' in p] together with [p.rsplit('__', 1)]: the split at the last
    occurrence of the delimiter, [None] when the delimiter does not occur. *)
Fixpoint rsplit2 (p : string) : option (string * string) :=
  match p with
  | EmptyString => None
  | String c p' =>
      match rsplit2 p' with
      | Some (hd, tl) => Some (String c hd, tl)
      | None =>
          match p' with
          | String c' tl =>
              if decide (c = "_"%char /\ c' = "_"%char) then Some (EmptyString, tl) else None
          | EmptyString => None
          end
      end
  end.

(** ['__'.join(path)]. *)
Definition join_path (path : list string) : string := String.concat "__" path.

(** ** Entity types and their metadata *)

(** A model class. Python compares classes by identity; the number stands
    for that identity, the class table below holds what the admin reads
    from a class. *)
Definition Model : Type := nat.
#[global] Instance Model_eq_dec : EqDecision Model := Nat.eq_dec.
#[global] Instance Model_countable : Countable Model := nat_countable.

(** A field of a model: [field_to] is [Some m] exactly for a
    [ForeignKeyField] whose [to] is [m]. *)
Record Field := mkField {
  field_name : string;
  field_to : option Model
}.

#[global] Instance Field_eq_dec : EqDecision Field.
Proof. solve_decision. Defined.

Definition is_ForeignKeyField (f : Field) : bool :=
  match field_to f with Some _ => true | None => false end.

(** What the admin reads from a class: [__name__], [_meta.get_fields()]
    (in the ORM's field order) and [_meta.pk_name]. *)
Record Schema := mkSchema {
  cls_name : Model -> string;
  get_fields : Model -> list Field;
  pk_name : Model -> string
}.

(** [_meta.rel_exists(other)]: a foreign key from one of the two classes to
    the other. *)
Definition rel_exists (G : Schema) (a b : Model) : bool :=
  existsb (fun f => bool_decide (field_to f = Some b)) (get_fields G a)
  || existsb (fun f => bool_decide (field_to f = Some a)) (get_fields G b).

(** ** The query object *)

(** What [query.query] holds: the default ['*'], a list of column names, or
    a dict from entity type to column names. *)
Inductive Selection :=
  | SelStar
  | SelList (cols : list string)
  | SelDict (d : gmap Model (list string)).

(** An argument of [order_by]: a bare column name, or a pair of a column
    and a direction. *)
Inductive OrderClause :=
  | OrderCol (column : string)
  | OrderDir (column direction : string).

(** A value given to [where]. *)
Inductive WhereValue :=
  | WStr (s : string)
  | WList (l : list string).

(** The part of the ORM's select query the admin reads and writes. [_joins]
    keeps the joins in the order they were added, each with the context it
    was added from. *)
Record SelectQuery := mkQuery {
  q_model : Model;
  query_context : Model;
  _joins : list (Model * Model);
  _joined_models : gset Model;
  _where : list (string * WhereValue);
  _order_by : list OrderClause;
  q_query : Selection
}.

(** [model.select()]. *)
Definition select (m : Model) : SelectQuery :=
  mkQuery m m [] ∅ [] [] SelStar.

Definition set_context (q : SelectQuery) (m : Model) : SelectQuery :=
  mkQuery (q_model q) m (_joins q) (_joined_models q) (_where q) (_order_by q) (q_query q).

Definition set_query (q : SelectQuery) (s : Selection) : SelectQuery :=
  mkQuery (q_model q) (query_context q) (_joins q) (_joined_models q) (_where q) (_order_by q) s.

(** [query.switch(model)]: the root and every joined model can become the
    context, anything else raises. *)
Definition switch (q : SelectQuery) (m : Model) : result SelectQuery :=
  if decide (m = q_model q) then Ok (set_context q m)
  else if decide (m ∈ _joined_models q) then Ok (set_context q m)
  else Raise AttributeError.

(** [query.join(model)]: joins from the current context, which then moves to
    the joined model; raises when no foreign key links the two. *)
Definition join (G : Schema) (q : SelectQuery) (m : Model) : result SelectQuery :=
  if rel_exists G (query_context q) m then
    Ok (mkQuery (q_model q) m (_joins q ++ [(query_context q, m)])
          ({[m]} ∪ _joined_models q) (_where q) (_order_by q) (q_query q))
  else Raise AttributeError.

(** [query.where] with one keyword argument, [lookup = value]. *)
Definition where_ (q : SelectQuery) (lookup : string) (v : WhereValue) : SelectQuery :=
  mkQuery (q_model q) (query_context q) (_joins q) (_joined_models q)
    (_where q ++ [(lookup, v)]) (_order_by q) (q_query q).

(** [query.order_by(...)] replaces the ordering. *)
Definition order_by (q : SelectQuery) (o : list OrderClause) : SelectQuery :=
  mkQuery (q_model q) (query_context q) (_joins q) (_joined_models q) (_where q) o (q_query q).

(** ** Values that travel in responses *)

(** Plain data as the serializer and [json.dumps] see it. A dict is kept as
    the list of its items in iteration order. Floats are left out. *)
Inductive json :=
  | JNull
  | JBool (b : bool)
  | JInt (z : Z)
  | JStr (s : string)
  | JList (l : list json)
  | JDict (items : list (string * json)).

(** A model instance, as far as the admin looks at it: its class,
    [get_pk()] and [unicode(obj)]. *)
Record Instance := mkInstance {
  inst_cls : Model;
  get_pk : json;
  inst_unicode : string
}.

(** The user the auth collaborator hands out; [admin] is the attribute
    [check_user_permission] reads. *)
Record User := mkUser {
  username : string;
  admin : bool
}.

(** The request, as far as the handlers read it. [args] and [form] are
    multi-dicts. *)
Record Request := mkRequest {
  method : string;
  path : string;
  args : list (string * string);
  form : list (string * string)
}.

(** [multidict.get(key)]: the first value of the key. *)
Fixpoint md_get (d : list (string * string)) (key : string) : option string :=
  match d with
  | [] => None
  | (k, v) :: d' => if decide (k = key) then Some v else md_get d' key
  end.

(** [multidict.getlist(key)]: every value of the key, in order. *)
Definition md_getlist (d : list (string * string)) (key : string) : list string :=
  map snd (filter (fun kv => kv.1 = key) d).

(** What a handler returns. *)
Inductive Response :=
  | Redirect (location : string)
  | Rendered (template : string)
  | Body (chunks : list string) (mimetype : string)
         (headers : list (string * string)) (direct_passthrough : bool)
  | JsonBody (data : json) (mimetype : string).

(** What a handler does besides returning: queries it sends to the
    database, rows it deletes, messages it flashes. *)
Inductive event :=
  | Executed (q : SelectQuery)
  | Counted (q : SelectQuery)
  | Deleted (obj : Instance) (recursive : bool)
  | Flashed (message category : string).

(** A handler run: the events in order, then the value or the exception. *)
Definition M (A : Type) : Type := list event * result A.

#[global] Instance M_ret : MRet M := fun A a => ([], Ok a).
#[global] Instance M_bind : MBind M := fun A B f m =>
  match m with
  | (t, Ok a) => let '(t', r) := f a in (t ++ t', r)
  | (t, Raise e) => (t, Raise e)
  end.

Definition emit (e : event) : M unit := ([e], Ok tt).
Definition raise {A} (e : exn) : M A := ([], Raise e).
Definition lift {A} (r : result A) : M A := ([], r).

(** [abort(code)]. *)
Definition abort {A} (code : Z) : M A := raise (HTTPException code).

(** The database behind the queries: the rows a query yields when iterated
    and what [count()] answers for it. *)
Record Database := mkDatabase {
  db_rows : SelectQuery -> list Instance;
  db_count : SelectQuery -> Z
}.

(** The helpers of [flask], [flask_peewee.utils] and
    [flask_peewee.serializer] the module calls. *)
Record Helpers := mkHelpers {
  url_for : string -> list (string * string) -> string;
  get_next : Request -> string;
  slugify : string -> string;
  path_to_models : Model -> option string -> result (list Model);
  pq_get_page : Request -> Z;
  pq_get_pages : SelectQuery -> Z -> Z;
  pq_get_list : SelectQuery -> Z -> Request -> list Instance;
  serialize_object : Instance -> Selection -> list (string * json)
}.

(** ** [ModelAdmin] *)

(** The configuration of one model's admin: the class attributes a subclass
    may override, and the name of the blueprint its [Admin] serves. *)
Record ModelAdmin := mkModelAdmin {
  ma_model : Model;
  blueprint_name : string;
  paginate_by : Z;
  filter_paginate_by : Z;
  foreign_key_lookups : option (gmap string string);
  delete_collect_objects : bool;
  delete_recursive : bool
}.

(** The class defaults. *)
Definition default_admin (blueprint : string) (m : Model) : ModelAdmin :=
  mkModelAdmin m blueprint 20 15 None true true.

(** [sorted(l, key=...)]: a stable sort, written as insertion from the
    right; [le x y] compares the keys of [x] and [y]. *)
Fixpoint insert_by {A} (le : A -> A -> bool) (x : A) (l : list A) : list A :=
  match l with
  | [] => [x]
  | y :: l' => if le x y then x :: y :: l' else y :: insert_by le x l'
  end.

Definition sorted {A} (le : A -> A -> bool) (l : list A) : list A :=
  foldr (insert_by le) [] l.

(** One entry of the delete preview: depth, model, foreign key, rows. *)
Definition Collected : Type := Z * Model * Field * list Instance.

(** The sort key of [collect_objects], [(i[0], i[1].__name__)], compared as
    Python compares tuples. *)
Definition collected_key (G : Schema) (i : Collected) : Z * string :=
  (i.1.1.1, cls_name G i.1.1.2).

Definition key_leb (k1 k2 : Z * string) : bool :=
  (k1.1 <? k2.1) || ((k1.1 =? k2.1) && String.leb k1.2 k2.2).

(** [ModelAdmin.collect_objects]. [select_queries] is the first component
    of [obj.collect_queries()], which the ORM computes. *)
Definition collect_objects (G : Schema) (db : Database)
    (select_queries : list (SelectQuery * Field * Z)) : list Collected :=
  let objects :=
    foldl (fun objects '(query, fk_field, depth) =>
             let model := q_model query in
             let query := set_query query (SelList ["*"]) in
             let collected := db_rows db query in
             if bool_decide (collected <> []) then
               objects ++ [(depth, model, fk_field, collected)]
             else objects)
          [] select_queries in
  sorted (fun a b => key_leb (collected_key G a) (collected_key G b)) objects.

(** The accumulator of [collect_related_fields]. *)
Abbreviation Related := (gmap (Model * string) (list Field)).

(** [accum.setdefault(k, [])] then [accum[k].append(field)]. *)
Definition accum_append (accum : Related) (k : Model * string) (field : Field) : Related :=
  <[k := default [] (accum !! k) ++ [field]]> accum.

(** [ModelAdmin.collect_related_fields]. Python recurses with no bound;
    [fuel] bounds the depth of the recursion here, and [None] says the bound
    was reached. *)
Fixpoint collect_related_fields (G : Schema) (self_model : Model) (fuel : nat)
    (model : Model) (accum : Related) (path : list string) : option Related :=
  match fuel with
  | O => None
  | S fuel' =>
      let path_str := join_path path in
      foldl (fun acc field =>
               match acc with
               | None => None
               | Some accum =>
                   match field_to field with
                   | Some to =>
                       collect_related_fields G self_model fuel' to accum
                         (path ++ [field_name field])
                   | None =>
                       if decide (model <> self_model)
                       then Some (accum_append accum (model, path_str) field)
                       else Some accum
                   end
               end)
            (Some accum) (get_fields G model)
  end.

(** [str.lstrip('-')]. *)
Fixpoint lstrip_dash (s : string) : string :=
  match s with
  | String "-" s' => lstrip_dash s'
  | _ => s
  end.

(** [str.startswith('-')]. *)
Definition startswith_dash (s : string) : bool :=
  match s with
  | String "-" _ => true
  | _ => false
  end.

(** [ModelAdmin.column_is_sortable]: [col in self.model._meta.fields]. *)
Definition column_is_sortable (G : Schema) (self : ModelAdmin) (col : string) : bool :=
  bool_decide (col ∈ map field_name (get_fields G (ma_model self))).

(** [ModelAdmin.apply_ordering]. *)
Definition apply_ordering (G : Schema) (self : ModelAdmin) (query : SelectQuery)
    (ordering : string) : SelectQuery :=
  if bool_decide (ordering <> "") then
    let desc := startswith_dash ordering in
    let column := lstrip_dash ordering in
    if column_is_sortable G self column
    then order_by query [OrderDir column (if desc then "desc" else "asc")]
    else query
  else query.

(** [ModelAdmin.ajax_list]. *)
Definition ajax_list (h : Helpers) (self : ModelAdmin) (request : Request) : M Response :=
  let field := md_get (args request) "field" in
  let prev_page := 0 in
  let next_page := 0 in
  '(prev_page, next_page, data) ←
    match path_to_models h (ma_model self) field with
    | Raise AttributeError => mret (prev_page, next_page, [])
    | Raise e => raise e
    | Ok models =>
        rel_model ← lift (match last models with
                          | Some m => Ok m
                          | None => Raise IndexError
                          end);
        rel_field ← lift (match foreign_key_lookups self, field with
                          | Some lookups, Some f => dict_get lookups f
                          | Some lookups, None => Raise KeyError
                          | None, _ => Raise TypeError
                          end);
        let query :=
          order_by
            (where_ (select rel_model) (rel_field +:+ "__icontains")
               (WStr (default "" (md_get (args request) "query"))))
            [OrderCol rel_field] in
        let per_page := filter_paginate_by self in
        let current_page := pq_get_page h request in
        let prev_page := if 1 <? current_page then current_page - 1 else prev_page in
        _ ← emit (Counted query);
        let next_page :=
          if current_page <? pq_get_pages h query per_page
          then current_page + 1 else next_page in
        _ ← emit (Executed query);
        let data :=
          map (fun obj => JDict [("id", get_pk obj); ("repr", JStr (inst_unicode obj))])
              (pq_get_list h query per_page request) in
        mret (prev_page, next_page, data)
    end;
  mret (JsonBody (JDict [("prev_page", JInt prev_page); ("next_page", JInt next_page);
                         ("object_list", JList data)])
                 "application/json").

(** ** [Admin] *)

(** The auth collaborator: [get_logged_in_user()] and the name of its
    blueprint. *)
Record Auth := mkAuth {
  get_logged_in_user : Request -> option User;
  auth_blueprint_name : string
}.

(** [Admin.check_user_permission]. *)
Definition check_user_permission (user : User) : bool := admin user.

(** [Admin.auth_required]: the wrapper [inner] around [func]. *)
Definition auth_required {A} (h : Helpers) (auth : Auth)
    (func : A -> Request -> M Response) : A -> Request -> M Response :=
  fun a request =>
    match get_logged_in_user auth request with
    | None =>
        let login_url :=
          url_for h (auth_blueprint_name auth +:+ ".login") [("next", get_next h request)] in
        mret (Redirect login_url)
    | Some user =>
        if negb (check_user_permission user) then abort 403
        else func a request
    end.

(** ** [Export] *)

Record Export := mkExport {
  e_query : SelectQuery;
  related : Related;
  fields : list string;
  alias_to_model : gmap string Model
}.

(** [dict([(k[1], k[0]) for k in keys])]: a later key wins over an earlier
    one with the same path. *)
Definition alias_of_keys (keys : list (Model * string)) : gmap string Model :=
  foldl (fun d k => <[k.2 := k.1]> d) ∅ keys.

(** [Export.__init__]. *)
Definition Export_init (query : SelectQuery) (related : Related) (fields : list string) : Export :=
  mkExport query related fields (alias_of_keys (map fst (map_to_list related))).

(** The local function [ensure_join] of [prepare_query]. Each call recurses
    on a proper prefix of [p]; [fuel] counts the calls left, [ensure_join]
    gives it the length of [p], and the branch for no fuel left is never
    taken then ([ensure_join_fuel_enough] below). *)
Fixpoint ensure_join_fuel (G : Schema) (self : Export) (fuel : nat)
    (query : SelectQuery) (m : Model) (p : string) : result SelectQuery :=
  if decide (m ∉ _joined_models query) then
    match rsplit2 p with
    | None =>
        let next_model := q_model query in
        q ← switch query next_model; join G q m
    | Some (next, _) =>
        match fuel with
        | O => Raise RuntimeError
        | S fuel' =>
            next_model ← dict_get (alias_to_model self) next;
            query ← ensure_join_fuel G self fuel' query next_model next;
            q ← switch query next_model; join G q m
        end
    end
  else Ok query.

Definition ensure_join (G : Schema) (self : Export) (query : SelectQuery)
    (m : Model) (p : string) : result SelectQuery :=
  ensure_join_fuel G self (String.length p) query m p.

(** [select.setdefault(model, [])] then [select[model].append(column)]. *)
Definition select_append (select : gmap Model (list string)) (model : Model)
    (column : string) : gmap Model (list string) :=
  <[model := default [] (select !! model) ++ [column]]> select.

(** The loop of [prepare_query] over [self.fields]. *)
Fixpoint prepare_loop (G : Schema) (self : Export) (lookups : list string)
    (clone : SelectQuery) (select : gmap Model (list string))
    : result (SelectQuery * gmap Model (list string)) :=
  match lookups with
  | [] => Ok (clone, select)
  | lookup :: rest =>
      '(clone, model, column) ←
        match rsplit2 lookup with
        | Some (path, column) =>
            model ← dict_get (alias_to_model self) path;
            clone ← ensure_join G self clone model path;
            mret (clone, model, column)
        | None => mret (clone, q_model (e_query self), lookup)
        end;
      prepare_loop G self rest clone (select_append select model column)
  end.

(** [Export.prepare_query]. *)
Definition prepare_query (G : Schema) (self : Export) : result SelectQuery :=
  let clone := e_query self in
  '(clone, select) ← prepare_loop G self (fields self) clone ∅;
  mret (set_query clone (SelDict select)).

(** ** [json.dumps] *)

(** The double quote and the backslash. *)
Definition DQ : ascii := ascii_of_nat 34.
Definition BS : ascii := ascii_of_nat 92.

Definition hex_digit (n : N) : ascii :=
  match n with
  | 0 => "0" | 1 => "1" | 2 => "2" | 3 => "3" | 4 => "4" | 5 => "5" | 6 => "6"
  | 7 => "7" | 8 => "8" | 9 => "9" | 10 => "a" | 11 => "b" | 12 => "c"
  | 13 => "d" | 14 => "e" | _ => "f"
  end%N%char.

(** One character of a string as [json.dumps] writes it with the default
    [ensure_ascii]: the quote, the backslash and the five short escapes, the
    printable ASCII characters as they are, and every other code point as a
    four-digit escape. Code points stay below 256 here. *)
Definition escape_char (c : ascii) : string :=
  let n := N_of_ascii c in
  if decide (c = DQ) then String BS (String DQ "")
  else if decide (c = BS) then String BS (String BS "")
  else if decide (n = 8%N) then String BS "b"
  else if decide (n = 12%N) then String BS "f"
  else if decide (n = 10%N) then String BS "n"
  else if decide (n = 13%N) then String BS "r"
  else if decide (n = 9%N) then String BS "t"
  else if decide (32 <= n <= 126)%N then String c ""
  else String BS (String "u" (String "0" (String "0"
         (String (hex_digit (n / 16)) (String (hex_digit (n mod 16)) ""))))).

Fixpoint escape_string (s : string) : string :=
  match s with
  | EmptyString => EmptyString
  | String c s' => escape_char c +:+ escape_string s'
  end.

Definition dumps_string (s : string) : string :=
  String DQ (escape_string s +:+ String DQ "").

(** The digits of a decimal numeral, most significant first. *)
Fixpoint dumps_uint (u : Decimal.uint) : string :=
  match u with
  | Decimal.Nil => ""
  | Decimal.D0 u => String "0" (dumps_uint u)
  | Decimal.D1 u => String "1" (dumps_uint u)
  | Decimal.D2 u => String "2" (dumps_uint u)
  | Decimal.D3 u => String "3" (dumps_uint u)
  | Decimal.D4 u => String "4" (dumps_uint u)
  | Decimal.D5 u => String "5" (dumps_uint u)
  | Decimal.D6 u => String "6" (dumps_uint u)
  | Decimal.D7 u => String "7" (dumps_uint u)
  | Decimal.D8 u => String "8" (dumps_uint u)
  | Decimal.D9 u => String "9" (dumps_uint u)
  end.

(** An integer as [repr] writes it: its decimal numeral, a minus sign in
    front of a negative one. *)
Definition dumps_int (z : Z) : string :=
  match Z.to_int z with
  | Decimal.Pos u => dumps_uint u
  | Decimal.Neg u => String "-" (dumps_uint u)
  end.

(** [json.dumps] with its default separators. *)
Fixpoint json_dumps (v : json) : string :=
  match v with
  | JNull => "null"
  | JBool true => "true"
  | JBool false => "false"
  | JInt z => dumps_int z
  | JStr s => dumps_string s
  | JList l => "[" +:+ String.concat ", " (map json_dumps l) +:+ "]"
  | JDict items =>
      "{" +:+ String.concat ", "
                (map (fun kv => dumps_string kv.1 +:+ ": " +:+ json_dumps kv.2) items)
          +:+ "}"
  end.

(** ** [Export.json_response] *)

(** The [for] loop of the generator: [i] is the counter, [rows] what is left
    of the iteration over the prepared query. *)
Fixpoint generate_rows (h : Helpers) (prepared_query : SelectQuery) (i : Z)
    (rows : list Instance) : list string :=
  match rows with
  | [] => []
  | obj :: rest =>
      let i := i - 1 in
      [json_dumps (JDict (serialize_object h obj (q_query prepared_query)))]
      ++ (if 0 <? i then ["," +:+ LF] else [])
      ++ generate_rows h prepared_query i rest
  end.

(** The generator [generate]: the chunks it yields, in order. *)
Definition generate (h : Helpers) (db : Database) (prepared_query : SelectQuery) : list string :=
  let i := db_count db prepared_query in
  ["[" +:+ LF] ++ generate_rows h prepared_query i (db_rows db prepared_query) ++ [LF +:+ "]"].

(** [Export.json_response]. *)
Definition json_response (G : Schema) (h : Helpers) (db : Database) (self : Export)
    (filename : string) : result Response :=
  prepared_query ← prepare_query G self;
  let headers :=
    [("Content-Type", "application/javascript");
     ("Content-Disposition", "attachment; filename=" +:+ filename)] in
  mret (Body (generate h db prepared_query) "text/javascript" headers true).

(** What the client receives: the chunks one after the other. *)
Definition body_text (chunks : list string) : string := String.concat "" chunks.


(** ** [ModelAdmin]: names, the delete page, the export page *)

(** [ModelAdmin.get_display_name]. *)
Definition get_display_name (G : Schema) (self : ModelAdmin) : string :=
  cls_name G (ma_model self).

(** [ModelAdmin.get_admin_name]. *)
Definition get_admin_name (G : Schema) (h : Helpers) (self : ModelAdmin) : string :=
  slugify h (cls_name G (ma_model self)).

(** [ModelAdmin.get_url_name]: blueprint, admin name and view name, as
    [blueprint.admin_view]. *)
Definition get_url_name (G : Schema) (h : Helpers) (self : ModelAdmin) (name : string) : string :=
  blueprint_name self +:+ "." +:+ get_admin_name G h self +:+ "_" +:+ name.

(** [ModelAdmin.get_query]. *)
Definition get_query (self : ModelAdmin) : SelectQuery := select (ma_model self).

(** What the handlers ask of the ORM and of the filter form besides
    running queries: [obj.collect_queries()] (its first component) and
    [FilterForm.process_request] (the refined query). *)
Record Orm := mkOrm {
  collect_queries : Instance -> list (SelectQuery * Field * Z);
  process_request : SelectQuery -> Request -> SelectQuery
}.

(** Running a list of handler steps one after the other. *)
Fixpoint emit_all (es : list event) : M unit :=
  match es with
  | [] => mret tt
  | e :: es' => _ ← emit e; emit_all es'
  end.

(** The queries [collect_objects] sends for one object. *)
Definition collect_objects_queries (orm : Orm) (obj : Instance) : list event :=
  map (fun '(query, _, _) => Executed (set_query query (SelList ["*"]))) (collect_queries orm obj).

(** [str(n)] for an integer. *)
Definition str_of_Z (z : Z) : string := dumps_int z.

(** [ModelAdmin.delete]. The preview computed for a GET goes to the
    template; the response keeps the name of the template. *)
Definition delete_ (G : Schema) (h : Helpers) (db : Database) (orm : Orm)
    (self : ModelAdmin) (request : Request) : M Response :=
  let id_list :=
    if decide (method request = "GET") then md_getlist (args request) "id"
    else md_getlist (form request) "id" in
  let query :=
    where_ (select (ma_model self)) (pk_name G (ma_model self) +:+ "__in") (WList id_list) in
  if decide (method request = "GET") then
    _ ← (if delete_collect_objects self then
           _ ← emit (Executed query);
           emit_all (concat (map (collect_objects_queries orm) (db_rows db query)))
         else mret tt);
    mret (Rendered "admin/models/delete.html")
  else if decide (method request = "POST") then
    _ ← emit (Counted query);
    let count := db_count db query in
    _ ← emit (Executed query);
    _ ← emit_all (map (fun obj => Deleted obj (delete_recursive self)) (db_rows db query));
    _ ← emit (Flashed ("Successfully deleted " +:+ str_of_Z count +:+ " "
                       +:+ get_display_name G self +:+ "s") "success");
    mret (Redirect (url_for h (get_url_name G h self "index") []))
  else raise NameError.

(** [ModelAdmin.export]. [fuel] bounds the recursion of
    [collect_related_fields]; [None] says the bound was reached. *)
Definition export (G : Schema) (h : Helpers) (db : Database) (orm : Orm) (fuel : nat)
    (self : ModelAdmin) (request : Request) : option (M Response) :=
  let query := get_query self in
  let ordering := default "" (md_get (args request) "ordering") in
  let query := apply_ordering G self query ordering in
  let query := process_request orm query request in
  match collect_related_fields G (ma_model self) fuel (ma_model self) ∅ [] with
  | None => None
  | Some related =>
      if decide (method request = "POST") then
        let raw_fields := md_getlist (form request) "fields" in
        let export := Export_init query related raw_fields in
        Some (lift (json_response G h db export
                      ("export-" +:+ get_admin_name G h self +:+ ".json")))
      else Some (mret (Rendered "admin/models/export.html"))
  end.

(** ** [Admin]: the registry and the routes *)

(** A view function: the URL arguments, then the request. *)
Definition View : Type := list (string * string) -> Request -> M Response.

(** A panel: its title and the routes a subclass gives it, each with the
    name of its callback. The base class has none. *)
Record AdminPanel := mkAdminPanel {
  panel_title : string;
  panel_urls : list (string * string * View)
}.

Definition panel_slug (h : Helpers) (p : AdminPanel) : string := slugify h (panel_title p).

(** The state of an [Admin]. *)
Record Admin := mkAdmin {
  admin_auth : Auth;
  admin_blueprint : string;
  _registry : gmap Model ModelAdmin;
  _panels : gmap string AdminPanel
}.

(** [Admin.register], with the admin class given as its constructor. *)
Definition register (self : Admin) (model : Model)
    (admin_class : string -> Model -> ModelAdmin) : Admin :=
  mkAdmin (admin_auth self) (admin_blueprint self)
    (<[model := admin_class (admin_blueprint self) model]> (_registry self)) (_panels self).

(** [Admin.unregister]: [del self._registry[model]]. *)
Definition unregister (self : Admin) (model : Model) : result Admin :=
  match _registry self !! model with
  | Some _ =>
      Ok (mkAdmin (admin_auth self) (admin_blueprint self)
            (delete model (_registry self)) (_panels self))
  | None => Raise KeyError
  end.

(** [Admin.__contains__], [Admin.__getitem__], [Admin.get_admin_for]. *)
Definition admin_contains (self : Admin) (item : Model) : bool :=
  bool_decide (is_Some (_registry self !! item)).

Definition admin_getitem (self : Admin) (item : Model) : result ModelAdmin :=
  dict_get (_registry self) item.

Definition get_admin_for (self : Admin) (model : Model) : option ModelAdmin :=
  _registry self !! model.

(** [Admin.register_panel], [Admin.unregister_panel]. *)
Definition register_panel (self : Admin) (title : string)
    (panel : string -> AdminPanel) : Admin :=
  mkAdmin (admin_auth self) (admin_blueprint self) (_registry self)
    (<[title := panel title]> (_panels self)).

Definition unregister_panel (self : Admin) (title : string) : result Admin :=
  match _panels self !! title with
  | Some _ =>
      Ok (mkAdmin (admin_auth self) (admin_blueprint self) (_registry self)
            (delete title (_panels self)))
  | None => Raise KeyError
  end.

(** [Admin.get_model_admins]: the admins sorted by admin name. The values of
    the registry come in the order of [map_to_list]. *)
Definition get_model_admins (G : Schema) (h : Helpers) (self : Admin) : list ModelAdmin :=
  sorted (fun a b => String.leb (get_admin_name G h a) (get_admin_name G h b))
         (map snd (map_to_list (_registry self))).

(** [Admin.get_panels]. *)
Definition get_panels (h : Helpers) (self : Admin) : list AdminPanel :=
  sorted (fun a b => String.leb (panel_slug h a) (panel_slug h b))
         (map snd (map_to_list (_panels self))).

(** [Admin.index]. *)
Definition admin_index : View := fun _ _ => mret (Rendered "admin/index.html").

(** The list page and the two form pages of a model admin, which run the
    filter and form libraries, as view functions of the admin. *)
Record FormViews := mkFormViews {
  index : ModelAdmin -> Request -> M Response;
  add : ModelAdmin -> Request -> M Response;
  edit : ModelAdmin -> string -> Request -> M Response
}.

(** What every handler needs from outside. *)
Record World := mkWorld {
  w_schema : Schema;
  w_helpers : Helpers;
  w_db : Database;
  w_orm : Orm;
  w_forms : FormViews;
  w_fuel : nat
}.

(** [ModelAdmin.get_urls]: each URL with the name of its callback and the
    callback. A recursion of the export page that reaches the bound of the
    world is an error of the interpreter. *)
Definition get_urls (w : World) (self : ModelAdmin) : list (string * string * View) :=
  [("/", "index", fun _ request => index (w_forms w) self request);
   ("/add/", "add", fun _ request => add (w_forms w) self request);
   ("/delete/", "delete",
    fun _ request => delete_ (w_schema w) (w_helpers w) (w_db w) (w_orm w) self request);
   ("/export/", "export",
    fun _ request =>
      match export (w_schema w) (w_helpers w) (w_db w) (w_orm w) (w_fuel w) self request with
      | Some r => r
      | None => raise RuntimeError
      end);
   ("/<pk>/", "edit",
    fun url_args request => edit (w_forms w) self (default "" (md_get url_args "pk")) request);
   ("/_ajax/", "ajax_list", fun _ request => ajax_list (w_helpers w) self request)].

(** [Admin.get_urls]. *)
Definition admin_get_urls (w : World) (self : Admin) : list (string * string * View) :=
  [("/", "index", auth_required (w_helpers w) (admin_auth self) admin_index)].

(** A rule of the blueprint. *)
Record Rule := mkRule {
  rule_url : string;
  endpoint : string;
  view_func : View;
  methods : list string
}.

(** [Admin.configure_routes]: the rules it adds to the blueprint, in
    order. *)
Definition configure_routes (w : World) (self : Admin) : list Rule :=
  map (fun '(url, name, callback) => mkRule url name callback ["GET"; "POST"])
      (admin_get_urls w self)
  ++ concat
       (map (fun model_admin =>
               let admin_name := get_admin_name (w_schema w) (w_helpers w) model_admin in
               map (fun '(url, name, callback) =>
                      mkRule ("/" +:+ admin_name +:+ url) (admin_name +:+ "_" +:+ name)
                        (auth_required (w_helpers w) (admin_auth self) callback)
                        ["GET"; "POST"])
                   (get_urls w model_admin))
            (map snd (map_to_list (_registry self))))
  ++ concat
       (map (fun panel =>
               map (fun '(url, name, callback) =>
                      mkRule ("/" +:+ panel_slug (w_helpers w) panel +:+ url)
                        ("panel_" +:+ panel_slug (w_helpers w) panel +:+ "_" +:+ name)
                        (auth_required (w_helpers w) (admin_auth self) callback)
                        ["GET"; "POST"])
                   (panel_urls panel))
            (map snd (map_to_list (_panels self)))).

(** ** [AdminTemplateHelper] *)

(** [AdminTemplateHelper.get_model_name]. *)
Definition get_model_name (G : Schema) (admin : Admin) (model_class : Model) : string :=
  match get_admin_for admin model_class with
  | Some model_admin => get_display_name G model_admin
  | None => cls_name G model_class
  end.

(** ** Reading JSON back

    A reader for JSON texts, the yardstick for what [json_response] sends:
    the grammar of RFC 8259 with integers for numbers and code points below
    256 in strings. *)

Definition is_ws (c : ascii) : bool :=
  let n := N_of_ascii c in
  (n =? 32)%N || (n =? 9)%N || (n =? 10)%N || (n =? 13)%N.

Fixpoint skip_ws (s : string) : string :=
  match s with
  | String c s' => if is_ws c then skip_ws s' else s
  | EmptyString => s
  end.

Definition digit_of (c : ascii) : option (Decimal.uint -> Decimal.uint) :=
  match N_of_ascii c with
  | 48 => Some Decimal.D0 | 49 => Some Decimal.D1 | 50 => Some Decimal.D2
  | 51 => Some Decimal.D3 | 52 => Some Decimal.D4 | 53 => Some Decimal.D5
  | 54 => Some Decimal.D6 | 55 => Some Decimal.D7 | 56 => Some Decimal.D8
  | 57 => Some Decimal.D9 | _ => None
  end%N.

(** The longest run of digits at the head of [s], and what follows it. *)
Fixpoint parse_digits (s : string) : Decimal.uint * string :=
  match s with
  | String c s' =>
      match digit_of c with
      | Some d => let '(u, r) := parse_digits s' in (d u, r)
      | None => (Decimal.Nil, s)
      end
  | EmptyString => (Decimal.Nil, s)
  end.

#[global] Instance uint_eq_dec : EqDecision Decimal.uint.
Proof. solve_decision. Defined.

(** A numeral with no leading zero, as the grammar asks. *)
Definition parse_uint (s : string) : option (Z * string) :=
  let '(u, r) := parse_digits s in
  if decide (Decimal.unorm u = u) then Some (Z.of_uint u, r) else None.

Definition parse_int (s : string) : option (json * string) :=
  match s with
  | String c s' =>
      if decide (c = "-"%char) then
        match parse_uint s' with
        | Some (z, r) => Some (JInt (- z), r)
        | None => None
        end
      else
        match parse_uint s with
        | Some (z, r) => Some (JInt z, r)
        | None => None
        end
  | EmptyString => None
  end.

Definition hex_val (c : ascii) : option N :=
  let n := N_of_ascii c in
  if decide (48 <= n <= 57)%N then Some (n - 48)%N
  else if decide (97 <= n <= 102)%N then Some (n - 87)%N
  else if decide (65 <= n <= 70)%N then Some (n - 55)%N
  else None.

(** The character a short escape stands for. *)
Definition unescape (e : ascii) : option ascii :=
  let n := N_of_ascii e in
  if decide (e = DQ) then Some DQ
  else if decide (e = BS) then Some BS
  else if decide (e = "/"%char) then Some "/"%char
  else if decide (e = "b"%char) then Some (ascii_of_N 8)
  else if decide (e = "f"%char) then Some (ascii_of_N 12)
  else if decide (e = "n"%char) then Some (ascii_of_N 10)
  else if decide (e = "r"%char) then Some (ascii_of_N 13)
  else if decide (e = "t"%char) then Some (ascii_of_N 9)
  else None.

(** A string after its opening quote, up to the closing one. *)
Fixpoint parse_string_body (s : string) : option (string * string) :=
  match s with
  | EmptyString => None
  | String c s' =>
      if decide (c = DQ) then Some (EmptyString, s')
      else if decide (c = BS) then
        match s' with
        | String e s'' =>
            if decide (e = "u"%char) then
              match s'' with
              | String h1 (String h2 (String h3 (String h4 r))) =>
                  match hex_val h1, hex_val h2, hex_val h3, hex_val h4 with
                  | Some 0%N, Some 0%N, Some n3, Some n4 =>
                      match parse_string_body r with
                      | Some (t, r') => Some (String (ascii_of_N (16 * n3 + n4)) t, r')
                      | None => None
                      end
                  | _, _, _, _ => None
                  end
              | _ => None
              end
            else
              match unescape e with
              | Some c' =>
                  match parse_string_body s'' with
                  | Some (t, r') => Some (String c' t, r')
                  | None => None
                  end
              | None => None
              end
        | EmptyString => None
        end
      else if (N_of_ascii c <? 32)%N then None
      else
        match parse_string_body s' with
        | Some (t, r') => Some (String c t, r')
        | None => None
        end
  end.

(** The word [w] at the head of [s]. *)
Fixpoint expect (w s : string) : option string :=
  match w, s with
  | EmptyString, _ => Some s
  | String a w', String b s' => if decide (a = b) then expect w' s' else None
  | String _ _, EmptyString => None
  end.

(** A value, the elements of an array after its bracket, the members of an
    object after its brace; [fuel] bounds the nesting and the number of
    elements. *)
Fixpoint parse_value (fuel : nat) (s : string) : option (json * string) :=
  match fuel with
  | O => None
  | S fuel' =>
      match skip_ws s with
      | EmptyString => None
      | String c r =>
          if decide (c = "n"%char) then r' ← expect "ull" r; Some (JNull, r')
          else if decide (c = "t"%char) then r' ← expect "rue" r; Some (JBool true, r')
          else if decide (c = "f"%char) then r' ← expect "alse" r; Some (JBool false, r')
          else if decide (c = DQ) then
            match parse_string_body r with
            | Some (t, r') => Some (JStr t, r')
            | None => None
            end
          else if decide (c = "["%char) then
            match skip_ws r with
            | String c' r' =>
                if decide (c' = "]"%char) then Some (JList [], r')
                else
                  match parse_elements fuel' r with
                  | Some (l, r') => Some (JList l, r')
                  | None => None
                  end
            | EmptyString => None
            end
          else if decide (c = "{"%char) then
            match skip_ws r with
            | String c' r' =>
                if decide (c' = "}"%char) then Some (JDict [], r')
                else
                  match parse_members fuel' r with
                  | Some (l, r') => Some (JDict l, r')
                  | None => None
                  end
            | EmptyString => None
            end
          else parse_int (String c r)
      end
  end
with parse_elements (fuel : nat) (s : string) : option (list json * string) :=
  match fuel with
  | O => None
  | S fuel' =>
      match parse_value fuel' s with
      | Some (v, r) =>
          match skip_ws r with
          | String c r' =>
              if decide (c = ","%char) then
                match parse_elements fuel' r' with
                | Some (l, r'') => Some (v :: l, r'')
                | None => None
                end
              else if decide (c = "]"%char) then Some ([v], r')
              else None
          | EmptyString => None
          end
      | None => None
      end
  end
with parse_members (fuel : nat) (s : string) : option (list (string * json) * string) :=
  match fuel with
  | O => None
  | S fuel' =>
      match skip_ws s with
      | String c r =>
          if decide (c = DQ) then
            match parse_string_body r with
            | Some (k, r1) =>
                match skip_ws r1 with
                | String c1 r2 =>
                    if decide (c1 = ":"%char) then
                      match parse_value fuel' r2 with
                      | Some (v, r3) =>
                          match skip_ws r3 with
                          | String c3 r4 =>
                              if decide (c3 = ","%char) then
                                match parse_members fuel' r4 with
                                | Some (l, r5) => Some ((k, v) :: l, r5)
                                | None => None
                                end
                              else if decide (c3 = "}"%char) then Some ([(k, v)], r4)
                              else None
                          | EmptyString => None
                          end
                      | None => None
                      end
                    else None
                | EmptyString => None
                end
            | None => None
            end
          else None
      | EmptyString => None
      end
  end.

(** [json.loads]: one value, with nothing but white space after it. *)
Definition json_loads (s : string) : option json :=
  match parse_value (S (String.length s)) s with
  | Some (v, r) => if decide (skip_ws r = EmptyString) then Some v else None
  | None => None
  end.
(** * Notions the properties are stated with *)

(** The ancestor prefixes of a path, nearest first: what [ensure_join]
    passes down its recursion. *)
Fixpoint ancestors_fuel (fuel : nat) (p : string) : list string :=
  match fuel, rsplit2 p with
  | S fuel', Some (next, _) => next :: ancestors_fuel fuel' next
  | _, _ => []
  end.

Definition ancestors (p : string) : list string :=
  ancestors_fuel (String.length p) p.

(** The joins that took [q] to [q']: appended to [_joins], their targets
    added to [_joined_models], nothing else of the query touched but the
    context. *)
Definition extends (q q' : SelectQuery) (l : list (Model * Model)) : Prop :=
  _joins q' = _joins q ++ l /\
  _joined_models q' = _joined_models q ∪ list_to_set l.*2 /\
  q_model q' = q_model q /\ _where q' = _where q /\
  _order_by q' = _order_by q /\ q_query q' = q_query q.

(** No path of the alias map resolves to the entity type of one of its own
    ancestor prefixes: the relation paths behind the map run through no
    cycle. *)
Definition alias_acyclic (alias : gmap string Model) : Prop :=
  forall p m a, alias !! p = Some m -> a ∈ ancestors p -> alias !! a <> Some m.

(** What a lookup of [self.fields] resolves to: the entity type whose
    select list receives the column, and the column. *)
Definition resolve (self : Export) (lookup : string) : option (Model * string) :=
  match rsplit2 lookup with
  | Some (path, column) => m ← alias_to_model self !! path; Some (m, column)
  | None => Some (q_model (e_query self), lookup)
  end.

(** The columns of the resolved lookups that belong to [m], in the order of
    the lookups. *)
Definition columns_of (m : Model) (targets : list (Model * string)) : list string :=
  (filter (fun t => t.1 = m) targets).*2.


(** ** Example schemas *)

Definition Post : Model := 0%nat.
Definition Author : Model := 1%nat.
Definition blog_schema : Schema :=
  mkSchema
    (fun m => if decide (m = Post) then "Post" else "User")
    (fun m => if decide (m = Post)
              then [mkField "id" None; mkField "name" None; mkField "user" (Some Author)]
              else if decide (m = Author) then [mkField "id" None; mkField "email" None]
              else [])
    (fun _ => "id").

Definition blog_related : Related :=
  default ∅ (collect_related_fields blog_schema Post 3 Post ∅ []).

Definition blog_export (fields : list string) : Export :=
  Export_init (select Post) blog_related fields.

(** A diamond: [Order] reaches [City] directly through [ship_to] and through
    [customer] and the customer's [city]. *)
Definition Order : Model := 0%nat.
Definition Customer : Model := 1%nat.
Definition City : Model := 2%nat.
Definition shop_schema : Schema :=
  mkSchema
    (fun m => if decide (m = Order) then "Order"
              else if decide (m = Customer) then "Customer" else "City")
    (fun m => if decide (m = Order)
              then [mkField "id" None; mkField "ship_to" (Some City);
                    mkField "customer" (Some Customer)]
              else if decide (m = Customer)
              then [mkField "id" None; mkField "city" (Some City)]
              else if decide (m = City) then [mkField "id" None; mkField "name" None]
              else [])
    (fun _ => "id").

Definition shop_related : Related :=
  default ∅ (collect_related_fields shop_schema Order 4 Order ∅ []).

Definition shop_export : Export :=
  Export_init (select Order) shop_related ["ship_to__name"; "customer__city__name"].

(** A reporting schema whose relation graph has no cycle, with a field whose
    name holds the delimiter: a report has an [owner], a member, and an
    [owner__note], a note; a note has an [author], a member. *)
Definition Report : Model := 0%nat.
Definition Member : Model := 1%nat.
Definition Note : Model := 2%nat.
Definition report_schema : Schema :=
  mkSchema
    (fun m => if decide (m = Report) then "Report"
              else if decide (m = Member) then "Member" else "Note")
    (fun m => if decide (m = Report)
              then [mkField "id" None; mkField "owner" (Some Member);
                    mkField "owner__note" (Some Note)]
              else if decide (m = Member) then [mkField "id" None]
              else if decide (m = Note)
              then [mkField "id" None; mkField "author" (Some Member)]
              else [])
    (fun _ => "id").

Definition report_related : Related :=
  default ∅ (collect_related_fields report_schema Report 4 Report ∅ []).

Definition report_export : Export :=
  Export_init (select Report) report_related ["owner__note__author__id"].

(** The entries of the delete preview before sorting: one per select query
    that yields rows. *)
Definition collected_entries (db : Database)
    (select_queries : list (SelectQuery * Field * Z)) : list Collected :=
  omap (fun '(query, fk_field, depth) =>
          let collected := db_rows db (set_query query (SelList ["*"])) in
          if bool_decide (collected <> [])
          then Some (depth, q_model query, fk_field, collected) else None)
       select_queries.

(** The order of the delete preview: by depth, then by the name of the
    entity type. *)
Definition depth_then_name (G : Schema) (a b : Collected) : Prop :=
  a.1.1.1 < b.1.1.1 \/
  (a.1.1.1 = b.1.1.1 /\ String.leb (cls_name G a.1.1.2) (cls_name G b.1.1.2) = true).

(** A forum: comments and attachments hang on a post, votes on a comment. *)
Definition Comment : Model := 1%nat.
Definition Attachment : Model := 2%nat.
Definition Vote : Model := 3%nat.
Definition forum_schema : Schema :=
  mkSchema
    (fun m => if decide (m = Post) then "Post"
              else if decide (m = Comment) then "Comment"
              else if decide (m = Attachment) then "Attachment" else "Vote")
    (fun m => if decide (m = Post) then [mkField "id" None]
              else if decide (m = Comment)
              then [mkField "id" None; mkField "post" (Some Post)]
              else if decide (m = Attachment)
              then [mkField "id" None; mkField "post" (Some Post)]
              else [mkField "id" None; mkField "comment" (Some Comment)])
    (fun _ => "id").

(** Every query finds one row. *)
Definition forum_db : Database :=
  mkDatabase (fun q => [mkInstance (q_model q) (JInt 1) "row"]) (fun _ => 1).

(** What [collect_queries] may hand over, at depths 2, 1, 1 and 0. *)
Definition forum_queries : list (SelectQuery * Field * Z) :=
  [(select Vote, mkField "comment" (Some Comment), 2);
   (select Comment, mkField "post" (Some Post), 1);
   (select Attachment, mkField "post" (Some Post), 1);
   (select Post, mkField "id" None, 0)].

(** ** Relation paths *)

(** [reach G m p m']: following the relation fields named by [p], one after
    the other, leads from [m] to [m']. *)
Inductive reach (G : Schema) : Model -> list string -> Model -> Prop :=
  | reach_nil m : reach G m [] m
  | reach_cons m f to p m' :
      f ∈ get_fields G m -> field_to f = Some to -> reach G to p m' ->
      reach G m (field_name f :: p) m'.

(** The relation graph below [root] is acyclic: the entity types reachable
    from [root] can be ranked so that every relation field points to a type
    of lower rank. *)
Definition acyclic_from (G : Schema) (root : Model) : Prop :=
  exists rank : Model -> nat,
    forall p m f to,
      reach G root p m -> f ∈ get_fields G m -> field_to f = Some to ->
      (rank to < rank m)%nat.

(** Field names are unique within an entity type. *)
Definition unique_names (G : Schema) : Prop :=
  forall m, NoDup (map field_name (get_fields G m)).

(** One recorded field: the entity type, the relation path that led to it
    and the field. *)
Definition Entry : Type := Model * list string * Field.

(** The walk of [collect_related_fields] with the accumulator left out: the
    fields it records, in order, each with its path still a list. *)
Fixpoint related_entries (G : Schema) (self_model : Model) (fuel : nat)
    (model : Model) (path : list string) : option (list Entry) :=
  match fuel with
  | O => None
  | S fuel' =>
      foldl (fun acc field =>
               match acc with
               | None => None
               | Some es =>
                   match field_to field with
                   | Some to =>
                       match related_entries G self_model fuel' to
                               (path ++ [field_name field]) with
                       | Some es' => Some (es ++ es')
                       | None => None
                       end
                   | None =>
                       if decide (model <> self_model)
                       then Some (es ++ [(model, path, field)])
                       else Some es
                   end
               end)
            (Some []) (get_fields G model)
  end.

(** Recording one entry in the accumulator. *)
Definition add_entry (accum : Related) (e : Entry) : Related :=
  accum_append accum (e.1.1, join_path e.1.2) e.2.

(** The fields among [es] recorded under the key [(m, s)]. *)
Definition entries_at (m : Model) (s : string) (es : list Entry) : list Field :=
  (filter (fun e : Entry => e.1.1 = m /\ join_path e.1.2 = s) es).*2.

(** A category tree: every category points to its parent category. *)
Definition Category : Model := 0%nat.
Definition tree_schema : Schema :=
  mkSchema (fun _ => "Category")
    (fun m => if decide (m = Category)
              then [mkField "id" None; mkField "parent" (Some Category)] else [])
    (fun _ => "id").

(** One turn of the loop over the fields, for the walk and for the code. *)
Definition entries_step (G : Schema) (self_model : Model) (fuel : nat) (model : Model) (path : list string)
    (acc : option (list Entry)) (field : Field) : option (list Entry) :=
  match acc with
  | None => None
  | Some es =>
      match field_to field with
      | Some to =>
          match related_entries G self_model fuel to (path ++ [field_name field]) with
          | Some es' => Some (es ++ es')
          | None => None
          end
      | None =>
          if decide (model <> self_model)
          then Some (es ++ [(model, path, field)]) else Some es
      end
  end.

Definition collect_step (G : Schema) (self_model : Model) (fuel : nat) (model : Model) (path : list string)
    (acc : option Related) (field : Field) : option Related :=
  match acc with
  | None => None
  | Some accum =>
      match field_to field with
      | Some to =>
          collect_related_fields G self_model fuel to accum (path ++ [field_name field])
      | None =>
          if decide (model <> self_model)
          then Some (accum_append accum (model, join_path path) field)
          else Some accum
      end
  end.

(** The entries one field contributes to the walk of its entity type. *)
Definition field_entries (G : Schema) (self_model : Model) (fuel : nat)
    (model : Model) (path : list string) (f : Field) : option (list Entry) :=
  match field_to f with
  | Some to => related_entries G self_model fuel to (path ++ [field_name f])
  | None => Some (if decide (model <> self_model) then [(model, path, f)] else [])
  end.

(** The field of the entity type at [path] an entry goes back to: the field
    itself, or the relation field its path continues with. *)
Definition entry_tag (path : list string) (e : Entry) : string :=
  match drop (length path) e.1.2 with
  | [] => field_name e.2
  | n :: _ => n
  end.

(** ** Example collaborators *)

(** Helpers for the examples: URLs are the endpoint followed by the query
    arguments, the return path is the path of the request, only the path
    [user] resolves (to [Author]), and rows serialize to their key alone. *)
Definition demo_helpers : Helpers :=
  mkHelpers
    (fun endpoint kwargs =>
       endpoint +:+ "?" +:+ String.concat "&" (map (fun kv => kv.1 +:+ "=" +:+ kv.2) kwargs))
    (fun request => path request)
    (fun s => s)
    (fun m field =>
       if decide (field = Some "user") then Ok [Author] else Raise AttributeError)
    (fun _ => 1)
    (fun _ _ => 1)
    (fun q _ _ => [mkInstance (q_model q) (JInt 7) "seven"])
    (fun obj _ => [("id", get_pk obj)]).

(** An auth collaborator for the examples: the request names its user. *)
Definition demo_auth : Auth :=
  mkAuth
    (fun request =>
       match md_get (args request) "user" with
       | Some name => Some (mkUser name (bool_decide (name = "root")))
       | None => None
       end)
    "accounts".

(** A handler for the examples. *)
Definition demo_handler (_ : unit) (request : Request) : M Response :=
  ([Flashed "seen" "info"], Ok (Rendered "admin/index.html")).

(** ** Measures for the reader *)

(** A string of white space only. *)
Fixpoint ws_only (w : string) : bool :=
  match w with
  | EmptyString => true
  | String c w' => is_ws c && ws_only w'
  end.

(** [s] does not go on with a digit. *)
Definition no_digit_head (s : string) : Prop :=
  match s with
  | String c _ => digit_of c = None
  | EmptyString => True
  end.

(** The fuel the reader needs for a value. *)
Fixpoint jsize (v : json) : nat :=
  match v with
  | JList l => S (list_sum (map (fun x => S (jsize x)) l))
  | JDict items => S (list_sum (map (fun kv => S (jsize kv.2)) items))
  | _ => 1
  end.

(** What a written value starts with: no white space and no closing
    bracket or brace. *)
Definition value_head (s : string) : Prop :=
  exists c r, s = String c r /\ is_ws c = false /\ c <> "]"%char /\ c <> "}"%char.

(** A value in front of [rest] is read back, with [rest] left over. *)
Definition reads_back (v : json) : Prop :=
  forall fuel w rest,
    ws_only w = true -> no_digit_head rest -> (jsize v <= fuel)%nat ->
    parse_value fuel (w +:+ json_dumps v +:+ rest) = Some (v, rest).

(** ** The export stream *)

(** The text of one exported row. *)
Definition row_text (h : Helpers) (prepared_query : SelectQuery) (obj : Instance) : string :=
  json_dumps (JDict (serialize_object h obj (q_query prepared_query))).

(** The separator the generator yields between two rows. *)
Definition row_separator : string := "," +:+ LF.

(** How many of the chunks are separators. *)
Definition separators (chunks : list string) : nat :=
  length (filter (fun c => c = row_separator) chunks).

(** A database with three posts, and one with none. *)
Definition three_posts : Database :=
  mkDatabase
    (fun q => [mkInstance Post (JInt 1) "first"; mkInstance Post (JInt 2) "second";
               mkInstance Post (JInt 3) "third"])
    (fun _ => 3).

Definition no_posts : Database := mkDatabase (fun _ => []) (fun _ => 0).

(** ** Well-formed field names *)

(** [str.startswith('_')]. *)
Definition startswith_underscore (s : string) : bool :=
  match s with
  | String "_" _ => true
  | _ => false
  end.

(** A name that survives in a joined path: it holds no delimiter and does
    not start with an underscore, so that splitting the joined path at its
    last delimiter gives the name back. *)
Definition clean_name (n : string) : Prop :=
  rsplit2 n = None /\ startswith_underscore n = false.

(** The relation fields of the schema have such names. *)
Definition clean_names (G : Schema) : Prop :=
  forall m f to, f ∈ get_fields G m -> field_to f = Some to -> clean_name (field_name f).

(** The callback a rule of the blueprint wraps. *)
Definition wraps (w : World) (self : Admin) (rule : Rule) : Prop :=
  exists callback, view_func rule = auth_required (w_helpers w) (admin_auth self) callback.

(** The query of the delete page: the rows of the model whose key is among
    the posted or requested ids. *)
Definition delete_query (G : Schema) (self : ModelAdmin) (id_list : list string) : SelectQuery :=
  where_ (select (ma_model self)) (pk_name G (ma_model self) +:+ "__in") (WList id_list).


(** ** An example site *)

(** The admin of [Post] with a lookup for its [user] field. *)
Definition post_admin : ModelAdmin :=
  mkModelAdmin Post "admin" 20 15 (Some {["user" := "email"]}) true true.

(** An ORM collaborator for the examples: a post drags its comments along,
    and the filters leave the query alone. *)
Definition demo_orm : Orm :=
  mkOrm (fun obj => [(select Comment, mkField "post" (Some Post), 1)])
        (fun query _ => query).

(** Form pages for the examples. *)
Definition demo_forms : FormViews :=
  mkFormViews
    (fun _ _ => mret (Rendered "admin/models/index.html"))
    (fun _ _ => mret (Rendered "admin/models/add.html"))
    (fun _ _ _ => mret (Rendered "admin/models/edit.html")).

Definition demo_world : World :=
  mkWorld blog_schema demo_helpers three_posts demo_orm demo_forms 3.

(** An admin site with [Post] registered. *)
Definition demo_site : Admin :=
  register (mkAdmin demo_auth "admin" ∅ ∅) Post default_admin.

(** A lookup request for the [user] field of a post. *)
Definition ajax_request : Request :=
  mkRequest "GET" "/admin/post/_ajax/" [("field", "user"); ("query", "bo")] [].

(** ** The export stream, line by line *)

(** Every character is a printable ASCII character (codes 32 to 126). *)
Fixpoint printable (s : string) : bool :=
  match s with
  | EmptyString => true
  | String c s' => bool_decide (32 <= N_of_ascii c <= 126)%N && printable s'
  end.

(** [str.split] at the line feeds: the lines of a text. *)
Fixpoint split_lines (s : string) : list string :=
  match s with
  | EmptyString => [EmptyString]
  | String c s' =>
      if decide (c = ascii_of_nat 10) then EmptyString :: split_lines s'
      else match split_lines s' with
           | l :: ls => String c l :: ls
           | [] => [String c EmptyString]
           end
  end.

(** The lines the exported rows take: every row but the last with a comma
    at its end, and one empty line when there is no row. *)
Fixpoint row_lines (rows : list string) : list string :=
  match rows with
  | [] => [EmptyString]
  | r :: rest =>
      match rest with
      | [] => [r]
      | _ :: _ => (r +:+ ",") :: row_lines rest
      end
  end.

(** ** The registry and the models of its admins *)

(** Every admin is filed under the model it was built for. *)
Definition registry_consistent (self : Admin) : Prop :=
  forall model model_admin,
    _registry self !! model = Some model_admin -> ma_model model_admin = model.
(** * Properties *)

(** ** Strings *)

Lemma rsplit2_app p hd tl :
  rsplit2 p = Some (hd, tl) -> p = hd +:+ "__" +:+ tl.
Proof.
  revert hd tl. induction p as [|c p IH]; intros hd tl H; simpl in H; [done|].
  destruct (rsplit2 p) as [[hd' tl']|] eqn:E.
  - inversion H; subst.
    change (String c p = String c (hd' +:+ "__" +:+ tl)).
    f_equal. exact (IH _ _ eq_refl).
  - destruct p as [|c' p']; [done|].
    destruct (decide _) as [[-> ->]|]; [|done].
    by inversion H; subst.
Qed.

Lemma string_length_app (s t : string) :
  String.length (s +:+ t) = (String.length s + String.length t)%nat.
Proof. induction s as [|c s IH]; simpl; [done|]. by rewrite IH. Qed.

Lemma rsplit2_length p hd tl :
  rsplit2 p = Some (hd, tl) ->
  (String.length hd + 2 + String.length tl = String.length p)%nat.
Proof.
  intros H. apply rsplit2_app in H. subst p.
  rewrite !string_length_app. simpl. lia.
Qed.

(** ** [Export.prepare_query]: joins *)

Lemma ancestors_fuel_enough n p :
  (String.length p <= n)%nat -> ancestors_fuel n p = ancestors p.
Proof.
  unfold ancestors. revert p.
  induction (lt_wf n) as [n _ IH]. intros p Hn.
  destruct (rsplit2 p) as [[next tl]|] eqn:E.
  - pose proof (rsplit2_length _ _ _ E) as Hl.
    destruct n as [|n]; [lia|].
    destruct (String.length p) as [|k] eqn:Ek; [lia|].
    simpl. rewrite E.
    f_equal. rewrite (IH n) by lia. symmetry. apply IH; lia.
  - destruct n, (String.length p); simpl; by rewrite ?E.
Qed.

Lemma ancestors_step p next tl :
  rsplit2 p = Some (next, tl) -> ancestors p = next :: ancestors next.
Proof.
  intros E. pose proof (rsplit2_length _ _ _ E) as Hl.
  unfold ancestors at 1.
  destruct (String.length p) as [|k] eqn:Ek; [lia|].
  simpl. rewrite E. f_equal. apply ancestors_fuel_enough. lia.
Qed.

Lemma ancestors_none p : rsplit2 p = None -> ancestors p = [].
Proof. intros E. unfold ancestors. destruct (String.length p); simpl; by rewrite ?E. Qed.

Section PrepareQuery.
Context (G : Schema) (self : Export).

(** The fuel [ensure_join] passes is enough: more changes nothing. *)
Lemma ensure_join_fuel_enough n q m p :
  (String.length p <= n)%nat ->
  ensure_join_fuel G self n q m p = ensure_join G self q m p.
Proof.
  unfold ensure_join. revert q m p.
  induction (lt_wf n) as [n _ IH]. intros q m p Hn.
  destruct (rsplit2 p) as [[next tl]|] eqn:E.
  - pose proof (rsplit2_length _ _ _ E) as Hl.
    destruct n as [|n]; [lia|].
    destruct (String.length p) as [|k] eqn:Ek; [lia|].
    simpl. rewrite E.
    destruct (decide _); [|done].
    destruct (dict_get _ _) as [next_model|]; [|done]. simpl.
    rewrite (IH n) by lia. rewrite (IH k) by lia. done.
  - destruct n, (String.length p); simpl; by rewrite ?E.
Qed.

(** The unfolding of [ensure_join], as the source reads. *)
Lemma ensure_join_eq q m p :
  ensure_join G self q m p =
  if decide (m ∉ _joined_models q) then
    match rsplit2 p with
    | None => q' ← switch q (q_model q); join G q' m
    | Some (next, _) =>
        next_model ← dict_get (alias_to_model self) next;
        query ← ensure_join G self q next_model next;
        q' ← switch query next_model; join G q' m
    end
  else Ok q.
Proof.
  unfold ensure_join at 1.
  destruct (rsplit2 p) as [[next tl]|] eqn:E.
  - pose proof (rsplit2_length _ _ _ E) as Hl.
    destruct (String.length p) as [|k] eqn:Ek; [lia|].
    simpl. rewrite E.
    destruct (decide _); [|done].
    destruct (dict_get _ _) as [next_model|]; [|done]. simpl.
    rewrite ensure_join_fuel_enough by lia. done.
  - destruct (String.length p); simpl; by rewrite E.
Qed.

End PrepareQuery.
Lemma extends_refl q : extends q q [].
Proof. unfold extends. rewrite app_nil_r. simpl. repeat split; set_solver. Qed.

Lemma extends_trans q1 q2 q3 l1 l2 :
  extends q1 q2 l1 -> extends q2 q3 l2 -> extends q1 q3 (l1 ++ l2).
Proof.
  unfold extends. intros (Ha & Hb & Hc & Hd & He & Hf) (Ha' & Hb' & Hc' & Hd' & He' & Hf').
  rewrite Ha', Ha, Hb', Hb, Hc', Hd', He', Hf', fmap_app, list_to_set_app_L, app_assoc.
  repeat split; try done. set_solver.
Qed.

Lemma switch_extends q m q' : switch q m = Ok q' -> extends q q' [] /\ query_context q' = m.
Proof.
  unfold switch. intros H.
  assert (q' = set_context q m) as -> by (repeat case_decide; congruence).
  split; [|done]. unfold extends; simpl. rewrite app_nil_r. repeat split; set_solver.
Qed.

Lemma join_extends G q m q' :
  join G q m = Ok q' -> extends q q' [(query_context q, m)].
Proof.
  unfold join. destruct (rel_exists _ _ _); [|done]. intros [= <-].
  unfold extends; simpl. repeat split; set_solver.
Qed.

Section PrepareQueryJoins.
Context (G : Schema) (self : Export).

Lemma ensure_join_extends q m p q' :
  ensure_join G self q m p = Ok q' ->
  exists l,
    extends q q' l /\
    m ∈ _joined_models q' /\
    (forall t, t ∈ l.*2 -> t ∉ _joined_models q) /\
    (forall t, t ∈ l.*2 ->
       t = m \/ exists a, a ∈ ancestors p /\ alias_to_model self !! a = Some t) /\
    (alias_acyclic (alias_to_model self) ->
     (forall a, a ∈ ancestors p -> alias_to_model self !! a <> Some m) ->
     NoDup l.*2).
Proof.
  remember (String.length p) as n eqn:Hn. revert q m p q' Hn.
  induction (lt_wf n) as [n _ IH]. intros q m p q' Hn.
  rewrite ensure_join_eq. case_decide as Hm.
  2:{ intros [= <-]. exists []. split; [apply extends_refl|].
      split; [by destruct (decide (m ∈ _joined_models q))|]. simpl.
      repeat split; try (intros ? ?%elem_of_nil; done). intros. constructor. }
  destruct (rsplit2 p) as [[next tl]|] eqn:E.
  - pose proof (rsplit2_length _ _ _ E) as Hl.
    rewrite (ancestors_step _ _ _ E).
    unfold dict_get. destruct (alias_to_model self !! next) as [nm|] eqn:Enm; [|done].
    simpl. destruct (ensure_join G self q nm next) as [q1|] eqn:E1; [|done]. simpl.
    destruct (switch q1 nm) as [q2|] eqn:E2; [|done]. simpl. intros E3.
    destruct (IH (String.length next) ltac:(lia) _ _ _ _ eq_refl E1)
      as (l1 & Hx1 & Hin1 & Hfresh1 & Hsrc1 & Hnd1).
    apply switch_extends in E2 as [Hx2 Hc2].
    apply join_extends in E3. rewrite Hc2 in E3.
    exists (l1 ++ [(nm, m)]).
    pose proof (extends_trans _ _ _ _ _ Hx1 (extends_trans _ _ _ _ _ Hx2 E3)) as Hx.
    simpl in Hx. split; [done|].
    split. { destruct Hx as (_ & -> & _). rewrite fmap_app. set_solver. }
    rewrite fmap_app. simpl.
    split. { intros t [Ht|Ht]%elem_of_app; [by apply Hfresh1|]. set_solver. }
    split. { intros t [Ht|Ht]%elem_of_app.
             - destruct (Hsrc1 t Ht) as [->|(a & Ha & Hat)]; right.
               + exists next. split; [set_solver|done].
               + exists a. split; [set_solver|done].
             - left. set_solver. }
    intros Hacyc Hprem. apply NoDup_app. split; [|split].
    + apply Hnd1; [done|]. intros a Ha. by apply (Hacyc next).
    + intros t Ht Ht'. apply list_elem_of_singleton in Ht' as ->.
      destruct (Hsrc1 m Ht) as [->|(a & Ha & Hat)].
      * apply (Hprem next); [set_solver|done].
      * apply (Hprem a); [set_solver|done].
    + apply NoDup_singleton.
  - rewrite (ancestors_none _ E).
    destruct (switch q (q_model q)) as [q2|] eqn:E2; [|done]. simpl. intros E3.
    apply switch_extends in E2 as [Hx2 Hc2].
    apply join_extends in E3. rewrite Hc2 in E3.
    exists [(q_model q, m)].
    pose proof (extends_trans _ _ _ _ _ Hx2 E3) as Hx. simpl in Hx.
    split; [done|].
    split. { destruct Hx as (_ & -> & _). set_solver. }
    simpl. split. { intros t ->%list_elem_of_singleton. done. }
    split. { intros t ->%list_elem_of_singleton. by left. }
    intros _ _. apply NoDup_singleton.
Qed.
End PrepareQueryJoins.
Section PrepareQueryLoop.
Context (G : Schema) (self : Export).

Lemma prepare_loop_spec lookups clone select clone' select' :
  prepare_loop G self lookups clone select = Ok (clone', select') ->
  exists l targets,
    extends clone clone' l /\
    (forall t, t ∈ l.*2 -> t ∉ _joined_models clone) /\
    (alias_acyclic (alias_to_model self) -> NoDup l.*2) /\
    mapM (resolve self) lookups = Some targets /\
    (forall lookup path column,
       lookup ∈ lookups -> rsplit2 lookup = Some (path, column) ->
       exists m, alias_to_model self !! path = Some m /\ m ∈ _joined_models clone') /\
    (forall m, select' !! m =
       match select !! m, columns_of m targets with
       | None, [] => None
       | o, cols => Some (default [] o ++ cols)
       end).
Proof.
  revert clone select. induction lookups as [|lookup rest IH]; intros clone select; simpl.
  - intros [= <- <-]. exists [], []. split; [apply extends_refl|]. simpl.
    repeat split; try (intros ? ?%elem_of_nil; done); [constructor| |].
    { intros ? ? ? ?%elem_of_nil. done. }
    intros m. destruct (select !! m); simpl; by rewrite ?app_nil_r.
  - destruct (rsplit2 lookup) as [[path column]|] eqn:E.
    + unfold dict_get. destruct (alias_to_model self !! path) as [model|] eqn:Em; [|done].
      simpl. destruct (ensure_join G self clone model path) as [clone1|] eqn:E1; [|done].
      simpl. intros H.
      destruct (IH _ _ H) as (l2 & targets & Hx2 & Hfresh2 & Hnd2 & Hmap & Hjoined & Hsel).
      destruct (ensure_join_extends _ _ _ _ _ _ E1) as (l1 & Hx1 & Hin1 & Hfresh1 & _ & Hnd1).
      exists (l1 ++ l2), ((model, column) :: targets).
      split; [by eapply extends_trans|].
      assert (_joined_models clone1 = _joined_models clone ∪ list_to_set l1.*2) as Hj1
        by apply Hx1.
      assert (_joined_models clone' = _joined_models clone1 ∪ list_to_set l2.*2) as Hj2
        by apply Hx2.
      rewrite fmap_app.
      split. { intros t [Ht|Ht]%elem_of_app; [by apply Hfresh1|].
               apply Hfresh2 in Ht. set_solver. }
      split. { intros Hacyc. apply NoDup_app. split; [|split].
               - apply Hnd1; [done|]. intros a Ha. by apply (Hacyc path).
               - intros t Ht Ht'. apply Hfresh2 in Ht'. set_solver.
               - by apply Hnd2. }
      split. { assert (resolve self lookup = Some (model, column)) as Hr
                 by (unfold resolve; rewrite E, Em; done).
               simpl. by rewrite Hr, Hmap. }
      split. { intros lk pa co [->|Ht]%elem_of_cons Hlk; [|by eapply Hjoined].
               rewrite E in Hlk. injection Hlk as <- <-.
               exists model. split; [done|]. set_solver. }
      intros m. rewrite Hsel. unfold select_append, columns_of. rewrite filter_cons. simpl.
      destruct (decide (model = m)) as [->|Hne].
      * rewrite lookup_insert_eq. simpl.
        destruct (select !! m); simpl; by rewrite <- ?app_assoc.
      * rewrite lookup_insert_ne by done. done.
    + simpl. intros H.
      destruct (IH _ _ H) as (l2 & targets & Hx2 & Hfresh2 & Hnd2 & Hmap & Hjoined & Hsel).
      exists l2, ((q_model (e_query self), lookup) :: targets).
      split; [done|]. split; [done|]. split; [done|].
      split. { assert (resolve self lookup = Some (q_model (e_query self), lookup)) as Hr
                 by (unfold resolve; rewrite E; done).
               simpl. by rewrite Hr, Hmap. }
      split. { intros lk pa co [->|Ht]%elem_of_cons Hlk; [congruence|by eapply Hjoined]. }
      intros m. rewrite Hsel. unfold select_append, columns_of. rewrite filter_cons. simpl.
      destruct (decide (q_model (e_query self) = m)) as [<-|Hne].
      * rewrite lookup_insert_eq. simpl.
        destruct (select !! _); simpl; by rewrite <- ?app_assoc.
      * rewrite lookup_insert_ne by done. done.
Qed.

End PrepareQueryLoop.
Lemma zip_snoc {A B} (a : list A) (b : list B) x y :
  length a = length b -> zip (a ++ [x]) (b ++ [y]) = zip a b ++ [(x, y)].
Proof. intros H. by rewrite zip_with_app. Qed.

Section PrepareQueryChain.
Context (G : Schema) (self : Export).

Lemma ensure_join_chain q m p q' :
  ensure_join G self q m p = Ok q' ->
  m ∉ _joined_models q ->
  (forall a t, a ∈ ancestors p -> alias_to_model self !! a = Some t ->
               t ∉ _joined_models q) ->
  exists ms,
    mapM (fun a => alias_to_model self !! a) (reverse (ancestors p)) = Some ms /\
    _joins q' = _joins q ++ zip (q_model q :: ms) (ms ++ [m]) /\
    _joined_models q' = _joined_models q ∪ list_to_set (ms ++ [m]).
Proof.
  remember (String.length p) as n eqn:Hn. revert q m p q' Hn.
  induction (lt_wf n) as [n _ IH]. intros q m p q' Hn.
  rewrite ensure_join_eq. intros H Hm Hanc. rewrite decide_True in H by done.
  destruct (rsplit2 p) as [[next tl]|] eqn:E.
  - pose proof (rsplit2_length _ _ _ E) as Hl.
    rewrite (ancestors_step _ _ _ E) in *.
    unfold dict_get in H.
    destruct (alias_to_model self !! next) as [nm|] eqn:Enm; [|done].
    simpl in H. destruct (ensure_join G self q nm next) as [q1|] eqn:E1; [|done].
    simpl in H. destruct (switch q1 nm) as [q2|] eqn:E2; [|done]. simpl in H.
    assert (nm ∉ _joined_models q) as Hnm by (apply (Hanc next); [set_solver|done]).
    destruct (IH (String.length next) ltac:(lia) _ _ _ _ eq_refl E1 Hnm)
      as (ms & Hms & Hj & Hjm).
    { intros a t Ha. apply Hanc. set_solver. }
    apply switch_extends in E2 as [(Hj2 & Hjm2 & Hr2 & _) Hc2].
    apply join_extends in H as (Hj3 & Hjm3 & _). rewrite Hc2 in Hj3.
    exists (ms ++ [nm]).
    split. { rewrite reverse_cons. apply mapM_Some.
             apply Forall2_app; [by apply mapM_Some|]. by repeat constructor. }
    split.
    + rewrite Hj3, Hj2, app_nil_r, Hj, <- app_assoc. f_equal.
      rewrite app_comm_cons, zip_snoc; [done|].
      rewrite length_app. simpl. lia.
    + rewrite Hjm3, Hjm2, Hjm. simpl. rewrite !list_to_set_app_L. set_solver.
  - rewrite (ancestors_none _ E). simpl.
    destruct (switch q (q_model q)) as [q2|] eqn:E2; [|done]. simpl in H.
    apply switch_extends in E2 as [(Hj2 & Hjm2 & _) Hc2].
    apply join_extends in H as (Hj3 & Hjm3 & _). rewrite Hc2 in Hj3.
    exists []. split; [done|]. simpl.
    rewrite Hj3, Hj2, Hjm3, Hjm2, app_nil_r. simpl. split; [done|]. set_solver.
Qed.

End PrepareQueryChain.

(** C3, as the code has it. [ensure_join] leaves a query alone when the
    model is in [_joined_models] at the time of the call, and every join
    [prepare_query] adds is for an entity type the base query had not
    joined. The guard is tested before the recursion on the ancestor
    prefixes and the join that follows the recursion is not guarded again,
    so the joins [prepare_query] adds name no entity type twice only when no
    path of the alias map resolves to the entity type of one of its own
    ancestor prefixes; then this holds for every base query and every list
    of selected paths, however many of them need the type. *)
Theorem prepare_query_joins_once (G : Schema) (self : Export) :
  (forall q m p, m ∈ _joined_models q -> ensure_join G self q m p = Ok q) /\
  (forall q', prepare_query G self = Ok q' ->
   exists added,
     _joins q' = _joins (e_query self) ++ added /\
     _joined_models q' = _joined_models (e_query self) ∪ list_to_set added.*2 /\
     (forall m, m ∈ added.*2 -> m ∉ _joined_models (e_query self)) /\
     (alias_acyclic (alias_to_model self) -> NoDup added.*2)).
Proof.
  split.
  - intros q m p Hm. rewrite ensure_join_eq. by rewrite decide_False by (by intros ?).
  - intros q'. unfold prepare_query.
    destruct (prepare_loop G self (fields self) (e_query self) ∅) as [[clone select]|] eqn:E;
      [|done].
    simpl. intros [= <-].
    destruct (prepare_loop_spec _ _ _ _ _ _ _ E) as (l & targets & Hx & Hfresh & Hnd & _).
    exists l. destruct Hx as (Hj & Hjm & _). simpl. auto.
Qed.

Lemma blog_alias_acyclic fields : alias_acyclic (alias_to_model (blog_export fields)).
Proof.
  assert (alias_to_model (blog_export fields) = {[ "user" := Author ]}) as ->
    by (vm_compute; reflexivity).
  intros p m a [<- <-]%lookup_singleton_Some Ha.
  replace (ancestors "user") with (@nil string) in Ha by (vm_compute; reflexivity).
  by apply elem_of_nil in Ha.
Defined.

(** Two selected columns behind the same relation: one join. *)
Lemma prepare_query_joins_once_witness :
  exists q', prepare_query blog_schema (blog_export ["user__email"; "name"; "user__id"]) = Ok q' /\
  exists added,
    _joins q' = [] ++ added /\
    _joined_models q' = ∅ ∪ list_to_set added.*2 /\
    (forall m, m ∈ added.*2 -> m ∉ (∅ : gset Model)) /\
    NoDup added.*2.
Proof.
  eexists. split; [vm_compute; reflexivity|].
  destruct (proj2 (prepare_query_joins_once blog_schema
                     (blog_export ["user__email"; "name"; "user__id"]))
                  (mkQuery Post Author [(Post, Author)] {[Author]} [] []
                     (SelDict {[Post := ["name"]; Author := ["email"; "id"]]})))
    as (added & Hj & Hjm & Hfresh & Hnd); [vm_compute; reflexivity|].
  exists added. split; [exact Hj|]. split; [exact Hjm|]. split; [exact Hfresh|].
  exact (Hnd (blog_alias_acyclic _)).
Defined.

(** C3 as stated fails: in [report_schema] the path [owner__note__author]
    resolves to [Member], the entity type of its ancestor prefix [owner].
    [ensure_join] finds [Member] not joined, joins it on the way down for
    [owner], and joins it again after the recursion for the path itself. *)
Lemma prepare_query_joins_twice :
  ~ (forall G self q',
       prepare_query G self = Ok q' ->
       exists added,
         _joins q' = _joins (e_query self) ++ added /\ NoDup added.*2).
Proof.
  intros H.
  destruct (H report_schema report_export
              (mkQuery Report Member [(Report, Member); (Member, Note); (Note, Member)]
                 {[Member; Note]} [] [] (SelDict {[Member := ["id"]]})))
    as (added & Hj & Hnd); [vm_compute; reflexivity|].
  change (_joins (e_query report_export)) with (@nil (Model * Model)) in Hj.
  simpl in Hj. subst added.
  change ([(Report, Member); (Member, Note); (Note, Member)].*2)
    with [Member; Note; Member] in Hnd.
  apply NoDup_cons in Hnd as [Hnotin _]. apply Hnotin. set_solver.
Qed.
(** C4, as the code has it. After [prepare_query] returns, the terminal
    entity type of every selected path with a delimiter is in the
    joined-model set. [ensure_join] resolves the path right to left and
    stops at the first entity type that is already joined: when neither the
    terminal type nor the type of any ancestor prefix was joined before, it
    joins them all, ancestors before descendants, the outermost from the
    root and each other one from its parent. *)
Theorem prepare_query_joins_path (G : Schema) (self : Export) :
  (forall q' lookup path column,
     prepare_query G self = Ok q' -> lookup ∈ fields self ->
     rsplit2 lookup = Some (path, column) ->
     exists m, alias_to_model self !! path = Some m /\ m ∈ _joined_models q') /\
  (forall q m p q',
     ensure_join G self q m p = Ok q' ->
     m ∉ _joined_models q ->
     (forall a t, a ∈ ancestors p -> alias_to_model self !! a = Some t ->
                  t ∉ _joined_models q) ->
     exists ms,
       mapM (fun a => alias_to_model self !! a) (reverse (ancestors p)) = Some ms /\
       _joins q' = _joins q ++ zip (q_model q :: ms) (ms ++ [m]) /\
       _joined_models q' = _joined_models q ∪ list_to_set (ms ++ [m])).
Proof.
  split.
  - intros q' lookup path column. unfold prepare_query.
    destruct (prepare_loop G self (fields self) (e_query self) ∅) as [[clone select]|] eqn:E;
      [|done].
    simpl. intros [= <-] Hin Hsplit.
    destruct (prepare_loop_spec _ _ _ _ _ _ _ E) as (l & targets & _ & _ & _ & _ & Hj & _).
    by apply (Hj lookup path column).
  - apply ensure_join_chain.
Qed.

(** The diamond of [shop_schema]: with nothing joined, the path through the
    customer joins [Customer] from [Order] and then [City] from
    [Customer]. *)
Lemma prepare_query_joins_path_witness :
  exists q', ensure_join shop_schema shop_export (select Order) City "customer__city" = Ok q' /\
  exists ms,
    mapM (fun a => alias_to_model shop_export !! a) (reverse (ancestors "customer__city"))
      = Some ms /\
    _joins q' = [] ++ zip (Order :: ms) (ms ++ [City]) /\
    _joined_models q' = ∅ ∪ list_to_set (ms ++ [City]).
Proof.
  eexists. split; [vm_compute; reflexivity|].
  apply (proj2 (prepare_query_joins_path shop_schema shop_export)
           (select Order) City "customer__city").
  - vm_compute. reflexivity.
  - simpl. set_solver.
  - intros a t _ _. simpl. set_solver.
Defined.

(** C4 as stated fails: in the diamond, [City] is joined for [ship_to__name]
    first, so the path [customer__city] finds its terminal type joined and
    its ancestor [customer] is never joined. *)
Lemma prepare_query_skips_ancestor :
  ~ (forall G self q' lookup path column a m,
       prepare_query G self = Ok q' -> lookup ∈ fields self ->
       rsplit2 lookup = Some (path, column) -> a ∈ ancestors path ->
       alias_to_model self !! a = Some m -> m ∈ _joined_models q').
Proof.
  intros H.
  specialize (H shop_schema shop_export
                (mkQuery Order City [(Order, City)] {[City]} [] []
                   (SelDict {[City := ["name"; "name"]]}))
                "customer__city__name" "customer__city" "name" "customer" Customer).
  assert (Customer ∈ ({[City]} : gset Model)) as Hin.
  { apply H.
    - vm_compute. reflexivity.
    - simpl. set_solver.
    - vm_compute. reflexivity.
    - replace (ancestors "customer__city") with ["customer"] by (vm_compute; reflexivity).
      set_solver.
    - vm_compute. reflexivity. }
  apply elem_of_singleton in Hin. discriminate.
Qed.

(** C5. The query [prepare_query] returns selects, per entity type, exactly
    the requested columns: a path with no delimiter gives its column to the
    root type, a path [ancestorPath__column] gives [column] to the type
    [ancestorPath] maps to, in the order of the request, and a type with no
    requested column has no entry. For [name] and [user__email] on [Post]
    with [user] pointing to [User], the result joins [User] once and selects
    [name] of [Post] and [email] of [User]. *)
Theorem prepare_query_selects :
  (forall G self q',
     prepare_query G self = Ok q' ->
     exists targets sel,
       mapM (resolve self) (fields self) = Some targets /\
       q_query q' = SelDict sel /\
       forall m, sel !! m =
                 if decide (columns_of m targets = []) then None
                 else Some (columns_of m targets)) /\
  (exists q',
     prepare_query blog_schema (blog_export ["name"; "user__email"]) = Ok q' /\
     _joins q' = [(Post, Author)] /\
     q_query q' = SelDict {[Post := ["name"]; Author := ["email"]]}).
Proof.
  split.
  - intros G self q'. unfold prepare_query.
    destruct (prepare_loop G self (fields self) (e_query self) ∅) as [[clone select]|] eqn:E;
      [|done].
    simpl. intros [= <-].
    destruct (prepare_loop_spec _ _ _ _ _ _ _ E) as (l & targets & _ & _ & _ & Hm & _ & Hs).
    exists targets, select. split; [done|]. split; [done|].
    intros m. rewrite Hs, lookup_empty.
    destruct (columns_of m targets); done.
  - eexists. split; [vm_compute; reflexivity|]. split; vm_compute; reflexivity.
Qed.

Lemma prepare_query_selects_witness :
  exists targets sel,
    mapM (resolve (blog_export ["user__id"; "name"; "user__email"]))
         ["user__id"; "name"; "user__email"] = Some targets /\
    SelDict {[Post := ["name"]; Author := ["id"; "email"]]} = SelDict sel /\
    forall m, sel !! m =
              if decide (columns_of m targets = []) then None
              else Some (columns_of m targets).
Proof.
  apply (proj1 prepare_query_selects blog_schema
           (blog_export ["user__id"; "name"; "user__email"])
           (mkQuery Post Author [(Post, Author)] {[Author]} [] []
              (SelDict {[Post := ["name"]; Author := ["id"; "email"]]}))).
  vm_compute. reflexivity.
Defined.
(** ** [sorted] *)

Section Sorted.
Context {A : Type} (le : A -> A -> bool).
Hypothesis le_total : forall x y, le x y = true \/ le y x = true.
Hypothesis le_trans : forall x y z, le x y = true -> le y z = true -> le x z = true.

Lemma insert_by_perm x l : insert_by le x l ≡ₚ x :: l.
Proof.
  induction l as [|y l IH]; simpl; [done|].
  destruct (le x y); [done|]. rewrite IH. apply Permutation_swap.
Qed.

Lemma sorted_perm l : sorted le l ≡ₚ l.
Proof.
  induction l as [|x l IH]; simpl; [done|].
  unfold sorted in *. simpl. by rewrite insert_by_perm, IH.
Qed.

Lemma insert_by_sorted x l :
  StronglySorted (fun a b => le a b = true) l ->
  StronglySorted (fun a b => le a b = true) (insert_by le x l).
Proof.
  induction 1 as [|y l Hs IH Hy]; simpl; [repeat constructor|].
  destruct (le x y) eqn:E.
  - constructor; [by constructor|].
    constructor; [done|]. eapply Forall_impl; [exact Hy|]. intros z Hz. by eapply le_trans.
  - constructor; [done|].
    rewrite insert_by_perm. constructor; [|done].
    by destruct (le_total x y); [congruence|].
Qed.

Lemma sorted_sorted l : StronglySorted (fun a b => le a b = true) (sorted le l).
Proof.
  induction l as [|x l IH]; [constructor|]. by apply insert_by_sorted.
Qed.

End Sorted.

Lemma StronglySorted_mono {A} (R S : A -> A -> Prop) l :
  (forall a b, R a b -> S a b) -> StronglySorted R l -> StronglySorted S l.
Proof.
  intros HRS. induction 1 as [|x l Hs IH Hx]; constructor; [done|].
  eapply Forall_impl; [exact Hx|]. intros y. apply HRS.
Qed.

Lemma ascii_compare_trans_lt a b c :
  Ascii.compare a b = Lt -> Ascii.compare b c = Lt -> Ascii.compare a c = Lt.
Proof. unfold Ascii.compare. rewrite !N.compare_lt_iff. lia. Qed.

Lemma ascii_compare_eq a b : Ascii.compare a b = Eq -> a = b.
Proof.
  unfold Ascii.compare. rewrite N.compare_eq_iff. intros H.
  by rewrite <- (ascii_N_embedding a), <- (ascii_N_embedding b), H.
Qed.

Lemma string_compare_trans s1 s2 s3 :
  String.compare s1 s2 <> Gt -> String.compare s2 s3 <> Gt -> String.compare s1 s3 <> Gt.
Proof.
  revert s2 s3. induction s1 as [|a s1 IH]; intros [|b s2] [|c s3]; simpl; try done.
  destruct (Ascii.compare a b) eqn:Eab; [| |done].
  - apply ascii_compare_eq in Eab as ->.
    destruct (Ascii.compare b c) eqn:Ebc; [|done|done]. apply IH.
  - destruct (Ascii.compare b c) eqn:Ebc; [| |done]; intros _ _.
    + apply ascii_compare_eq in Ebc as <-. by rewrite Eab.
    + by rewrite (ascii_compare_trans_lt _ _ _ Eab Ebc).
Qed.

Lemma string_leb_trans s1 s2 s3 :
  String.leb s1 s2 = true -> String.leb s2 s3 = true -> String.leb s1 s3 = true.
Proof.
  unfold String.leb. intros H1 H2.
  pose proof (string_compare_trans s1 s2 s3) as H.
  destruct (String.compare s1 s2), (String.compare s2 s3), (String.compare s1 s3);
    try done; exfalso; by apply H.
Qed.

Lemma key_leb_total k1 k2 : key_leb k1 k2 = true \/ key_leb k2 k1 = true.
Proof.
  unfold key_leb. destruct k1 as [d1 n1], k2 as [d2 n2]; simpl.
  destruct (Z.lt_trichotomy d1 d2) as [H|[->|H]].
  - left. apply orb_true_iff. left. lia.
  - rewrite Z.ltb_irrefl, Z.eqb_refl. simpl. apply String.leb_total.
  - right. apply orb_true_iff. left. lia.
Qed.

Lemma key_leb_trans k1 k2 k3 :
  key_leb k1 k2 = true -> key_leb k2 k3 = true -> key_leb k1 k3 = true.
Proof.
  unfold key_leb. destruct k1 as [d1 n1], k2 as [d2 n2], k3 as [d3 n3]; simpl.
  rewrite !orb_true_iff, !andb_true_iff, !Z.ltb_lt, !Z.eqb_eq.
  intros [H1|[-> H1]] [H2|[-> H2]]; [left; lia|by left|by left|].
  right. split; [done|]. by eapply string_leb_trans.
Qed.

(** The entries [collect_objects] sorts: one per select query with rows. *)
Lemma collect_objects_unsorted db (select_queries : list (SelectQuery * Field * Z)) acc :
  foldl (fun objects '(query, fk_field, depth) =>
           let model := q_model query in
           let query := set_query query (SelList ["*"]) in
           let collected := db_rows db query in
           if bool_decide (collected <> []) then
             objects ++ [(depth, model, fk_field, collected)]
           else objects)
        acc select_queries
  = acc ++ collected_entries db select_queries.
Proof.
  revert acc. induction select_queries as [|[[q f] d] l IH]; intros acc; simpl.
  - by rewrite app_nil_r.
  - rewrite IH. unfold collected_entries. simpl.
    case_bool_decide; simpl; [by rewrite <- app_assoc|done].
Qed.

Lemma collect_objects_eq G db select_queries :
  collect_objects G db select_queries =
  sorted (fun a b => key_leb (collected_key G a) (collected_key G b))
         (collected_entries db select_queries).
Proof. unfold collect_objects. by rewrite collect_objects_unsorted. Qed.

(** C6. The list [collect_objects] returns is sorted by depth, shallowest
    first, and by the name of the entity type within one depth. Dependents
    found at depths 2, 1, 1 and 0 come out at depths 0, 1, 1 and 2, the two
    at depth 1 in the order of their type names. *)
Theorem collect_objects_sorted :
  (forall G db select_queries,
     StronglySorted (depth_then_name G) (collect_objects G db select_queries)) /\
  map (fun e => (e.1.1.1, cls_name forum_schema e.1.1.2))
      (collect_objects forum_schema forum_db forum_queries)
  = [(0, "Post"); (1, "Attachment"); (1, "Comment"); (2, "Vote")].
Proof.
  split; [|vm_compute; reflexivity].
  intros G db select_queries. rewrite collect_objects_eq.
  eapply StronglySorted_mono; [|apply sorted_sorted].
  - intros a b. unfold depth_then_name, key_leb, collected_key. simpl.
    rewrite orb_true_iff, andb_true_iff, Z.ltb_lt, Z.eqb_eq. done.
  - intros x y. apply key_leb_total.
  - intros x y z. apply key_leb_trans.
Qed.
(** ** [collect_related_fields] *)

Section CollectRelated.
Context (G : Schema) (self_model : Model).

Lemma related_entries_S fuel model path :
  related_entries G self_model (S fuel) model path =
  foldl (entries_step G self_model fuel model path) (Some []) (get_fields G model).
Proof. reflexivity. Qed.

Lemma collect_related_fields_S fuel model accum path :
  collect_related_fields G self_model (S fuel) model accum path =
  foldl (collect_step G self_model fuel model path) (Some accum) (get_fields G model).
Proof. reflexivity. Qed.

Lemma foldl_entries_step_None fuel model path fs :
  foldl (entries_step G self_model fuel model path) None fs = None.
Proof. by induction fs. Qed.

Lemma foldl_collect_step_None fuel model path fs :
  foldl (collect_step G self_model fuel model path) None fs = None.
Proof. by induction fs. Qed.

(** The loop over the fields, from any list of entries collected so far. *)
Lemma foldl_entries_step_app fuel model path es0 fs :
  foldl (entries_step G self_model fuel model path) (Some es0) fs =
  match foldl (entries_step G self_model fuel model path) (Some []) fs with
  | Some es => Some (es0 ++ es)
  | None => None
  end.
Proof.
  revert es0. induction fs as [|f fs IH] using rev_ind; intros es0.
  - simpl. by rewrite app_nil_r.
  - rewrite !foldl_app. simpl. rewrite IH.
    destruct (foldl _ (Some []) fs) as [es|]; simpl; [|done].
    destruct (field_to f) as [to|].
    + destruct (related_entries _ _ _ _ _); by rewrite ?app_assoc.
    + case_decide; by rewrite ?app_assoc.
Qed.

Lemma foldl_entries_step_cons fuel model path f fs :
  foldl (entries_step G self_model fuel model path) (Some []) (f :: fs) =
  match entries_step G self_model fuel model path (Some []) f with
  | Some es1 =>
      match foldl (entries_step G self_model fuel model path) (Some []) fs with
      | Some es2 => Some (es1 ++ es2)
      | None => None
      end
  | None => None
  end.
Proof.
  change (foldl (entries_step G self_model fuel model path) (Some []) (f :: fs))
    with (foldl (entries_step G self_model fuel model path)
            (entries_step G self_model fuel model path (Some []) f) fs).
  destruct (entries_step _ _ _ _ _ (Some []) f) as [es1|].
  - apply foldl_entries_step_app.
  - apply foldl_entries_step_None.
Qed.

(** The code is the walk followed by the recording of its entries. *)
Lemma collect_related_fields_entries fuel model accum path :
  collect_related_fields G self_model fuel model accum path =
  match related_entries G self_model fuel model path with
  | Some es => Some (foldl add_entry accum es)
  | None => None
  end.
Proof.
  revert model accum path. induction fuel as [|fuel IH]; intros model accum path; [done|].
  rewrite related_entries_S, collect_related_fields_S.
  generalize (get_fields G model). intros fs. revert accum.
  induction fs as [|f fs IHfs]; intros accum; [done|].
  rewrite foldl_entries_step_cons.
  change (foldl (collect_step G self_model fuel model path) (Some accum) (f :: fs))
    with (foldl (collect_step G self_model fuel model path)
            (collect_step G self_model fuel model path (Some accum) f) fs).
  simpl. destruct (field_to f) as [to|] eqn:Ef.
  - rewrite IH. destruct (related_entries _ _ _ _ _) as [es1|]; simpl.
    + rewrite IHfs. destruct (foldl _ (Some []) fs); [|done]. by rewrite foldl_app.
    + apply foldl_collect_step_None.
  - case_decide; simpl; rewrite IHfs; by destruct (foldl _ (Some []) fs).
Qed.

End CollectRelated.
Section RelatedEntries.
Context (G : Schema) (self_model : Model).

Lemma entries_step_nil fuel model path f :
  entries_step G self_model fuel model path (Some []) f =
  field_entries G self_model fuel model path f.
Proof.
  unfold entries_step, field_entries. destruct (field_to f); [|by case_decide].
  by destruct (related_entries _ _ _ _ _).
Qed.

Lemma related_entries_fields fuel model path :
  related_entries G self_model (S fuel) model path =
  mjoin <$> mapM (field_entries G self_model fuel model path) (get_fields G model).
Proof.
  rewrite related_entries_S. generalize (get_fields G model). intros fs.
  induction fs as [|f fs IH]; [done|].
  rewrite foldl_entries_step_cons, IH, entries_step_nil. simpl.
  destruct (field_entries _ _ _ _ _ f) as [es1|]; simpl; [|done].
  by destruct (mapM _ fs).
Qed.

Lemma related_entries_Some fuel model path es :
  related_entries G self_model (S fuel) model path = Some es <->
  exists parts,
    Forall2 (fun f part => field_entries G self_model fuel model path f = Some part)
            (get_fields G model) parts /\
    es = mjoin parts.
Proof.
  rewrite related_entries_fields. split.
  - destruct (mapM _ _) as [parts|] eqn:E; [|done]. simpl. intros [= <-].
    exists parts. split; [by apply mapM_Some|done].
  - intros (parts & H%mapM_Some & ->). by rewrite H.
Qed.

(** More fuel changes nothing once the walk has returned. *)
Lemma related_entries_mono fuel fuel' model path es :
  (fuel <= fuel')%nat ->
  related_entries G self_model fuel model path = Some es ->
  related_entries G self_model fuel' model path = Some es.
Proof.
  revert fuel' model path es. induction fuel as [|fuel IH]; intros fuel' model path es Hle; [done|].
  destruct fuel' as [|fuel']; [lia|].
  rewrite !related_entries_Some. intros (parts & Hparts & ->).
  exists parts. split; [|done].
  eapply Forall2_impl; [exact Hparts|]. intros f part. unfold field_entries.
  destruct (field_to f); [|done]. apply IH. lia.
Qed.

(** Every entry lies below the path of the call. *)
Lemma related_entries_sound fuel model path es e :
  related_entries G self_model fuel model path = Some es -> e ∈ es ->
  exists r, e.1.2 = path ++ r /\ reach G model r e.1.1 /\ e.1.1 <> self_model /\
            e.2 ∈ get_fields G e.1.1 /\ field_to e.2 = None.
Proof.
  revert model path es. induction fuel as [|fuel IH]; intros model path es; [done|].
  rewrite related_entries_Some. intros (parts & Hparts & ->) Hin.
  apply list_elem_of_join in Hin as (part & Hin & Hpart).
  apply list_elem_of_lookup in Hpart as [i Hi].
  destruct (Forall2_lookup_r _ _ _ _ _ Hparts Hi) as (f & Hf & Hfe).
  apply list_elem_of_lookup_2 in Hf.
  unfold field_entries in Hfe. destruct (field_to f) as [to|] eqn:Eto.
  - destruct (IH _ _ _ Hfe Hin) as (r & Hp & Hr & Hrest).
    exists (field_name f :: r). split; [by rewrite Hp, <- app_assoc|].
    split; [by eapply reach_cons|done].
  - injection Hfe as <-. case_decide; [|by apply elem_of_nil in Hin].
    apply list_elem_of_singleton in Hin as ->. simpl.
    exists []. rewrite app_nil_r. repeat split; try done. constructor.
Qed.

(** Every field below the path of the call has its entry. *)
Lemma related_entries_complete fuel model path es r m f :
  related_entries G self_model fuel model path = Some es ->
  reach G model r m -> m <> self_model -> f ∈ get_fields G m -> field_to f = None ->
  (m, path ++ r, f) ∈ es.
Proof.
  intros Hes Hr. revert fuel path es Hes.
  induction Hr as [m|m0 f0 to p m Hf0 Hto Hr IH]; intros fuel path es Hes Hm Hf Hnone.
  - destruct fuel as [|fuel]; [done|].
    apply related_entries_Some in Hes as (parts & Hparts & ->).
    apply list_elem_of_lookup in Hf as [i Hi].
    destruct (Forall2_lookup_l _ _ _ _ _ Hparts Hi) as (part & Hpart & Hfe).
    apply list_elem_of_join. exists part. split; [|by eapply list_elem_of_lookup_2].
    unfold field_entries in Hfe. rewrite Hnone, decide_True in Hfe by done.
    injection Hfe as <-. rewrite app_nil_r. set_solver.
  - destruct fuel as [|fuel]; [done|].
    apply related_entries_Some in Hes as (parts & Hparts & ->).
    apply list_elem_of_lookup in Hf0 as [i Hi].
    destruct (Forall2_lookup_l _ _ _ _ _ Hparts Hi) as (part & Hpart & Hfe).
    apply list_elem_of_join. exists part. split; [|by eapply list_elem_of_lookup_2].
    unfold field_entries in Hfe. rewrite Hto in Hfe.
    replace (path ++ field_name f0 :: p) with ((path ++ [field_name f0]) ++ p)
      by (by rewrite <- app_assoc).
    by eapply IH.
Qed.

(** The walk returns when its fuel exceeds the rank of the entity type. *)
Lemma related_entries_terminates (rank : Model -> nat) root :
  (forall p m f to, reach G root p m -> f ∈ get_fields G m -> field_to f = Some to ->
                    (rank to < rank m)%nat) ->
  forall fuel p0 model path,
    reach G root p0 model -> (rank model < fuel)%nat ->
    is_Some (related_entries G self_model fuel model path).
Proof.
  intros Hrank. induction fuel as [|fuel IH]; intros p0 model path Hreach Hlt; [lia|].
  rewrite related_entries_fields. apply fmap_is_Some, mapM_is_Some.
  apply Forall_forall. intros f Hf. unfold field_entries, compose.
  destruct (field_to f) as [to|] eqn:Eto; [|by eexists].
  apply (IH (p0 ++ [field_name f])).
  - clear -Hreach Hf Eto. induction Hreach as [m|m1 f1 to1 p m' Hf1 Hto1 Hr IHr]; simpl.
    + eapply reach_cons; [done..|constructor].
    + eapply reach_cons; [done..|]. by apply IHr.
  - specialize (Hrank _ _ _ _ Hreach Hf Eto). lia.
Qed.

Lemma reach_app m1 p1 m2 p2 m3 :
  reach G m1 p1 m2 -> reach G m2 p2 m3 -> reach G m1 (p1 ++ p2) m3.
Proof.
  induction 1 as [m|m f to p m' Hf Hto Hr IH]; simpl; [done|].
  intros H. eapply reach_cons; [done..|]. by apply IH.
Qed.

(** A walk that returns has returned, with less fuel, at every entity type
    it reaches. *)
Lemma related_entries_below fuel model path es r m :
  related_entries G self_model fuel model path = Some es ->
  reach G model r m ->
  (length r < fuel)%nat /\
  is_Some (related_entries G self_model (fuel - length r) m (path ++ r)).
Proof.
  intros Hes Hr. revert fuel path es Hes.
  induction Hr as [m|m0 f0 to p m Hf0 Hto Hr IH]; intros fuel path es Hes.
  - destruct fuel as [|fuel]; [done|]. split; [simpl; lia|].
    change (length (@nil string)) with 0%nat. rewrite app_nil_r, Nat.sub_0_r. by rewrite Hes.
  - destruct fuel as [|fuel]; [done|].
    apply related_entries_Some in Hes as (parts & Hparts & ->).
    apply list_elem_of_lookup in Hf0 as [i Hi].
    destruct (Forall2_lookup_l _ _ _ _ _ Hparts Hi) as (part & Hpart & Hfe).
    unfold field_entries in Hfe. rewrite Hto in Hfe.
    destruct (IH _ _ _ Hfe) as [Hlen Hsome]. split; [simpl; lia|].
    replace (S fuel - length (field_name f0 :: p))%nat with (fuel - length p)%nat
      by (simpl; lia).
    by rewrite <- app_assoc in Hsome.
Qed.

(** On a cycle the walk never returns, whatever the fuel. *)
Lemma related_entries_cycle fuel model path c :
  reach G model c model -> c <> [] ->
  related_entries G self_model fuel model path = None.
Proof.
  intros Hc Hne. revert path. induction (lt_wf fuel) as [fuel _ IH]. intros path.
  destruct (related_entries G self_model fuel model path) as [es|] eqn:E; [|done].
  destruct (related_entries_below _ _ _ _ _ _ E Hc) as [Hlen [es' Hsome]].
  rewrite IH in Hsome; [done|]. destruct c; [done|]. simpl in *. lia.
Qed.

End RelatedEntries.
Section RelatedEntriesNoDup.
Context (G : Schema) (self_model : Model).

Lemma field_entries_tag fuel model path f part e :
  field_entries G self_model fuel model path f = Some part -> e ∈ part ->
  entry_tag path e = field_name f.
Proof.
  unfold field_entries, entry_tag. destruct (field_to f) as [to|].
  - intros Hes Hin.
    destruct (related_entries_sound _ _ _ _ _ _ _ Hes Hin) as (r & -> & _).
    by rewrite <- app_assoc, drop_app_length.
  - intros [= <-]. case_decide; [|by intros ?%elem_of_nil].
    intros ->%list_elem_of_singleton. simpl. by rewrite drop_all.
Qed.

Lemma field_parts_NoDup fuel model path fs parts :
  NoDup (map field_name fs) ->
  Forall2 (fun f part => field_entries G self_model fuel model path f = Some part) fs parts ->
  Forall (fun part : list Entry => NoDup part) parts ->
  NoDup (mjoin parts).
Proof.
  intros Hnames Hparts. revert Hnames.
  induction Hparts as [|f part fs parts Hf Hparts IH]; intros Hnames Hnd; [constructor|].
  simpl in Hnames. apply NoDup_cons in Hnames as [Hname Hnames].
  apply Forall_cons in Hnd as [Hpart Hnd].
  simpl. apply NoDup_app. split; [done|]. split; [|by apply IH].
  intros e He (part' & He' & Hin)%list_elem_of_join.
  apply list_elem_of_lookup in Hin as [i Hi].
  destruct (Forall2_lookup_r _ _ _ _ _ Hparts Hi) as (f' & Hf' & Hfe').
  apply Hname. rewrite <- (field_entries_tag _ _ _ _ _ _ Hf He).
  rewrite (field_entries_tag _ _ _ _ _ _ Hfe' He').
  apply list_elem_of_fmap. exists f'. split; [done|]. by eapply list_elem_of_lookup_2.
Qed.

(** The walk records no field twice. *)
Lemma related_entries_NoDup fuel model path es :
  unique_names G ->
  related_entries G self_model fuel model path = Some es -> NoDup es.
Proof.
  intros Hnames. revert model path es.
  induction fuel as [|fuel IH]; intros model path es; [done|].
  rewrite related_entries_Some. intros (parts & Hparts & ->).
  eapply field_parts_NoDup; [apply Hnames|exact Hparts|].
  apply Forall_forall. intros part Hin.
  apply list_elem_of_lookup in Hin as [i Hi].
  destruct (Forall2_lookup_r _ _ _ _ _ Hparts Hi) as (f & Hf & Hfe).
  unfold field_entries in Hfe. destruct (field_to f).
  - by eapply IH.
  - injection Hfe as <-. case_decide; [apply NoDup_singleton|constructor].
Qed.

End RelatedEntriesNoDup.

(** What the accumulator holds under a key once the entries are recorded. *)
Lemma foldl_add_entry_lookup (accum : Related) es m s :
  foldl add_entry accum es !! (m, s) =
  match accum !! (m, s), entries_at m s es with
  | None, [] => None
  | o, fs => Some (default [] o ++ fs)
  end.
Proof.
  revert accum. induction es as [|e es IH]; intros accum.
  - simpl. destruct (accum !! (m, s)); simpl; by rewrite ?app_nil_r.
  - simpl. rewrite IH. unfold entries_at, add_entry, accum_append.
    rewrite filter_cons. simpl.
    destruct (decide (e.1.1 = m /\ join_path e.1.2 = s)) as [[<- <-]|Hne].
    + rewrite lookup_insert_eq. simpl.
      destruct (accum !! _); simpl; by rewrite <- ?app_assoc.
    + rewrite lookup_insert_ne; [done|]. intros [= ? ?]. by apply Hne.
Qed.

Lemma foldl_add_entry_default (accum : Related) es m s :
  default [] (foldl add_entry accum es !! (m, s)) =
  default [] (accum !! (m, s)) ++ entries_at m s es.
Proof.
  rewrite foldl_add_entry_lookup.
  destruct (accum !! (m, s)); simpl; [done|]. by destruct (entries_at m s es).
Qed.

Lemma reach_nil_inv G m m' : reach G m [] m' -> m = m'.
Proof. by inversion 1. Qed.

(** C8. Whenever [collect_related_fields] returns for a root entity type,
    every non-relation field of every entity type reached through a
    non-empty relation path is in the accumulator under the key of that
    type and the joined path, and no key of the result names the root
    entity type. *)
Theorem collect_related_fields_keys (G : Schema) (root : Model) (fuel : nat)
    (accum : Related) :
  collect_related_fields G root fuel root ∅ [] = Some accum ->
  (forall p m f,
     p <> [] -> reach G root p m -> f ∈ get_fields G m -> field_to f = None ->
     f ∈ default [] (accum !! (m, join_path p))) /\
  (forall s, accum !! (root, s) = None).
Proof.
  rewrite collect_related_fields_entries.
  destruct (related_entries G root fuel root []) as [es|] eqn:Hes; [|done].
  intros [= <-]. split.
  - intros p m f Hp Hreach Hf Hnone.
    assert (m <> root) as Hm.
    { intros ->. by rewrite (related_entries_cycle _ _ _ _ _ _ Hreach Hp) in Hes. }
    rewrite foldl_add_entry_default, lookup_empty. simpl.
    pose proof (related_entries_complete _ _ _ _ _ _ _ _ _ Hes Hreach Hm Hf Hnone) as Hin.
    unfold entries_at. apply list_elem_of_fmap. exists (m, p, f). split; [done|].
    apply list_elem_of_filter. done.
  - intros s. rewrite foldl_add_entry_lookup, lookup_empty.
    destruct (entries_at root s es) as [|f fs] eqn:E; [done|].
    assert (f ∈ entries_at root s es) as Hin by (rewrite E; set_solver).
    unfold entries_at in Hin.
    apply list_elem_of_fmap in Hin as (e & _ & [[Hroot _] Hine]%list_elem_of_filter).
    destruct (related_entries_sound _ _ _ _ _ _ _ Hes Hine) as (_ & _ & _ & Hne & _).
    done.
Qed.

Lemma collect_related_fields_keys_witness :
  (forall p m f,
     p <> [] -> reach blog_schema Post p m -> f ∈ get_fields blog_schema m ->
     field_to f = None -> f ∈ default [] (blog_related !! (m, join_path p))) /\
  (forall s, blog_related !! (Post, s) = None).
Proof.
  apply (collect_related_fields_keys blog_schema Post 2). vm_compute. reflexivity.
Defined.
Lemma blog_acyclic : acyclic_from blog_schema Post.
Proof.
  exists (fun m => if decide (m = Post) then 1%nat else 0%nat).
  intros p m f to _ Hf Hto. simpl in Hf. unfold Post, Author in *.
  repeat case_decide; subst; try (by apply elem_of_nil in Hf);
    repeat (apply elem_of_cons in Hf as [->|Hf]); try (by apply elem_of_nil in Hf);
    simpl in Hto; try discriminate; injection Hto as <-; simpl; lia.
Defined.

Lemma blog_unique_names : unique_names blog_schema.
Proof.
  intros m. simpl. unfold Post, Author.
  repeat case_decide; simpl; repeat (constructor; [set_solver|]); constructor.
Defined.

Lemma collect_related_fields_cycle G root p m c fuel :
  reach G root p m -> reach G m c m -> c <> [] ->
  collect_related_fields G root fuel root ∅ [] = None.
Proof.
  intros Hp Hc Hne. rewrite collect_related_fields_entries.
  destruct (related_entries G root fuel root []) as [es|] eqn:Hes; [|done].
  destruct (related_entries_below _ _ _ _ _ _ _ _ Hes Hp) as [_ [es' Hes']].
  by rewrite (related_entries_cycle _ _ _ _ _ _ Hc Hne) in Hes'.
Qed.

(** C7, as the code has it. On an acyclic relation graph
    [collect_related_fields] returns, and what it returns is the grouping,
    by entity type and joined path, of a list that holds every non-relation
    field of every entity type reached through a non-empty relation path
    exactly once for that path. When a cycle can be reached from the root
    entity type the recursion has no bound and the call never returns. *)
Theorem collect_related_fields_acyclic (G : Schema) (root : Model) :
  (acyclic_from G root -> unique_names G ->
   exists fuel accum entries,
     (forall fuel', (fuel <= fuel')%nat ->
        collect_related_fields G root fuel' root ∅ [] = Some accum) /\
     NoDup entries /\
     (forall m p f,
        (m, p, f) ∈ entries <->
        p <> [] /\ reach G root p m /\ f ∈ get_fields G m /\ field_to f = None) /\
     (forall m s, default [] (accum !! (m, s)) = entries_at m s entries)) /\
  (forall p m c,
     reach G root p m -> reach G m c m -> c <> [] ->
     forall fuel, collect_related_fields G root fuel root ∅ [] = None).
Proof.
  split.
  - intros [rank Hrank] Hnames.
    destruct (related_entries_terminates G root rank root Hrank (S (rank root)) [] root [])
      as [es Hes]; [constructor|lia|].
    exists (S (rank root)), (foldl add_entry ∅ es), es.
    split. { intros fuel' Hle. rewrite collect_related_fields_entries.
             by rewrite (related_entries_mono _ _ _ _ _ _ _ Hle Hes). }
    split. { by eapply related_entries_NoDup. }
    split.
    + intros m p f. split.
      * intros Hin.
        destruct (related_entries_sound _ _ _ _ _ _ _ Hes Hin) as (r & Hp & Hr & Hm & Hf & Hn).
        simpl in *. subst r. repeat split; try done.
        intros ->. by apply reach_nil_inv in Hr.
      * intros (Hp & Hr & Hf & Hn).
        apply (related_entries_complete _ _ _ _ [] _ _ _ _ Hes Hr); try done.
        intros ->. by rewrite (related_entries_cycle _ _ _ _ _ _ Hr Hp) in Hes.
    + intros m s. by rewrite foldl_add_entry_default, lookup_empty.
  - intros p m c Hp Hc Hne fuel. by eapply collect_related_fields_cycle.
Qed.

Lemma collect_related_fields_acyclic_witness :
  exists fuel accum entries,
    (forall fuel', (fuel <= fuel')%nat ->
       collect_related_fields blog_schema Post fuel' Post ∅ [] = Some accum) /\
    NoDup entries /\
    (forall m p f,
       (m, p, f) ∈ entries <->
       p <> [] /\ reach blog_schema Post p m /\ f ∈ get_fields blog_schema m /\
       field_to f = None) /\
    (forall m s, default [] (accum !! (m, s)) = entries_at m s entries).
Proof.
  exact (proj1 (collect_related_fields_acyclic blog_schema Post)
               blog_acyclic blog_unique_names).
Defined.

(** C7 as stated fails: a category that points to its parent category is a
    cycle, and no bound on the depth lets the call return. *)
Lemma collect_related_fields_diverges :
  ~ (forall G root, exists fuel accum,
       collect_related_fields G root fuel root ∅ [] = Some accum).
Proof.
  intros H. destruct (H tree_schema Category) as (fuel & accum & Hsome).
  assert (reach tree_schema Category ["parent"] Category) as Hc.
  { apply (reach_cons tree_schema Category (mkField "parent" (Some Category)) Category []);
      [|done|constructor].
    simpl. set_solver. }
  rewrite (collect_related_fields_cycle tree_schema Category [] Category ["parent"])
    in Hsome; [done|constructor|done|done].
Qed.
(** ** [Admin.auth_required] *)

(** C9. For every request to a wrapped route: with no logged-in user the
    wrapper answers with a redirect to the login URL that carries the
    return path, and the handler has no part in the outcome; with a user
    whose permission check fails it ends the request with status 403, and
    again the handler has no part in it; with a user who passes, the
    outcome is the handler's. *)
Theorem auth_required_guards {A} (h : Helpers) (auth : Auth)
    (func : A -> Request -> M Response) (a : A) (request : Request) :
  (get_logged_in_user auth request = None ->
   auth_required h auth func a request =
   ([], Ok (Redirect (url_for h (auth_blueprint_name auth +:+ ".login")
                        [("next", get_next h request)])))) /\
  (forall user,
     get_logged_in_user auth request = Some user ->
     check_user_permission user = false ->
     auth_required h auth func a request = ([], Raise (HTTPException 403))) /\
  (forall user,
     get_logged_in_user auth request = Some user ->
     check_user_permission user = true ->
     auth_required h auth func a request = func a request).
Proof.
  unfold auth_required. repeat split.
  - by intros ->.
  - by intros user -> ->.
  - by intros user -> ->.
Qed.

Lemma auth_required_guards_witness :
  auth_required demo_helpers demo_auth demo_handler tt (mkRequest "GET" "/admin/" [] [])
  = ([], Ok (Redirect "accounts.login?next=/admin/")) /\
  auth_required demo_helpers demo_auth demo_handler tt
    (mkRequest "GET" "/admin/" [("user", "guest")] [])
  = ([], Raise (HTTPException 403)) /\
  auth_required demo_helpers demo_auth demo_handler tt
    (mkRequest "GET" "/admin/" [("user", "root")] [])
  = demo_handler tt (mkRequest "GET" "/admin/" [("user", "root")] []).
Proof.
  pose proof (auth_required_guards demo_helpers demo_auth demo_handler tt) as H.
  split; [|split].
  - apply (proj1 (H (mkRequest "GET" "/admin/" [] []))). reflexivity.
  - apply (proj1 (proj2 (H (mkRequest "GET" "/admin/" [("user", "guest")] [])))
             (mkUser "guest" false)); reflexivity.
  - apply (proj2 (proj2 (H (mkRequest "GET" "/admin/" [("user", "root")] [])))
             (mkUser "root" true)); reflexivity.
Defined.

(** ** [ModelAdmin.ajax_list] *)

(** C10. When resolving the requested field path raises [AttributeError],
    [ajax_list] raises nothing: it returns a JSON response whose body is the
    object with [prev_page] 0, [next_page] 0 and an empty [object_list], and
    no query is sent to the database. *)
Theorem ajax_list_unresolvable (h : Helpers) (self : ModelAdmin) (request : Request) :
  path_to_models h (ma_model self) (md_get (args request) "field") = Raise AttributeError ->
  ajax_list h self request =
  ([], Ok (JsonBody (JDict [("prev_page", JInt 0); ("next_page", JInt 0);
                            ("object_list", JList [])])
                    "application/json")).
Proof. unfold ajax_list. by intros ->. Qed.

Lemma ajax_list_unresolvable_witness :
  ajax_list demo_helpers (default_admin "admin" Post)
    (mkRequest "GET" "/admin/post/_ajax/" [("field", "nope")] [])
  = ([], Ok (JsonBody (JDict [("prev_page", JInt 0); ("next_page", JInt 0);
                              ("object_list", JList [])])
                      "application/json")).
Proof. apply ajax_list_unresolvable. reflexivity. Defined.
(** ** The reader reads what [json.dumps] writes *)

#[local] Arguments String.append !s1 s2 : simpl nomatch.

Lemma string_app_assoc (a b c : string) : (a +:+ b) +:+ c = a +:+ b +:+ c.
Proof. induction a as [|x a IH]; simpl; [done|by f_equal]. Qed.

Lemma string_app_nil_r (a : string) : a +:+ "" = a.
Proof. induction a as [|x a IH]; simpl; [done|by f_equal]. Qed.

Lemma skip_ws_app w s : ws_only w = true -> skip_ws (w +:+ s) = skip_ws s.
Proof.
  induction w as [|c w IH]; simpl; [done|].
  intros [Hc Hw]%andb_true_iff. rewrite Hc. by apply IH.
Qed.

Lemma skip_ws_head c s : is_ws c = false -> skip_ws (String c s) = String c s.
Proof. simpl. by intros ->. Qed.

(** *** Integers *)

Lemma parse_digits_dumps u rest :
  no_digit_head rest -> parse_digits (dumps_uint u +:+ rest) = (u, rest).
Proof.
  intros Hrest. induction u; simpl; rewrite ?IHu; try done.
  destruct rest as [|c rest]; simpl in *; [done|]. by rewrite Hrest.
Qed.

Lemma unorm_to_uint p : Decimal.unorm (Pos.to_uint p) = Pos.to_uint p.
Proof.
  rewrite <- (DecimalPos.Unsigned.to_of (Pos.to_uint p)).
  by rewrite DecimalPos.Unsigned.of_to.
Qed.

Lemma parse_uint_dumps p rest :
  no_digit_head rest ->
  parse_uint (dumps_uint (Pos.to_uint p) +:+ rest) = Some (Z.pos p, rest).
Proof.
  intros Hrest. unfold parse_uint. rewrite parse_digits_dumps by done.
  rewrite decide_True by apply unorm_to_uint.
  unfold Z.of_uint. by rewrite DecimalPos.Unsigned.of_to.
Qed.

(** The first character of a numeral is a digit. *)
Lemma dumps_uint_head p :
  exists c r, dumps_uint (Pos.to_uint p) = String c r /\ is_Some (digit_of c).
Proof.
  pose proof (DecimalPos.Unsigned.to_uint_nonnil p) as H.
  destruct (Pos.to_uint p); [done|..]; simpl; eexists _, _; split; try done; by eexists.
Qed.

Lemma digit_not_special c :
  is_Some (digit_of c) ->
  is_ws c = false /\ c <> "n"%char /\ c <> "t"%char /\ c <> "f"%char /\ c <> DQ /\
  c <> "["%char /\ c <> "{"%char /\ c <> "-"%char /\ c <> "]"%char /\ c <> "}"%char.
Proof.
  destruct c as [[] [] [] [] [] [] [] []]; intros [d Hd]; try discriminate Hd;
    repeat split; done.
Qed.

Lemma parse_int_dumps z rest :
  no_digit_head rest -> parse_int (dumps_int z +:+ rest) = Some (JInt z, rest).
Proof.
  intros Hrest. unfold dumps_int. destruct z as [|p|p]; simpl.
  - unfold parse_uint. simpl.
    destruct rest as [|c rest]; simpl in *; [done|]. by rewrite Hrest.
  - destruct (dumps_uint_head p) as (c & r & Hcr & Hc).
    pose proof (parse_uint_dumps p rest Hrest) as H. rewrite Hcr in *.
    simpl in *. destruct (digit_not_special c Hc) as (_ & _ & _ & _ & _ & _ & _ & Hm & _).
    rewrite decide_False by done. by rewrite H.
  - by rewrite parse_uint_dumps.
Qed.

Lemma dumps_int_head z :
  exists c r, dumps_int z = String c r /\ (c = "-"%char \/ is_Some (digit_of c)).
Proof.
  unfold dumps_int. destruct z as [|p|p]; simpl.
  - eexists _, _. split; [done|]. right. by eexists.
  - destruct (dumps_uint_head p) as (c & r & -> & Hc). eauto.
  - eexists _, _. split; [done|]. by left.
Qed.

(** *** Strings *)

Lemma parse_escape_char c t :
  parse_string_body (escape_char c +:+ t) =
  match parse_string_body t with
  | Some (u, r) => Some (String c u, r)
  | None => None
  end.
Proof. by destruct c as [[] [] [] [] [] [] [] []]. Qed.

Lemma parse_string_dumps s rest :
  parse_string_body (escape_string s +:+ String DQ rest) = Some (s, rest).
Proof.
  induction s as [|c s IH]; [done|].
  simpl. by rewrite string_app_assoc, parse_escape_char, IH.
Qed.

(** *** Values *)

Lemma json_nested_ind (P : json -> Prop) :
  P JNull -> (forall b, P (JBool b)) -> (forall z, P (JInt z)) -> (forall s, P (JStr s)) ->
  (forall l, Forall P l -> P (JList l)) ->
  (forall items, Forall (fun kv => P kv.2) items -> P (JDict items)) ->
  forall v, P v.
Proof.
  intros Hnull Hbool Hint Hstr Hlist Hdict.
  fix go 1. intros [| b | z | s | l | items].
  - exact Hnull.
  - apply Hbool.
  - apply Hint.
  - apply Hstr.
  - apply Hlist. induction l as [|x l IH]; constructor; [apply go|exact IH].
  - apply Hdict. induction items as [|[k x] items IH]; constructor; [apply go|exact IH].
Qed.

Lemma parse_value_S fuel s :
  parse_value (S fuel) s =
  match skip_ws s with
  | EmptyString => None
  | String c r =>
      if decide (c = "n"%char) then r' ← expect "ull" r; Some (JNull, r')
      else if decide (c = "t"%char) then r' ← expect "rue" r; Some (JBool true, r')
      else if decide (c = "f"%char) then r' ← expect "alse" r; Some (JBool false, r')
      else if decide (c = DQ) then
        match parse_string_body r with
        | Some (t, r') => Some (JStr t, r')
        | None => None
        end
      else if decide (c = "["%char) then
        match skip_ws r with
        | String c' r' =>
            if decide (c' = "]"%char) then Some (JList [], r')
            else
              match parse_elements fuel r with
              | Some (l, r') => Some (JList l, r')
              | None => None
              end
        | EmptyString => None
        end
      else if decide (c = "{"%char) then
        match skip_ws r with
        | String c' r' =>
            if decide (c' = "}"%char) then Some (JDict [], r')
            else
              match parse_members fuel r with
              | Some (l, r') => Some (JDict l, r')
              | None => None
              end
        | EmptyString => None
        end
      else parse_int (String c r)
  end.
Proof. reflexivity. Qed.

Lemma parse_elements_S fuel s :
  parse_elements (S fuel) s =
  match parse_value fuel s with
  | Some (v, r) =>
      match skip_ws r with
      | String c r' =>
          if decide (c = ","%char) then
            match parse_elements fuel r' with
            | Some (l, r'') => Some (v :: l, r'')
            | None => None
            end
          else if decide (c = "]"%char) then Some ([v], r')
          else None
      | EmptyString => None
      end
  | None => None
  end.
Proof. reflexivity. Qed.

Lemma parse_members_S fuel s :
  parse_members (S fuel) s =
  match skip_ws s with
  | String c r =>
      if decide (c = DQ) then
        match parse_string_body r with
        | Some (k, r1) =>
            match skip_ws r1 with
            | String c1 r2 =>
                if decide (c1 = ":"%char) then
                  match parse_value fuel r2 with
                  | Some (v, r3) =>
                      match skip_ws r3 with
                      | String c3 r4 =>
                          if decide (c3 = ","%char) then
                            match parse_members fuel r4 with
                            | Some (l, r5) => Some ((k, v) :: l, r5)
                            | None => None
                            end
                          else if decide (c3 = "}"%char) then Some ([(k, v)], r4)
                          else None
                      | EmptyString => None
                      end
                  | None => None
                  end
                else None
            | EmptyString => None
            end
        | None => None
        end
      else None
  | EmptyString => None
  end.
Proof. reflexivity. Qed.

Lemma json_dumps_head v rest : value_head (json_dumps v +:+ rest).
Proof.
  destruct v as [| [] | z | s | l | items]; simpl;
    try (eexists _, _; split; [reflexivity|done]).
  destruct (dumps_int_head z) as (c & r & -> & [->|Hc]).
  - eexists _, _; split; [reflexivity|done].
  - destruct (digit_not_special c Hc) as (? & _ & _ & _ & _ & _ & _ & _ & ? & ?).
    eexists _, _; split; [reflexivity|done].
Qed.

Lemma no_digit_head_ws w c rest :
  ws_only w = true -> digit_of c = None -> no_digit_head (w +:+ String c rest).
Proof.
  destruct w as [|a w]; simpl; [done|]. intros [Ha _]%andb_true_iff _.
  by destruct a as [[] [] [] [] [] [] [] []].
Qed.

#[local] Arguments String.concat : simpl never.

Lemma string_concat_cons2 sep x y (l : list string) :
  String.concat sep (x :: y :: l) = x +:+ sep +:+ String.concat sep (y :: l).
Proof. reflexivity. Qed.

Lemma string_concat_cons2' sep x (l : list string) :
  l <> [] -> String.concat sep (x :: l) = x +:+ sep +:+ String.concat sep l.
Proof. by destruct l. Qed.

Lemma string_concat_one sep (x : string) : String.concat sep [x] = x.
Proof. reflexivity. Qed.

Lemma skip_ws_value_head w s :
  ws_only w = true -> value_head s -> skip_ws (w +:+ s) = s.
Proof.
  intros Hw (c & r & -> & Hc & _). rewrite skip_ws_app by done. by apply skip_ws_head.
Qed.

Lemma parse_elements_more fuel s v r' l r'' :
  parse_value fuel s = Some (v, String "," r') ->
  parse_elements fuel r' = Some (l, r'') ->
  parse_elements (S fuel) s = Some (v :: l, r'').
Proof. intros Hv Hl. rewrite parse_elements_S, Hv. simpl. by rewrite Hl. Qed.

Lemma parse_elements_last fuel s v endw rest :
  ws_only endw = true ->
  parse_value fuel s = Some (v, endw +:+ String "]" rest) ->
  parse_elements (S fuel) s = Some ([v], rest).
Proof.
  intros Hw Hv. rewrite parse_elements_S, Hv. rewrite skip_ws_app by done. done.
Qed.

Lemma parse_members_more fuel w k s v r' l r'' :
  ws_only w = true ->
  parse_value fuel (String " " s) = Some (v, String "," r') ->
  parse_members fuel r' = Some (l, r'') ->
  parse_members (S fuel) (w +:+ dumps_string k +:+ ": " +:+ s) = Some ((k, v) :: l, r'').
Proof.
  intros Hw Hv Hl. rewrite parse_members_S, skip_ws_app by done.
  unfold dumps_string. simpl. rewrite string_app_assoc. simpl.
  rewrite parse_string_dumps. simpl. rewrite Hv. simpl. by rewrite Hl.
Qed.

Lemma parse_members_last fuel w k s v rest :
  ws_only w = true ->
  parse_value fuel (String " " s) = Some (v, String "}" rest) ->
  parse_members (S fuel) (w +:+ dumps_string k +:+ ": " +:+ s) = Some ([(k, v)], rest).
Proof.
  intros Hw Hv. rewrite parse_members_S, skip_ws_app by done.
  unfold dumps_string. simpl. rewrite string_app_assoc. simpl.
  rewrite parse_string_dumps. simpl. by rewrite Hv.
Qed.

Lemma parse_value_list fuel w w2 s l rest :
  ws_only w = true -> ws_only w2 = true -> value_head s ->
  parse_elements fuel (w2 +:+ s) = Some (l, rest) ->
  parse_value (S fuel) (w +:+ String "[" (w2 +:+ s)) = Some (JList l, rest).
Proof.
  intros Hw Hw2 (c & r & -> & Hc & Hb & _) Hl. rewrite parse_value_S, skip_ws_app by done.
  simpl. rewrite skip_ws_app by done. simpl.
  rewrite Hc, decide_False by done. by rewrite Hl.
Qed.

Lemma parse_value_dict fuel w s l rest :
  ws_only w = true -> value_head s ->
  parse_members fuel s = Some (l, rest) ->
  parse_value (S fuel) (w +:+ String "{" s) = Some (JDict l, rest).
Proof.
  intros Hw (c & r & -> & Hc & _ & Hb) Hl. rewrite parse_value_S, skip_ws_app by done.
  simpl. rewrite Hc, decide_False by done. by rewrite Hl.
Qed.

(** The elements of an array, separated by a comma and [sepw], closed after
    [endw]. *)
Lemma parse_elements_dumps l :
  Forall reads_back l -> l <> [] ->
  forall fuel sepw endw w rest,
    ws_only sepw = true -> ws_only endw = true -> ws_only w = true ->
    (list_sum (map (fun x => S (jsize x)) l) <= fuel)%nat ->
    parse_elements fuel
      (w +:+ String.concat ("," +:+ sepw) (map json_dumps l) +:+ endw +:+ String "]" rest)
    = Some (l, rest).
Proof.
  induction 1 as [|x l Hx Hl IH]; [done|]. intros _ fuel sepw endw w rest Hsep Hend Hw Hfuel.
  simpl in Hfuel. destruct fuel as [|fuel]; [lia|].
  destruct l as [|y l].
  - simpl map. rewrite string_concat_one.
    apply (parse_elements_last _ _ _ endw); [done|].
    apply Hx; [done|by apply no_digit_head_ws|simpl in *; lia].
  - simpl map. rewrite string_concat_cons2, !string_app_assoc.
    eapply parse_elements_more.
    + apply Hx; [done|done|lia].
    + apply IH; try done. simpl in *. lia.
Qed.

Lemma dumps_string_head k s : value_head (dumps_string k +:+ s).
Proof. eexists _, _. split; [reflexivity|done]. Qed.

Lemma parse_members_dumps (items : list (string * json)) :
  Forall (fun kv => reads_back kv.2) items -> items <> [] ->
  forall fuel w rest,
    ws_only w = true ->
    (list_sum (map (fun kv => S (jsize kv.2)) items) <= fuel)%nat ->
    parse_members fuel
      (w +:+ String.concat ", "
               (map (fun kv => dumps_string kv.1 +:+ ": " +:+ json_dumps kv.2) items)
         +:+ String "}" rest)
    = Some (items, rest).
Proof.
  induction 1 as [|[k x] items Hx Hl IH]; [done|]. intros _ fuel w rest Hw Hfuel.
  simpl in Hfuel, Hx. destruct fuel as [|fuel]; [lia|].
  destruct items as [|kv items].
  - cbn [map fst snd]. rewrite string_concat_one, !string_app_assoc.
    apply parse_members_last; [done|].
    apply (Hx fuel " "); [done|done|simpl in *; lia].
  - rewrite map_cons. cbn [fst snd]. rewrite string_concat_cons2' by done. rewrite !string_app_assoc.
    eapply parse_members_more; [done| |].
    + apply (Hx fuel " "); [done|done|lia].
    + apply (IH ltac:(done) fuel " "); [done|]. simpl in *. lia.
Qed.

(** Every value [json.dumps] writes is read back as it was. *)
Lemma json_dumps_reads_back v : reads_back v.
Proof.
  induction v as [| b | z | s | l Hl | items Hitems] using json_nested_ind;
    intros fuel w rest Hw Hrest Hfuel; (destruct fuel as [|fuel]; [simpl in Hfuel; lia|]).
  - rewrite parse_value_S, skip_ws_app by done. done.
  - rewrite parse_value_S, skip_ws_app by done. by destruct b.
  - rewrite parse_value_S, skip_ws_app by done.
    destruct (dumps_int_head z) as (c & r & Hcr & Hc).
    pose proof (parse_int_dumps z rest Hrest) as Hp. simpl json_dumps. rewrite Hcr in *.
    simpl. destruct Hc as [->|Hc]; [done|].
    destruct (digit_not_special c Hc) as (-> & ? & ? & ? & ? & ? & ? & _).
    by rewrite !decide_False by done.
  - rewrite parse_value_S, skip_ws_app by done.
    simpl. rewrite string_app_assoc. simpl. by rewrite parse_string_dumps.
  - simpl json_dumps.
    replace (String "[" (String.concat ", " (map json_dumps l) +:+ "]") +:+ rest)
      with (String "[" (String.concat ", " (map json_dumps l) +:+ String "]" rest))
      by (simpl; by rewrite string_app_assoc).
    destruct l as [|x l].
    + rewrite parse_value_S, skip_ws_app by done. done.
    + apply (parse_value_list fuel w ""); [done|done| |].
      * destruct l; cbn [map]; [rewrite string_concat_one|rewrite string_concat_cons2];
          rewrite ?string_app_assoc; apply json_dumps_head.
      * apply (parse_elements_dumps (x :: l) Hl ltac:(done) fuel " " "" ""); try done.
        simpl in *. lia.
  - simpl json_dumps.
    match goal with
    | |- context [String "{" (?C +:+ "}") +:+ rest] =>
        replace (String "{" (C +:+ "}") +:+ rest) with (String "{" (C +:+ String "}" rest))
          by (simpl; by rewrite string_app_assoc)
    end.
    destruct items as [|[k x] items].
    + rewrite parse_value_S, skip_ws_app by done. done.
    + apply parse_value_dict; [done| |].
      * destruct items; cbn [map fst snd];
          [rewrite string_concat_one|rewrite string_concat_cons2];
          rewrite ?string_app_assoc; (eexists _, _; split; [reflexivity|done]).
      * apply (parse_members_dumps ((k, x) :: items) Hitems ltac:(done) fuel ""); try done.
        simpl in *. lia.
Qed.

(** *** Fuel *)

Lemma string_concat_length_bound {A} (f : A -> string) (g : A -> nat) sep (l : list A) :
  (1 <= String.length sep)%nat ->
  Forall (fun x => (g x <= String.length (f x))%nat) l ->
  (list_sum (map (fun x => S (g x)) l) <= String.length (String.concat sep (map f l)) + 1)%nat.
Proof.
  intros Hsep. induction 1 as [|x l Hx Hl IH]; [simpl; lia|].
  destruct l as [|y l].
  - cbn [map]. rewrite string_concat_one. simpl. lia.
  - rewrite !map_cons in *. rewrite string_concat_cons2, !string_length_app.
    simpl list_sum in *. lia.
Qed.

Lemma jsize_le_length v : (jsize v <= String.length (json_dumps v))%nat.
Proof.
  induction v as [| b | z | s | l Hl | items Hitems] using json_nested_ind.
  - simpl. lia.
  - destruct b; simpl; lia.
  - destruct (dumps_int_head z) as (c & r & Hcr & _). simpl. rewrite Hcr. simpl. lia.
  - simpl. lia.
  - cbn [jsize json_dumps]. rewrite !string_length_app.
    pose proof (string_concat_length_bound json_dumps jsize ", " l ltac:(simpl; lia) Hl).
    change (String.length "[") with 1%nat. change (String.length "]") with 1%nat. lia.
  - cbn [jsize json_dumps]. rewrite !string_length_app.
    pose proof (string_concat_length_bound
                  (fun kv : string * json => dumps_string kv.1 +:+ ": " +:+ json_dumps kv.2)
                  (fun kv => jsize kv.2) ", " items ltac:(simpl; lia)) as H.
    cbv beta in H.
    change (String.length "{") with 1%nat. change (String.length "}") with 1%nat.
    assert (Forall (fun kv : string * json =>
                      (jsize kv.2 <=
                       String.length (dumps_string kv.1 +:+ ": " +:+ json_dumps kv.2))%nat)
                   items) as Hall.
    { eapply Forall_impl; [exact Hitems|]. intros [k x] Hx. cbn [fst snd] in *.
      rewrite !string_length_app. lia. }
    specialize (H Hall). lia.
Qed.

(** [json.loads] undoes [json.dumps]. *)
Lemma json_loads_dumps v : json_loads (json_dumps v) = Some v.
Proof.
  unfold json_loads.
  pose proof (json_dumps_reads_back v (S (String.length (json_dumps v))) "" "") as H.
  simpl String.append in H. rewrite string_app_nil_r in H.
  rewrite H; [done|done|done|]. pose proof (jsize_le_length v). lia.
Qed.

(** An array written with a line feed after the opening bracket, after
    every comma and before the closing bracket reads back as well. *)
Lemma json_loads_lines (l : list json) :
  json_loads ("[" +:+ LF +:+ String.concat ("," +:+ LF) (map json_dumps l) +:+ LF +:+ "]")
  = Some (JList l).
Proof.
  unfold json_loads.
  set (body := String.concat ("," +:+ LF) (map json_dumps l)).
  destruct l as [|x l]; [done|].
  assert (parse_value (S (String.length ("[" +:+ LF +:+ body +:+ LF +:+ "]")))
                      ("" +:+ String "[" (LF +:+ body +:+ LF +:+ "]"))
          = Some (JList (x :: l), "")) as H.
  { apply parse_value_list; [done|done| |].
    - unfold body. destruct l; cbn [map];
        [rewrite string_concat_one|rewrite string_concat_cons2];
        rewrite ?string_app_assoc; apply json_dumps_head.
    - apply (parse_elements_dumps (x :: l)); try done.
      + apply Forall_forall. intros v _. apply json_dumps_reads_back.
      + pose proof (string_concat_length_bound json_dumps jsize ("," +:+ LF) (x :: l)
                      ltac:(simpl; lia)) as Hb.
        rewrite !string_length_app. fold body in Hb.
        assert (Forall (fun v => (jsize v <= String.length (json_dumps v))%nat) (x :: l))
          as Hall by (apply Forall_forall; intros v _; apply jsize_le_length).
        specialize (Hb Hall).
        change (String.length "[") with 1%nat. change (String.length "]") with 1%nat.
        change (String.length LF) with 1%nat. lia. }
  change ("" +:+ String "[" (LF +:+ body +:+ LF +:+ "]"))
    with ("[" +:+ LF +:+ body +:+ LF +:+ "]") in H.
  by rewrite H.
Qed.
(** ** [Export.json_response] *)

Lemma body_text_cons x l : body_text (x :: l) = x +:+ body_text l.
Proof.
  unfold body_text. destruct l as [|y l]; [by rewrite string_concat_one, string_app_nil_r|].
  by rewrite string_concat_cons2.
Qed.

Lemma body_text_app a b : body_text (a ++ b) = body_text a +:+ body_text b.
Proof.
  induction a as [|x a IH]; [done|].
  rewrite <- app_comm_cons, !body_text_cons, IH. by rewrite string_app_assoc.
Qed.

Section Generate.
Context (h : Helpers) (prepared_query : SelectQuery).

Lemma generate_rows_text rows i :
  i = Z.of_nat (length rows) ->
  body_text (generate_rows h prepared_query i rows) =
  String.concat row_separator (map (row_text h prepared_query) rows).
Proof.
  revert i. induction rows as [|obj rows IH]; intros i Hi; [done|].
  cbn [generate_rows]. rewrite map_cons, !body_text_app.
  rewrite (IH (i - 1)) by (simpl in Hi; lia).
  destruct rows as [|obj' rows].
  - simpl in Hi. subst i. simpl. by rewrite string_app_nil_r.
  - rewrite string_concat_cons2' by done.
    replace (0 <? i - 1) with true by (symmetry; apply Z.ltb_lt; simpl length in Hi; lia).
    done.
Qed.

Lemma row_text_not_separator obj : row_text h prepared_query obj <> row_separator.
Proof. unfold row_text. simpl. discriminate. Qed.

Lemma generate_rows_separators rows i :
  i = Z.of_nat (length rows) ->
  separators (generate_rows h prepared_query i rows) = (length rows - 1)%nat.
Proof.
  unfold separators. revert i. induction rows as [|obj rows IH]; intros i Hi; [done|].
  cbn [generate_rows]. rewrite !filter_app, !length_app.
  rewrite (IH (i - 1)) by (simpl in Hi; lia).
  rewrite filter_cons_False by apply row_text_not_separator.
  destruct rows as [|obj' rows].
  - simpl in Hi. subst i. done.
  - replace (0 <? i - 1) with true by (symmetry; apply Z.ltb_lt; simpl length in Hi; lia).
    simpl. lia.
Qed.

End Generate.

(** C1. When the prepared query has rows, N of them, and [count()] says so,
    the generator of [json_response] yields chunks that concatenate to the
    opening bracket and a line feed, the N serialized rows with a comma and
    a line feed between each two (N-1 separators, none after the last row),
    and a line feed and the closing bracket; the text is a JSON array of the
    N row objects. *)
Theorem json_response_frames_rows (G : Schema) (h : Helpers) (db : Database)
    (self : Export) (filename : string) (prepared_query : SelectQuery) :
  prepare_query G self = Ok prepared_query ->
  db_rows db prepared_query <> [] ->
  db_count db prepared_query = Z.of_nat (length (db_rows db prepared_query)) ->
  exists chunks,
    json_response G h db self filename =
    Ok (Body chunks "text/javascript"
          [("Content-Type", "application/javascript");
           ("Content-Disposition", "attachment; filename=" +:+ filename)] true) /\
    body_text chunks =
      "[" +:+ LF +:+
      String.concat row_separator (map (row_text h prepared_query) (db_rows db prepared_query))
      +:+ LF +:+ "]" /\
    separators chunks = (length (db_rows db prepared_query) - 1)%nat /\
    json_loads (body_text chunks) =
      Some (JList (map (fun obj => JDict (serialize_object h obj (q_query prepared_query)))
                       (db_rows db prepared_query))).
Proof.
  intros Hq Hrows Hcount. unfold json_response. rewrite Hq. simpl.
  eexists. split; [reflexivity|].
  assert (body_text (generate h db prepared_query) =
          "[" +:+ LF +:+
          String.concat row_separator
            (map (row_text h prepared_query) (db_rows db prepared_query)) +:+ LF +:+ "]") as Htext.
  { unfold generate. rewrite !body_text_app, generate_rows_text by done.
    unfold body_text. rewrite !string_concat_one. by rewrite !string_app_assoc. }
  split; [done|]. split.
  - unfold generate, separators. rewrite !filter_app, !length_app.
    fold (separators (generate_rows h prepared_query (db_count db prepared_query)
                        (db_rows db prepared_query))).
    rewrite generate_rows_separators by done. simpl. lia.
  - rewrite Htext. unfold row_text.
    rewrite <- (json_loads_lines
                  (map (fun obj => JDict (serialize_object h obj (q_query prepared_query)))
                       (db_rows db prepared_query))).
    by rewrite map_map.
Qed.

Lemma json_response_frames_rows_witness :
  exists chunks,
    json_response blog_schema demo_helpers three_posts (blog_export ["name"]) "export-post.json" =
    Ok (Body chunks "text/javascript"
          [("Content-Type", "application/javascript");
           ("Content-Disposition", "attachment; filename=" +:+ "export-post.json")] true) /\
    body_text chunks =
      "[" +:+ LF +:+
      String.concat row_separator
        (map (row_text demo_helpers (set_query (select Post) (SelDict {[Post := ["name"]]})))
             (db_rows three_posts (set_query (select Post) (SelDict {[Post := ["name"]]}))))
      +:+ LF +:+ "]" /\
    separators chunks = 2%nat /\
    json_loads (body_text chunks) =
      Some (JList [JDict [("id", JInt 1)]; JDict [("id", JInt 2)]; JDict [("id", JInt 3)]]).
Proof.
  apply (json_response_frames_rows blog_schema demo_helpers three_posts (blog_export ["name"])
           "export-post.json" (set_query (select Post) (SelDict {[Post := ["name"]]}))).
  - vm_compute. reflexivity.
  - discriminate.
  - reflexivity.
Defined.

(** C2, as the code has it. For a query with no rows the generator yields
    the opening bracket with a line feed and a line feed with the closing
    bracket, and nothing between them: the output is the four characters of
    an empty array on two lines, with no row and no comma. *)
Theorem json_response_empty (G : Schema) (h : Helpers) (db : Database)
    (self : Export) (filename : string) (prepared_query : SelectQuery) :
  prepare_query G self = Ok prepared_query ->
  db_rows db prepared_query = [] ->
  exists chunks,
    json_response G h db self filename =
    Ok (Body chunks "text/javascript"
          [("Content-Type", "application/javascript");
           ("Content-Disposition", "attachment; filename=" +:+ filename)] true) /\
    chunks = ["[" +:+ LF; LF +:+ "]"] /\
    body_text chunks = "[" +:+ LF +:+ LF +:+ "]" /\
    String.length (body_text chunks) = 4%nat /\
    separators chunks = 0%nat /\
    json_loads (body_text chunks) = Some (JList []).
Proof.
  intros Hq Hrows. unfold json_response. rewrite Hq. simpl.
  eexists. split; [reflexivity|]. unfold generate. rewrite Hrows. simpl. done.
Qed.

Lemma json_response_empty_witness :
  exists chunks,
    json_response blog_schema demo_helpers no_posts (blog_export ["name"]) "export-post.json" =
    Ok (Body chunks "text/javascript"
          [("Content-Type", "application/javascript");
           ("Content-Disposition", "attachment; filename=" +:+ "export-post.json")] true) /\
    chunks = ["[" +:+ LF; LF +:+ "]"] /\
    body_text chunks = "[" +:+ LF +:+ LF +:+ "]" /\
    String.length (body_text chunks) = 4%nat /\
    separators chunks = 0%nat /\
    json_loads (body_text chunks) = Some (JList []).
Proof.
  apply (json_response_empty blog_schema demo_helpers no_posts (blog_export ["name"])
           "export-post.json" (set_query (select Post) (SelDict {[Post := ["name"]]}))).
  - vm_compute. reflexivity.
  - reflexivity.
Defined.

(** C2 as stated fails on the count: the output for an empty result set has
    four characters, not five. *)
Lemma json_response_empty_not_five :
  ~ (forall G h db self filename prepared_query chunks mimetype headers passthrough,
       prepare_query G self = Ok prepared_query ->
       db_rows db prepared_query = [] ->
       json_response G h db self filename = Ok (Body chunks mimetype headers passthrough) ->
       String.length (body_text chunks) = 5%nat).
Proof.
  intros H.
  specialize (H blog_schema demo_helpers no_posts (blog_export ["name"]) "export-post.json"
                (set_query (select Post) (SelDict {[Post := ["name"]]}))
                ["[" +:+ LF; LF +:+ "]"] "text/javascript"
                [("Content-Type", "application/javascript");
                 ("Content-Disposition", "attachment; filename=export-post.json")] true).
  assert (String.length (body_text ["[" +:+ LF; LF +:+ "]"]) = 5%nat) as Hfive.
  { apply H; [vm_compute; reflexivity|reflexivity|vm_compute; reflexivity]. }
  vm_compute in Hfive. discriminate.
Qed.
(** ** [ModelAdmin.apply_ordering] *)

Lemma lstrip_dash_head s : startswith_dash (lstrip_dash s) = false.
Proof.
  induction s as [|c s IH]; [done|]. simpl.
  destruct c as [[] [] [] [] [] [] [] []]; try done.
Qed.

(** X1. [apply_ordering] touches nothing but the ordering of the query. It
    either leaves the query as it is or orders it by exactly one column: the
    requested ordering without its leading dashes, which is then a field of
    the model and starts with no dash, descending exactly when the request
    started with a dash. A request for anything that is not a field leaves
    the query as it is. *)
Theorem apply_ordering_sortable (G : Schema) (self : ModelAdmin) (query : SelectQuery)
    (ordering : string) :
  let q' := apply_ordering G self query ordering in
  q_model q' = q_model query /\ query_context q' = query_context query /\
  _joins q' = _joins query /\ _joined_models q' = _joined_models query /\
  _where q' = _where query /\ q_query q' = q_query query /\
  (lstrip_dash ordering ∉ map field_name (get_fields G (ma_model self)) -> q' = query) /\
  (q' = query \/
   _order_by q' = [OrderDir (lstrip_dash ordering)
                     (if startswith_dash ordering then "desc" else "asc")] /\
   lstrip_dash ordering ∈ map field_name (get_fields G (ma_model self)) /\
   startswith_dash (lstrip_dash ordering) = false).
Proof.
  unfold apply_ordering, column_is_sortable. simpl.
  case_bool_decide as Ho; [|by repeat split; auto].
  case_bool_decide as Hc; [|by repeat split; auto].
  repeat split; try done. right. split; [done|]. split; [done|]. apply lstrip_dash_head.
Qed.

(** ** [ModelAdmin.collect_objects] *)

(** X2. [collect_objects] returns exactly one entry for every select query
    of [collect_queries] that yields rows, with the depth, the model and the
    foreign key of the query and its rows: queries with no rows are left
    out, nothing else is, and nothing is added. *)
Theorem collect_objects_entries (G : Schema) (db : Database)
    (select_queries : list (SelectQuery * Field * Z)) :
  collect_objects G db select_queries ≡ₚ collected_entries db select_queries /\
  (forall e, e ∈ collect_objects G db select_queries <->
     exists query fk_field depth,
       (query, fk_field, depth) ∈ select_queries /\
       db_rows db (set_query query (SelList ["*"])) <> [] /\
       e = (depth, q_model query, fk_field, db_rows db (set_query query (SelList ["*"])))).
Proof.
  rewrite collect_objects_eq.
  assert (sorted (fun a b => key_leb (collected_key G a) (collected_key G b))
            (collected_entries db select_queries) ≡ₚ collected_entries db select_queries)
    as Hperm by apply sorted_perm.
  split; [done|]. intros e. rewrite Hperm. unfold collected_entries.
  rewrite list_elem_of_omap. split.
  - intros ([[q f] d] & Hin & He). case_bool_decide; [|done]. injection He as <-.
    by exists q, f, d.
  - intros (q & f & d & Hin & Hrows & ->). exists (q, f, d). split; [done|].
    by rewrite bool_decide_true.
Qed.

Section Stable.
Context {A : Type} (le : A -> A -> bool) (P : A -> Prop) `{!forall x, Decision (P x)}.
Hypothesis le_class : forall x y, P x -> P y -> le x y = true.

Lemma insert_by_filter x l :
  filter P (insert_by le x l) = if decide (P x) then x :: filter P l else filter P l.
Proof.
  induction l as [|y l IH]; simpl.
  - rewrite filter_cons, filter_nil. done.
  - destruct (le x y) eqn:E.
    + by rewrite filter_cons.
    + rewrite !filter_cons, IH.
      destruct (decide (P x)) as [Hx|Hx]; [|done].
      destruct (decide (P y)) as [Hy|Hy]; [|done].
      by rewrite le_class in E.
Qed.

Lemma sorted_filter l : filter P (sorted le l) = filter P l.
Proof.
  induction l as [|x l IH]; [done|].
  unfold sorted in *. simpl. rewrite insert_by_filter, filter_cons, IH. done.
Qed.

End Stable.

Lemma string_leb_refl s : String.leb s s = true.
Proof. by destruct (String.leb_total s s). Qed.

(** X3. The sort of [collect_objects] is stable: the entries of one depth
    and one type name come out in the order [collect_queries] gave them. *)
Theorem collect_objects_stable (G : Schema) (db : Database)
    (select_queries : list (SelectQuery * Field * Z)) (depth : Z) (name : string) :
  filter (fun e => collected_key G e = (depth, name)) (collect_objects G db select_queries)
  = filter (fun e => collected_key G e = (depth, name)) (collected_entries db select_queries).
Proof.
  rewrite collect_objects_eq. apply sorted_filter.
  intros x y -> ->. unfold key_leb. simpl.
  rewrite Z.eqb_refl, string_leb_refl. apply orb_true_r.
Qed.
(** ** [ModelAdmin.ajax_list]: what it lets through *)

(** X4. [ajax_list] catches [AttributeError] and nothing else: any other
    exception of the path resolution leaves the handler as it came, a path
    that resolves to no model raises [IndexError], a handler with no
    [foreign_key_lookups] raises [TypeError] and a field with no entry in
    them raises [KeyError]; in each case before any query is sent. *)
Theorem ajax_list_raises (h : Helpers) (self : ModelAdmin) (request : Request) :
  let field := md_get (args request) "field" in
  (forall e, e <> AttributeError ->
     path_to_models h (ma_model self) field = Raise e ->
     ajax_list h self request = ([], Raise e)) /\
  (path_to_models h (ma_model self) field = Ok [] ->
   ajax_list h self request = ([], Raise IndexError)) /\
  (forall models rel_model,
     path_to_models h (ma_model self) field = Ok models ->
     last models = Some rel_model ->
     (foreign_key_lookups self = None ->
      ajax_list h self request = ([], Raise TypeError)) /\
     (forall lookups,
        foreign_key_lookups self = Some lookups ->
        (field ≫= fun f => lookups !! f) = None ->
        ajax_list h self request = ([], Raise KeyError))).
Proof.
  simpl. unfold ajax_list. split; [|split].
  - intros e He ->. by destruct e.
  - by intros ->.
  - intros models rel_model -> ->. split.
    + by intros ->.
    + intros lookups -> Hl. simpl.
      destruct (md_get (args request) "field") as [f|]; simpl in *; [|done].
      unfold dict_get. by rewrite Hl.
Qed.

(** X5. When the path resolves and the field has a lookup, [ajax_list]
    sends the count and the page query, both for the related model filtered
    by [icontains] on the lookup field and ordered by it, and answers with
    one [id]/[repr] entry per row of the page; [prev_page] is the page
    before the current one, or 0 on the first page, and [next_page] the page
    after it, or 0 on the last. *)
Theorem ajax_list_page (h : Helpers) (self : ModelAdmin) (request : Request)
    (f rel_field : string) (models : list Model) (rel_model : Model)
    (lookups : gmap string string) :
  md_get (args request) "field" = Some f ->
  path_to_models h (ma_model self) (Some f) = Ok models ->
  last models = Some rel_model ->
  foreign_key_lookups self = Some lookups ->
  lookups !! f = Some rel_field ->
  let query :=
    order_by (where_ (select rel_model) (rel_field +:+ "__icontains")
                (WStr (default "" (md_get (args request) "query"))))
             [OrderCol rel_field] in
  let current_page := pq_get_page h request in
  let pages := pq_get_pages h query (filter_paginate_by self) in
  exists prev_page next_page,
    ajax_list h self request =
    ([Counted query; Executed query],
     Ok (JsonBody
           (JDict [("prev_page", JInt prev_page); ("next_page", JInt next_page);
                   ("object_list",
                    JList (map (fun obj => JDict [("id", get_pk obj);
                                                  ("repr", JStr (inst_unicode obj))])
                               (pq_get_list h query (filter_paginate_by self) request)))])
           "application/json")) /\
    (current_page <= 1 -> prev_page = 0) /\
    (1 < current_page -> prev_page = current_page - 1) /\
    (pages <= current_page -> next_page = 0) /\
    (current_page < pages -> next_page = current_page + 1).
Proof.
  intros Hf Hp Hl Hk Hr. simpl. unfold ajax_list. rewrite Hf, Hp, Hl, Hk. simpl.
  unfold dict_get. rewrite Hr. simpl.
  eexists _, _. split; [reflexivity|].
  repeat split; intros Hc.
  - by rewrite (proj2 (Z.ltb_ge _ _)).
  - by rewrite (proj2 (Z.ltb_lt _ _)).
  - by rewrite (proj2 (Z.ltb_ge _ _)).
  - by rewrite (proj2 (Z.ltb_lt _ _)).
Qed.
(** ** [Admin]: the registry *)

(** X6. After [register] the registry answers with the admin built for the
    model, by [get_admin_for], [__getitem__] and [__contains__] alike, a
    second registration of the model replaces the first, and every other
    model is answered as before. *)
Theorem register_lookup (self : Admin) (model : Model)
    (admin_class : string -> Model -> ModelAdmin) :
  let self' := register self model admin_class in
  get_admin_for self' model = Some (admin_class (admin_blueprint self) model) /\
  admin_getitem self' model = Ok (admin_class (admin_blueprint self) model) /\
  admin_contains self' model = true /\
  (forall other_class, register self' model other_class = register self model other_class) /\
  (forall other, other <> model ->
     get_admin_for self' other = get_admin_for self other /\
     admin_getitem self' other = admin_getitem self other /\
     admin_contains self' other = admin_contains self other) /\
  _panels self' = _panels self.
Proof.
  simpl. unfold get_admin_for, admin_getitem, admin_contains, dict_get, register. simpl.
  rewrite lookup_insert_eq. split; [done|]. split; [done|]. split; [done|].
  split; [|split; [|done]].
  - intros other_class. by rewrite insert_insert_eq.
  - intros other Hne. by rewrite lookup_insert_ne.
Qed.

(** X7. [unregister] of a model that is not registered raises [KeyError];
    of a registered one it removes that model and no other, and undoes a
    [register] of a model that was not there before. *)
Theorem unregister_lookup (self : Admin) (model : Model) :
  (get_admin_for self model = None -> unregister self model = Raise KeyError) /\
  (forall ma, get_admin_for self model = Some ma ->
     exists self',
       unregister self model = Ok self' /\
       get_admin_for self' model = None /\
       admin_contains self' model = false /\
       forall other, other <> model -> get_admin_for self' other = get_admin_for self other) /\
  (forall admin_class,
     get_admin_for self model = None ->
     exists self',
       unregister (register self model admin_class) model = Ok self' /\
       _registry self' = _registry self).
Proof.
  unfold get_admin_for, unregister, admin_contains. split; [|split].
  - by intros ->.
  - intros ma ->. eexists. split; [done|]. simpl. rewrite lookup_delete_eq.
    split; [done|]. split.
    + apply bool_decide_false. by intros [? ?].
    + intros other Hne. by rewrite lookup_delete_ne.
  - intros admin_class Hnone. simpl. rewrite lookup_insert_eq. eexists. split; [done|].
    simpl. rewrite delete_insert_eq. by apply delete_id.
Qed.

(** X8. [get_model_admins] lists every registered admin once, sorted by
    admin name. *)
Theorem get_model_admins_sorted (G : Schema) (h : Helpers) (self : Admin) :
  StronglySorted
    (fun a b => String.leb (get_admin_name G h a) (get_admin_name G h b) = true)
    (get_model_admins G h self) /\
  get_model_admins G h self ≡ₚ map snd (map_to_list (_registry self)) /\
  (forall ma, ma ∈ get_model_admins G h self <->
     exists model, get_admin_for self model = Some ma).
Proof.
  unfold get_model_admins. split; [|split].
  - apply sorted_sorted.
    + intros a b. apply String.leb_total.
    + intros a b c. apply string_leb_trans.
  - apply sorted_perm.
  - intros ma. rewrite sorted_perm. unfold get_admin_for.
    rewrite list_elem_of_fmap. split.
    + intros ([m x] & -> & Hin%elem_of_map_to_list). by exists m.
    + intros (m & Hm). exists (m, ma). split; [done|]. by apply elem_of_map_to_list.
Qed.

(** ** [Admin.configure_routes] *)

Lemma auth_required_no_user {A} (h : Helpers) (auth : Auth)
    (func : A -> Request -> M Response) (a : A) (request : Request) :
  get_logged_in_user auth request = None ->
  auth_required h auth func a request =
  ([], Ok (Redirect (url_for h (auth_blueprint_name auth +:+ ".login")
                       [("next", get_next h request)]))).
Proof. unfold auth_required. by intros ->. Qed.

Lemma auth_required_no_permission {A} (h : Helpers) (auth : Auth)
    (func : A -> Request -> M Response) (a : A) (request : Request) user :
  get_logged_in_user auth request = Some user -> admin user = false ->
  auth_required h auth func a request = ([], Raise (HTTPException 403)).
Proof. unfold auth_required, check_user_permission. by intros -> ->. Qed.

Lemma configure_routes_wraps w self rule :
  rule ∈ configure_routes w self -> wraps w self rule.
Proof.
  unfold configure_routes. rewrite !elem_of_app. intros [H|[H|H]].
  - simpl in H. apply list_elem_of_singleton in H as ->. by eexists.
  - apply list_elem_of_In, in_concat in H as (rules & Hrules & Hin).
    apply in_map_iff in Hrules as (ma & <- & _).
    apply in_map_iff in Hin as ([[url name] callback] & <- & _). by eexists.
  - apply list_elem_of_In, in_concat in H as (rules & Hrules & Hin).
    apply in_map_iff in Hrules as (panel & <- & _).
    apply in_map_iff in Hin as ([[url name] callback] & <- & _). by eexists.
Qed.

(** X9. Every rule [configure_routes] adds to the blueprint is guarded: for
    a request with no logged-in user its view answers with the redirect to
    the login URL, and for a user who is not an admin with status 403; in
    both cases nothing of the page behind it runs (no query, no deletion, no
    flash). That holds for the dashboard, for the six pages of every
    registered model and for the pages of every panel. *)
Theorem configure_routes_guarded (w : World) (self : Admin) (rule : Rule)
    (url_args : list (string * string)) (request : Request) :
  rule ∈ configure_routes w self ->
  (get_logged_in_user (admin_auth self) request = None ->
   view_func rule url_args request =
   ([], Ok (Redirect (url_for (w_helpers w)
                        (auth_blueprint_name (admin_auth self) +:+ ".login")
                        [("next", get_next (w_helpers w) request)])))) /\
  (forall user,
     get_logged_in_user (admin_auth self) request = Some user -> admin user = false ->
     view_func rule url_args request = ([], Raise (HTTPException 403))).
Proof.
  intros [callback ->]%configure_routes_wraps. split.
  - apply auth_required_no_user.
  - intros user. apply auth_required_no_permission.
Qed.
(** ** [Export.prepare_query]: what it leaves alone *)

(** X10. [prepare_query] keeps the model, the filters and the ordering of
    the base query, and every join the base query had stays where it was:
    the query it returns differs in the column selection, the context and
    the joins it appended. *)
Theorem prepare_query_frame (G : Schema) (self : Export) (q' : SelectQuery) :
  prepare_query G self = Ok q' ->
  q_model q' = q_model (e_query self) /\
  _where q' = _where (e_query self) /\
  _order_by q' = _order_by (e_query self) /\
  _joins (e_query self) `prefix_of` _joins q' /\
  _joined_models (e_query self) ⊆ _joined_models q'.
Proof.
  unfold prepare_query.
  destruct (prepare_loop G self (fields self) (e_query self) ∅) as [[clone select]|] eqn:E;
    [|done].
  simpl. intros [= <-].
  destruct (prepare_loop_spec _ _ _ _ _ _ _ E)
    as (l & targets & (Hj & Hjm & Hm & Hw & Ho & _) & _).
  simpl. repeat split; try done.
  - rewrite Hj. by apply prefix_app_r.
  - rewrite Hjm. set_solver.
Qed.

Lemma prepare_loop_root_only G self lookups clone sel :
  Forall (fun lookup => rsplit2 lookup = None) lookups ->
  prepare_loop G self lookups clone sel =
  Ok (clone, foldl (fun s lookup => select_append s (q_model (e_query self)) lookup)
                   sel lookups).
Proof.
  intros H. revert sel. induction H as [|lookup lookups Hl _ IH]; intros sel; [done|].
  simpl. rewrite Hl. simpl. apply IH.
Qed.

Lemma foldl_select_append_root (root : Model) lookups (sel : gmap Model (list string)) :
  lookups <> [] ->
  foldl (fun s lookup => select_append s root lookup) sel lookups
  = <[root := default [] (sel !! root) ++ lookups]> sel.
Proof.
  revert sel. induction lookups as [|x l IH]; intros sel Hne; [done|].
  simpl. destruct l as [|y l].
  - done.
  - rewrite IH by done. unfold select_append. rewrite lookup_insert_eq. simpl.
    by rewrite insert_insert_eq, <- app_assoc.
Qed.

(** X11. When no selected path has a delimiter [prepare_query] cannot fail
    and joins nothing: it returns the base query with all the columns, in
    the order of the request, selected on the root entity type, and with an
    empty selection when nothing was requested. *)
Theorem prepare_query_root_only (G : Schema) (self : Export) :
  Forall (fun lookup => rsplit2 lookup = None) (fields self) ->
  prepare_query G self =
  Ok (set_query (e_query self)
        (SelDict (if decide (fields self = []) then ∅
                  else {[q_model (e_query self) := fields self]}))).
Proof.
  intros H. unfold prepare_query. rewrite prepare_loop_root_only by done. simpl.
  do 3 f_equal. case_decide as Hf.
  - by rewrite Hf.
  - rewrite foldl_select_append_root by done. by rewrite lookup_empty.
Qed.

(** X12. [ensure_join] is idempotent: once it has returned a query, asking
    for the same join on that query changes nothing. *)
Theorem ensure_join_idempotent (G : Schema) (self : Export) (q q' : SelectQuery)
    (m : Model) (p : string) :
  ensure_join G self q m p = Ok q' -> ensure_join G self q' m p = Ok q'.
Proof.
  intros H. destruct (ensure_join_extends _ _ _ _ _ _ H) as (l & _ & Hin & _).
  rewrite ensure_join_eq. by rewrite decide_False by (by intros ?).
Qed.

(** ** [Export.json_response]: the counter *)

Section GenerateCount.
Context (h : Helpers) (prepared_query : SelectQuery).

Lemma generate_rows_separators_any rows i :
  separators (generate_rows h prepared_query i rows)
  = Nat.min (length rows) (Z.to_nat (i - 1)).
Proof.
  unfold separators. revert i. induction rows as [|obj rows IH]; intros i; [done|].
  cbn [generate_rows]. rewrite !filter_app, !length_app, IH.
  rewrite filter_cons_False by apply row_text_not_separator.
  rewrite filter_nil.
  destruct (0 <? i - 1) eqn:E.
  - apply Z.ltb_lt in E. rewrite filter_cons_True, filter_nil by done.
    cbn [length]. lia.
  - apply Z.ltb_ge in E. rewrite filter_nil. cbn [length]. lia.
Qed.

End GenerateCount.

(** X13. Whatever [count()] answers, the generator opens with the bracket
    and a line feed, closes with a line feed and the bracket, and yields one
    chunk per row; the number of separators it yields is the number of rows
    or one less than the count, whichever is smaller. With a count above the
    number of rows a separator follows the last row, and with a count below
    it the last rows come with no separator between them. *)
Theorem generate_separators (h : Helpers) (db : Database) (prepared_query : SelectQuery) :
  let rows := db_rows db prepared_query in
  let chunks := generate h db prepared_query in
  head chunks = Some ("[" +:+ LF) /\
  last chunks = Some (LF +:+ "]") /\
  separators chunks = Nat.min (length rows) (Z.to_nat (db_count db prepared_query - 1)) /\
  filter (fun c => c <> row_separator) chunks
  = ["[" +:+ LF] ++ map (row_text h prepared_query) rows ++ [LF +:+ "]"].
Proof.
  simpl. unfold generate. split; [done|]. split; [|split].
  - by rewrite app_assoc, last_snoc.
  - unfold separators. rewrite !filter_app, !length_app.
    fold (separators (generate_rows h prepared_query (db_count db prepared_query)
                        (db_rows db prepared_query))).
    rewrite generate_rows_separators_any. simpl. lia.
  - rewrite !filter_app. f_equal. f_equal.
    generalize (db_count db prepared_query). 
    induction (db_rows db prepared_query) as [|obj rows IH]; intros i; [done|].
    cbn [generate_rows]. rewrite !filter_app, IH.
    rewrite filter_cons_True by apply row_text_not_separator.
    by destruct (0 <? i - 1).
Qed.
(** ** Joined paths and their ancestors *)

Lemma rsplit2_underscore n :
  clean_name n -> rsplit2 (String "_" n) = None.
Proof.
  intros [Hn Hu]. simpl. rewrite Hn. destruct n as [|c n]; [done|].
  rewrite decide_False; [done|]. intros [_ ->]. done.
Qed.

Lemma rsplit2_cons_Some c p hd tl :
  rsplit2 p = Some (hd, tl) -> rsplit2 (String c p) = Some (String c hd, tl).
Proof. intros H. simpl. by rewrite H. Qed.

Lemma rsplit2_join x n :
  clean_name n -> rsplit2 (x +:+ "__" +:+ n) = Some (x, n).
Proof.
  intros Hn. induction x as [|c x IH].
  - change ("" +:+ "__" +:+ n) with (String "_" (String "_" n)).
    change (rsplit2 (String "_" (String "_" n)))
      with (match rsplit2 (String "_" n) with
            | Some (hd, tl) => Some (String "_" hd, tl)
            | None => if decide ("_"%char = "_"%char /\ "_"%char = "_"%char)
                      then Some (EmptyString, n) else None
            end).
    by rewrite rsplit2_underscore.
  - change (String c x +:+ "__" +:+ n) with (String c (x +:+ "__" +:+ n)).
    by apply rsplit2_cons_Some.
Qed.

Lemma join_path_snoc p n :
  p <> [] -> join_path (p ++ [n]) = join_path p +:+ "__" +:+ n.
Proof.
  unfold join_path. induction p as [|x p IH]; [done|]. intros _.
  destruct p as [|y p].
  - done.
  - change ((x :: y :: p) ++ [n]) with (x :: (y :: p) ++ [n]).
    rewrite string_concat_cons2' by done. rewrite IH by done.
    rewrite string_concat_cons2, !string_app_assoc. done.
Qed.

Lemma ancestors_join_path p a :
  Forall clean_name p -> a ∈ ancestors (join_path p) ->
  exists p1 p2, p = p1 ++ p2 /\ p1 <> [] /\ p2 <> [] /\ a = join_path p1.
Proof.
  induction p as [|n q IH] using rev_ind; intros Hclean Ha.
  - by apply elem_of_nil in Ha.
  - apply Forall_app in Hclean as [Hq Hn]. rewrite Forall_singleton in Hn.
    destruct (decide (q = [])) as [->|Hne].
    + change (join_path ([] ++ [n])) with n in Ha.
      rewrite ancestors_none in Ha by apply Hn. by apply elem_of_nil in Ha.
    + rewrite join_path_snoc in Ha by done.
      rewrite (ancestors_step _ _ _ (rsplit2_join _ _ Hn)) in Ha.
      apply elem_of_cons in Ha as [->|Ha].
      * exists q, [n]. done.
      * destruct (IH Hq Ha) as (p1 & p2 & -> & H1 & H2 & ->).
        exists p1, (p2 ++ [n]). rewrite app_assoc. repeat split; try done.
        by destruct p2.
Qed.

Lemma join_path_inj p p' :
  Forall clean_name p -> Forall clean_name p' -> p <> [] -> p' <> [] ->
  join_path p = join_path p' -> p = p'.
Proof.
  revert p'. induction p as [|n q IH] using rev_ind; intros p' Hp Hp' Hne Hne' Heq; [done|].
  destruct p' as [|n' q' _] using rev_ind; [done|].
  apply Forall_app in Hp as [Hq Hn]. rewrite Forall_singleton in Hn.
  apply Forall_app in Hp' as [Hq' Hn']. rewrite Forall_singleton in Hn'.
  destruct (decide (q = [])) as [->|Hqne], (decide (q' = [])) as [->|Hqne'].
  - change (join_path ([] ++ [n])) with n in Heq.
    change (join_path ([] ++ [n'])) with n' in Heq. by subst.
  - rewrite (join_path_snoc q') in Heq by done. change (join_path ([] ++ [n])) with n in Heq.
    pose proof (rsplit2_join (join_path q') n' Hn') as H. rewrite <- Heq in H.
    destruct Hn as [Hn _]. congruence.
  - rewrite (join_path_snoc q) in Heq by done. change (join_path ([] ++ [n'])) with n' in Heq.
    pose proof (rsplit2_join (join_path q) n Hn) as H. rewrite Heq in H.
    destruct Hn' as [Hn' _]. congruence.
  - rewrite !join_path_snoc in Heq by done.
    pose proof (rsplit2_join (join_path q) n Hn) as H. rewrite Heq in H.
    rewrite rsplit2_join in H by done. injection H as Hj ->.
    f_equal. by apply IH.
Qed.

(** ** Relation paths in a schema with well-formed names *)

Section Reach.
Context (G : Schema).

Lemma reach_split m p1 p2 m' :
  reach G m (p1 ++ p2) m' -> exists mid, reach G m p1 mid /\ reach G mid p2 m'.
Proof.
  revert m. induction p1 as [|n p1 IH]; intros m H.
  - exists m. split; [constructor|done].
  - inversion H as [|m0 f to p m1 Hf Hto Hr]; subst.
    destruct (IH _ Hr) as (mid & H1 & H2). exists mid. split; [|done].
    by eapply reach_cons.
Qed.

Lemma unique_names_field m f1 f2 :
  unique_names G -> f1 ∈ get_fields G m -> f2 ∈ get_fields G m ->
  field_name f1 = field_name f2 -> f1 = f2.
Proof.
  intros Hu H1 H2 Hn. specialize (Hu m).
  apply list_elem_of_lookup in H1 as [i Hi]. apply list_elem_of_lookup in H2 as [j Hj].
  assert (i = j) as ->.
  { eapply NoDup_lookup; [exact Hu| |].
    - by rewrite list_lookup_fmap, Hi.
    - by rewrite list_lookup_fmap, Hj, Hn. }
  congruence.
Qed.

Lemma reach_deterministic m p m1 m2 :
  unique_names G -> reach G m p m1 -> reach G m p m2 -> m1 = m2.
Proof.
  intros Hu H1. revert m2. induction H1 as [m|m f to p m1 Hf Hto Hr IH]; intros m2 H2.
  - by inversion H2.
  - inversion H2 as [|m0 f' to' p' m1' Hf' Hto' Hr' Hname]; subst.
    assert (f' = f) as -> by (by eapply unique_names_field).
    apply IH. congruence.
Qed.

Lemma reach_clean m p m' :
  clean_names G -> reach G m p m' -> Forall clean_name p.
Proof.
  intros Hc. induction 1 as [m|m f to p m' Hf Hto Hr IH]; constructor; [|done].
  by eapply Hc.
Qed.

End Reach.

(** ** The alias map of an export of collected fields *)

Lemma alias_of_keys_lookup keys s m :
  alias_of_keys keys !! s = Some m -> (m, s) ∈ keys.
Proof.
  unfold alias_of_keys. induction keys as [|[m' s'] keys IH] using rev_ind.
  - simpl. by rewrite lookup_empty.
  - rewrite foldl_app. simpl. destruct (decide (s' = s)) as [->|Hne].
    + rewrite lookup_insert_eq. intros [= ->]. set_solver.
    + rewrite lookup_insert_ne by done. intros H. set_solver.
Qed.

Lemma related_key_entry (es : list Entry) m s :
  is_Some (foldl add_entry ∅ es !! (m, s)) ->
  exists p f, (m, p, f) ∈ es /\ join_path p = s.
Proof.
  rewrite foldl_add_entry_lookup, lookup_empty.
  destruct (entries_at m s es) as [|f fs] eqn:E; [by intros [? ?]|]. intros _.
  assert (f ∈ entries_at m s es) as Hin by (rewrite E; set_solver).
  unfold entries_at in Hin.
  apply list_elem_of_fmap in Hin as ([[m' p] f'] & -> & [[Hm Hs] Hin]%list_elem_of_filter).
  simpl in *. subst. by exists p, f'.
Qed.

(** The alias map of an export built from the fields
    [collect_related_fields] returned runs through no cycle, when the field
    names of the schema are unique within their entity types and its
    relation fields have well-formed names. *)
Lemma collected_alias_acyclic G root fuel rel query fields :
  unique_names G -> clean_names G ->
  collect_related_fields G root fuel root ∅ [] = Some rel ->
  alias_acyclic (alias_to_model (Export_init query rel fields)).
Proof.
  intros Hu Hc Hrel. pose proof Hrel as Hrel'.
  rewrite collect_related_fields_entries in Hrel.
  destruct (related_entries G root fuel root []) as [es|] eqn:Hes; [|done].
  injection Hrel as <-.
  assert (forall s m, alias_to_model (Export_init query (foldl add_entry ∅ es) fields) !! s
                      = Some m ->
                      exists p, reach G root p m /\ p <> [] /\ join_path p = s) as Hkey.
  { intros s m H. simpl in H. apply alias_of_keys_lookup in H.
    apply list_elem_of_fmap in H as ([k v] & Hk & Hin%elem_of_map_to_list).
    simpl in Hk. subst k.
    destruct (related_key_entry es m s) as (p & f & Hin' & Hj); [by eexists|].
    destruct (related_entries_sound _ _ _ _ _ _ _ Hes Hin') as (r & Hp & Hr & Hm & _).
    simpl in *. subst r. exists p. split; [done|]. split; [|done].
    intros ->. by apply reach_nil_inv in Hr. }
  intros s m a Hs Ha Halias.
  destruct (Hkey _ _ Hs) as (p & Hp & Hpne & <-).
  destruct (Hkey _ _ Halias) as (p' & Hp' & Hpne' & Hj').
  destruct (ancestors_join_path p a (reach_clean _ _ _ _ Hc Hp) Ha)
    as (p1 & p2 & -> & H1 & H2 & ->).
  assert (Forall clean_name p1) as Hc1.
  { pose proof (reach_clean _ _ _ _ Hc Hp) as H. by apply Forall_app in H as [? _]. }
  apply join_path_inj in Hj'; [|by eapply reach_clean|done..]. subst p'.
  destruct (reach_split _ _ _ _ _ Hp) as (mid & Hmid & Hcyc).
  assert (mid = m) as -> by (by eapply reach_deterministic).
  by rewrite (collect_related_fields_cycle G root p1 m p2 fuel Hp' Hcyc H2) in Hrel'.
Qed.
(** ** [ModelAdmin.delete] *)

Lemma emit_all_run es : emit_all es = (es, Ok tt).
Proof.
  induction es as [|e es IH]; [done|]. simpl. rewrite IH. done.
Qed.

(** X14. A GET of the delete page deletes nothing and flashes nothing: all
    it sends to the database are select queries, none at all when
    [delete_collect_objects] is off, and it renders the delete template. *)
Theorem delete_get_reads_only (G : Schema) (h : Helpers) (db : Database) (orm : Orm)
    (self : ModelAdmin) (request : Request) :
  method request = "GET" ->
  exists trace,
    delete_ G h db orm self request = (trace, Ok (Rendered "admin/models/delete.html")) /\
    (forall e, e ∈ trace -> exists q, e = Executed q) /\
    (delete_collect_objects self = false -> trace = []).
Proof.
  intros Hm. unfold delete_. rewrite !decide_True by done.
  destruct (delete_collect_objects self).
  - simpl. rewrite emit_all_run. simpl. eexists. split; [reflexivity|]. split; [|done].
    intros e [->|He]%elem_of_cons; [by eexists|].
    rewrite app_nil_r in He.
    apply list_elem_of_In, in_concat in He as (evs & Hevs & Hin).
    apply in_map_iff in Hevs as (obj & <- & _).
    unfold collect_objects_queries in Hin.
    apply in_map_iff in Hin as ([[q f] d] & <- & _). by eexists.
  - simpl. eexists. split; [reflexivity|]. split; [|done]. by intros e ?%elem_of_nil.
Qed.

(** X15. A POST to the delete page counts the rows whose key is among the
    posted ids, deletes every one of them, once, in the order the query
    yields them and recursively exactly when [delete_recursive] is set,
    flashes the count and redirects to the index; it deletes nothing else.
    Any method other than GET and POST raises [NameError] before anything is
    sent or deleted. *)
Theorem delete_post_deletes (G : Schema) (h : Helpers) (db : Database) (orm : Orm)
    (self : ModelAdmin) (request : Request) :
  let query := delete_query G self (md_getlist (form request) "id") in
  (method request = "POST" ->
   delete_ G h db orm self request =
   ([Counted query; Executed query]
    ++ map (fun obj => Deleted obj (delete_recursive self)) (db_rows db query)
    ++ [Flashed ("Successfully deleted " +:+ str_of_Z (db_count db query) +:+ " "
                 +:+ get_display_name G self +:+ "s") "success"],
    Ok (Redirect (url_for h (get_url_name G h self "index") [])))) /\
  (method request <> "GET" -> method request <> "POST" ->
   delete_ G h db orm self request = ([], Raise NameError)).
Proof.
  simpl. unfold delete_, delete_query. split.
  - intros Hm. rewrite Hm. simpl. rewrite emit_all_run. simpl. done.
  - intros H1 H2. by rewrite !decide_False by done.
Qed.

(** ** [ModelAdmin.export] *)

(** X16. The export page collects the related fields before it looks at the
    method: for a model from which a relation cycle can be reached it never
    returns, for a GET of the page as for a POST. *)
Theorem export_cycle (G : Schema) (h : Helpers) (db : Database) (orm : Orm)
    (self : ModelAdmin) (p c : list string) (m : Model) :
  reach G (ma_model self) p m -> reach G m c m -> c <> [] ->
  forall fuel request, export G h db orm fuel self request = None.
Proof.
  intros Hp Hc Hne fuel request. unfold export.
  by rewrite (collect_related_fields_cycle G (ma_model self) p m c fuel Hp Hc Hne).
Qed.

(** X17. A POST to the export page streams the rows of the query it built
    from the model, the requested ordering and the filters, with the fields
    posted in the form resolved against the related fields it collected, as
    an attachment named after the admin. When field names are unique within
    their entity types and relation fields have well-formed names, the
    query prepared for the stream joins no entity type twice and none the
    filters had joined, whatever fields were posted. *)
Theorem export_post_streams (G : Schema) (h : Helpers) (db : Database) (orm : Orm)
    (fuel : nat) (self : ModelAdmin) (request : Request) (rel : Related) :
  collect_related_fields G (ma_model self) fuel (ma_model self) ∅ [] = Some rel ->
  method request = "POST" ->
  let query :=
    process_request orm
      (apply_ordering G self (get_query self) (default "" (md_get (args request) "ordering")))
      request in
  let e := Export_init query rel (md_getlist (form request) "fields") in
  export G h db orm fuel self request =
  Some (lift (json_response G h db e ("export-" +:+ get_admin_name G h self +:+ ".json"))) /\
  (unique_names G -> clean_names G ->
   forall q', prepare_query G e = Ok q' ->
   exists added,
     _joins q' = _joins query ++ added /\ NoDup added.*2 /\
     forall t, t ∈ added.*2 -> t ∉ _joined_models query).
Proof.
  intros Hrel Hm. simpl. unfold export. rewrite Hrel, decide_True by done.
  split; [done|]. intros Hu Hc q'. unfold prepare_query.
  match goal with
  | |- context [prepare_loop G ?e ?f ?q ∅] =>
      destruct (prepare_loop G e f q ∅) as [[clone sel]|] eqn:E; [|done]
  end.
  simpl. intros [= <-].
  destruct (prepare_loop_spec _ _ _ _ _ _ _ E) as (l & targets & Hx & Hfresh & Hnd & _).
  exists l. split; [apply Hx|]. split; [|exact Hfresh].
  apply Hnd. exact (collected_alias_acyclic G (ma_model self) fuel rel _ _ Hu Hc Hrel).
Qed.
(** ** The extras at work *)

Lemma ajax_list_page_witness :
  exists prev_page next_page,
    ajax_list demo_helpers post_admin ajax_request =
    ([Counted (order_by (where_ (select Author) ("email" +:+ "__icontains") (WStr "bo"))
                        [OrderCol "email"]);
      Executed (order_by (where_ (select Author) ("email" +:+ "__icontains") (WStr "bo"))
                         [OrderCol "email"])],
     Ok (JsonBody
           (JDict [("prev_page", JInt prev_page); ("next_page", JInt next_page);
                   ("object_list", JList [JDict [("id", JInt 7); ("repr", JStr "seven")]])])
           "application/json")) /\
    (1 <= 1 -> prev_page = 0) /\
    (1 < 1 -> prev_page = 1 - 1) /\
    (1 <= 1 -> next_page = 0) /\
    (1 < 1 -> next_page = 1 + 1).
Proof.
  exact (ajax_list_page demo_helpers post_admin ajax_request "user" "email" [Author] Author
           {["user" := "email"]} eq_refl eq_refl eq_refl eq_refl eq_refl).
Defined.

Lemma demo_site_rules :
  mkRule ("/" +:+ "Post" +:+ "/delete/") ("Post" +:+ "_" +:+ "delete")
    (auth_required demo_helpers demo_auth
       (fun _ request =>
          delete_ blog_schema demo_helpers three_posts demo_orm (default_admin "admin" Post)
            request))
    ["GET"; "POST"]
  ∈ configure_routes demo_world demo_site.
Proof.
  apply (list_elem_of_lookup_2 _ 3). reflexivity.
Defined.

Lemma configure_routes_guarded_witness :
  let rule :=
    mkRule ("/" +:+ "Post" +:+ "/delete/") ("Post" +:+ "_" +:+ "delete")
      (auth_required demo_helpers demo_auth
         (fun _ request =>
            delete_ blog_schema demo_helpers three_posts demo_orm (default_admin "admin" Post)
              request))
      ["GET"; "POST"] in
  let request := mkRequest "POST" "/admin/Post/delete/" [] [("id", "1")] in
  (get_logged_in_user demo_auth request = None ->
   view_func rule [] request = ([], Ok (Redirect "accounts.login?next=/admin/Post/delete/")))
  /\
  (forall user,
     get_logged_in_user demo_auth request = Some user -> admin user = false ->
     view_func rule [] request = ([], Raise (HTTPException 403))).
Proof.
  exact (configure_routes_guarded demo_world demo_site _ []
           (mkRequest "POST" "/admin/Post/delete/" [] [("id", "1")]) demo_site_rules).
Defined.

Lemma prepare_query_frame_witness :
  let q' := mkQuery Post Author [(Post, Author)] {[Author]} [] []
              (SelDict {[Author := ["email"]]}) in
  q_model q' = Post /\ _where q' = [] /\ _order_by q' = [] /\
  [] `prefix_of` _joins q' /\ (∅ : gset Model) ⊆ _joined_models q'.
Proof.
  apply (prepare_query_frame blog_schema (blog_export ["user__email"])).
  vm_compute. reflexivity.
Defined.

Lemma prepare_query_root_only_witness :
  prepare_query blog_schema (blog_export ["name"; "id"]) =
  Ok (set_query (select Post) (SelDict {[Post := ["name"; "id"]]})).
Proof.
  apply (prepare_query_root_only blog_schema (blog_export ["name"; "id"])).
  repeat constructor.
Defined.

Lemma ensure_join_idempotent_witness :
  let q' := mkQuery Order City [(Order, Customer); (Customer, City)] {[Customer; City]}
              [] [] SelStar in
  ensure_join shop_schema shop_export q' City "customer__city" = Ok q'.
Proof.
  apply (ensure_join_idempotent shop_schema shop_export (select Order)).
  vm_compute. reflexivity.
Defined.

Lemma delete_get_reads_only_witness :
  exists trace,
    delete_ blog_schema demo_helpers three_posts demo_orm post_admin
      (mkRequest "GET" "/admin/Post/delete/" [("id", "1")] [])
    = (trace, Ok (Rendered "admin/models/delete.html")) /\
    (forall e, e ∈ trace -> exists q, e = Executed q) /\
    (delete_collect_objects post_admin = false -> trace = []).
Proof.
  apply (delete_get_reads_only blog_schema demo_helpers three_posts demo_orm post_admin).
  reflexivity.
Defined.

Lemma tree_cycle : reach tree_schema Category ["parent"] Category.
Proof.
  apply (reach_cons tree_schema Category (mkField "parent" (Some Category)) Category []);
    [|done|constructor].
  simpl. set_solver.
Defined.

Lemma export_cycle_witness :
  export tree_schema demo_helpers three_posts demo_orm 100
    (default_admin "admin" Category) (mkRequest "GET" "/admin/Category/export/" [] []) = None.
Proof.
  apply (export_cycle tree_schema demo_helpers three_posts demo_orm
           (default_admin "admin" Category) [] ["parent"] Category).
  - constructor.
  - exact tree_cycle.
  - discriminate.
Defined.

Lemma blog_clean_names : clean_names blog_schema.
Proof.
  intros m f to Hf Hto. simpl in Hf. unfold Post, Author in *.
  repeat case_decide; subst; try (by apply elem_of_nil in Hf);
    repeat (apply elem_of_cons in Hf as [->|Hf]); try (by apply elem_of_nil in Hf);
    simpl in Hto; try discriminate; by split.
Defined.

Lemma export_post_streams_witness :
  let request :=
    mkRequest "POST" "/admin/Post/export/" [("ordering", "-name")]
      [("fields", "name"); ("fields", "user__email"); ("fields", "user__id")] in
  let query := order_by (select Post) [OrderDir "name" "desc"] in
  let e := Export_init query blog_related ["name"; "user__email"; "user__id"] in
  export blog_schema demo_helpers three_posts demo_orm 3 post_admin request =
  Some (lift (json_response blog_schema demo_helpers three_posts e
                ("export-" +:+ "Post" +:+ ".json"))) /\
  (forall q', prepare_query blog_schema e = Ok q' ->
   exists added,
     _joins q' = _joins query ++ added /\ NoDup added.*2 /\
     forall t, t ∈ added.*2 -> t ∉ _joined_models query).
Proof.
  destruct (export_post_streams blog_schema demo_helpers three_posts demo_orm 3 post_admin
              (mkRequest "POST" "/admin/Post/export/" [("ordering", "-name")]
                 [("fields", "name"); ("fields", "user__email"); ("fields", "user__id")])
              blog_related) as [H1 H2].
  - vm_compute. reflexivity.
  - reflexivity.
  - split; [exact H1|]. exact (H2 blog_unique_names blog_clean_names).
Defined.
(** ** [Export.__init__]: the alias map *)

Lemma alias_of_keys_snoc keys k :
  alias_of_keys (keys ++ [k]) = <[k.2 := k.1]> (alias_of_keys keys).
Proof. unfold alias_of_keys. by rewrite foldl_app. Qed.

(** X18. The alias map of an export sends a path to an entity type only if
    the pair is a key of the related map, has no entry for a path that no
    key carries, and sends a path that exactly one key carries to the entity
    type of that key. *)
Theorem alias_of_keys_paths (keys : list (Model * string)) (s : string) :
  (forall m, alias_of_keys keys !! s = Some m -> (m, s) ∈ keys) /\
  (s ∉ keys.*2 -> alias_of_keys keys !! s = None) /\
  (forall m, (m, s) ∈ keys -> (forall m', (m', s) ∈ keys -> m' = m) ->
             alias_of_keys keys !! s = Some m).
Proof.
  split; [|split].
  - intros m. apply alias_of_keys_lookup.
  - intros Hs. destruct (alias_of_keys keys !! s) as [m|] eqn:E; [|done].
    apply alias_of_keys_lookup in E. exfalso. apply Hs.
    apply list_elem_of_fmap. by exists (m, s).
  - induction keys as [|[m' s'] keys IH] using rev_ind; intros m Hin Huniq.
    + by apply elem_of_nil in Hin.
    + rewrite alias_of_keys_snoc. simpl. destruct (decide (s' = s)) as [->|Hne].
      * rewrite lookup_insert_eq. f_equal. apply Huniq. set_solver.
      * rewrite lookup_insert_ne by done. apply IH.
        -- apply elem_of_app in Hin as [Hin|Hin]; [done|].
           apply list_elem_of_singleton in Hin. congruence.
        -- intros m'' Hin''. apply Huniq. set_solver.
Qed.

(** ** [collect_related_fields]: the accumulator *)

(** X19. [collect_related_fields] only ever appends to the accumulator it is
    given: whatever a key held before the call is still there afterwards, in
    the same order, at the front of what the key holds, and no key is
    lost. *)
Theorem collect_related_fields_extends (G : Schema) (self_model : Model) (fuel : nat)
    (model : Model) (accum accum' : Related) (path : list string) :
  collect_related_fields G self_model fuel model accum path = Some accum' ->
  forall k, default [] (accum !! k) `prefix_of` default [] (accum' !! k) /\
            (is_Some (accum !! k) -> is_Some (accum' !! k)).
Proof.
  rewrite collect_related_fields_entries.
  destruct (related_entries G self_model fuel model path) as [es|]; [|done].
  intros [= <-] [m s]. split.
  - rewrite foldl_add_entry_default. by apply prefix_app_r.
  - rewrite foldl_add_entry_lookup. intros [fs ->]. by eexists.
Qed.

Lemma collect_related_fields_extends_witness :
  default [] (({[ (Author, "user") := [mkField "pk" None] ]} : Related) !! (Author, "user"))
    `prefix_of`
  default [] (({[ (Author, "user") :=
                    [mkField "pk" None; mkField "id" None; mkField "email" None] ]}
               : Related) !! (Author, "user")) /\
  (is_Some (({[ (Author, "user") := [mkField "pk" None] ]} : Related) !! (Author, "user")) ->
   is_Some (({[ (Author, "user") :=
                  [mkField "pk" None; mkField "id" None; mkField "email" None] ]}
             : Related) !! (Author, "user"))).
Proof.
  apply (collect_related_fields_extends blog_schema Post 3 Post
           {[ (Author, "user") := [mkField "pk" None] ]} _ []).
  vm_compute. reflexivity.
Defined.
(** ** [collect_related_fields]: what a key holds *)

Lemma filter_none {A} (P : A -> Prop) `{!forall x, Decision (P x)} (l : list A) :
  (forall x, x ∈ l -> ~ P x) -> filter P l = [].
Proof.
  induction l as [|x l IH]; intros Hall; [done|].
  rewrite filter_cons_False by (apply Hall; set_solver).
  apply IH. intros y Hy. apply Hall. set_solver.
Qed.

Lemma filter_agree {A} (P Q : A -> Prop) `{!forall x, Decision (P x)} `{!forall x, Decision (Q x)}
    (l : list A) :
  (forall x, x ∈ l -> P x <-> Q x) -> filter P l = filter Q l.
Proof.
  induction l as [|x l IH]; intros Hall; [done|].
  rewrite !filter_cons, IH by (intros y Hy; apply Hall; set_solver).
  destruct (decide (P x)) as [Hp|Hp], (decide (Q x)) as [Hq|Hq]; try done.
  - exfalso. apply Hq, Hall; [set_solver|done].
  - exfalso. apply Hp, Hall; [set_solver|done].
Qed.

Lemma filter_parts {A B} (R : A -> list B -> Prop) (P : B -> Prop) `{!forall x, Decision (P x)}
    (g : A -> list B) (fs : list A) (parts : list (list B)) :
  Forall2 R fs parts ->
  (forall f part, f ∈ fs -> R f part -> filter P part = g f) ->
  filter P (mjoin parts) = mjoin (g <$> fs).
Proof.
  induction 1 as [|f part fs parts Hr _ IH]; intros Hg; [done|].
  simpl. rewrite filter_app, (Hg f part) by (done || set_solver).
  f_equal. apply IH. intros f' part' Hin. apply Hg. set_solver.
Qed.

Lemma mjoin_no_part {A B} (key : A -> string) (k : string) (X : list B) (fs : list A) :
  k ∉ key <$> fs ->
  mjoin ((fun f => if decide (key f = k) then X else []) <$> fs) = [].
Proof.
  induction fs as [|f fs IH]; intros Hnotin; [done|].
  rewrite fmap_cons, fmap_cons in *. change (mjoin (?x :: ?l)) with (x ++ mjoin l).
  rewrite decide_False by set_solver. apply IH. set_solver.
Qed.

Lemma mjoin_one_part {A B} (key : A -> string) (k : string) (X : list B) (fs : list A) :
  NoDup (key <$> fs) -> k ∈ key <$> fs ->
  mjoin ((fun f => if decide (key f = k) then X else []) <$> fs) = X.
Proof.
  induction fs as [|f fs IH]; intros Hnd Hin; [by apply elem_of_nil in Hin|].
  rewrite fmap_cons in Hnd, Hin. apply NoDup_cons in Hnd as [Hnotin Hnd].
  rewrite fmap_cons. change (mjoin (?x :: ?l)) with (x ++ mjoin l).
  destruct (decide (key f = k)) as [Hk|Hk].
  - rewrite mjoin_no_part by (by rewrite <- Hk). by rewrite app_nil_r.
  - apply IH; [done|]. set_solver.
Qed.

Lemma mjoin_columns {B} (h : Field -> B) (fs : list Field) :
  mjoin ((fun f => match field_to f with None => [h f] | Some _ => [] end) <$> fs)
  = h <$> filter (fun f => field_to f = None) fs.
Proof.
  induction fs as [|f fs IH]; [done|].
  rewrite fmap_cons, filter_cons. change (mjoin (?x :: ?l)) with (x ++ mjoin l).
  rewrite IH. destruct (field_to f) eqn:E.
  - by rewrite decide_False.
  - by rewrite decide_True.
Qed.

Section RelatedColumns.
Context (G : Schema) (self_model : Model).

(** The entries the walk records at one path are the plain fields of the
    entity type at the end of the path, in the order of its fields. *)
Lemma related_entries_at_path fuel model pre es r m :
  unique_names G ->
  related_entries G self_model fuel model pre = Some es ->
  reach G model r m -> m <> self_model ->
  filter (fun e : Entry => e.1.2 = pre ++ r) es
  = (fun f => (m, pre ++ r, f)) <$> filter (fun f => field_to f = None) (get_fields G m).
Proof.
  intros Hu Hes Hr. revert fuel pre es Hes.
  induction Hr as [m|m0 f0 to p m Hf0 Hto Hr IH]; intros fuel pre es Hes Hm.
  - destruct fuel as [|fuel]; [done|].
    apply related_entries_Some in Hes as (parts & Hparts & ->).
    rewrite (filter_parts _ _
               (fun f => match field_to f with
                         | None => [(m, pre ++ [], f)]
                         | Some _ => []
                         end) _ _ Hparts).
    + apply mjoin_columns.
    + intros f part Hf Hfe. unfold field_entries in Hfe.
      destruct (field_to f) as [to|] eqn:Eto.
      * apply filter_none. intros e He Hp.
        destruct (related_entries_sound _ _ _ _ _ _ _ Hfe He) as (r & Hr & _).
        rewrite Hp, <- app_assoc in Hr. apply app_inv_head in Hr. done.
      * injection Hfe as <-. rewrite decide_True by done.
        rewrite app_nil_r. by rewrite filter_cons_True, filter_nil.
  - destruct fuel as [|fuel]; [done|].
    apply related_entries_Some in Hes as (parts & Hparts & ->).
    rewrite (filter_parts _ _
               (fun f => if decide (field_name f = field_name f0)
                         then (fun f => (m, pre ++ field_name f0 :: p, f)) <$>
                              filter (fun f => field_to f = None) (get_fields G m)
                         else []) _ _ Hparts).
    + apply mjoin_one_part; [apply Hu|]. by apply list_elem_of_fmap_2.
    + intros f part Hf Hfe. unfold field_entries in Hfe.
      destruct (decide (field_name f = field_name f0)) as [Hn|Hn].
      * assert (f = f0) as -> by (by eapply unique_names_field).
        rewrite Hto in Hfe.
        replace (pre ++ field_name f0 :: p) with ((pre ++ [field_name f0]) ++ p)
          by (by rewrite <- app_assoc).
        by eapply IH.
      * apply filter_none. intros e He Hp.
        destruct (field_to f) as [to'|] eqn:Eto.
        -- destruct (related_entries_sound _ _ _ _ _ _ _ Hfe He) as (r & Hr' & _).
           rewrite Hp, <- app_assoc in Hr'. apply app_inv_head in Hr'.
           simpl in Hr'. congruence.
        -- injection Hfe as <-. case_decide; [|by apply elem_of_nil in He].
           apply list_elem_of_singleton in He as ->. simpl in Hp.
           rewrite <- (app_nil_r pre) in Hp at 1. apply app_inv_head in Hp. done.
Qed.

End RelatedColumns.

(** X20. In a schema whose field names are unique within their entity types
    and whose relation fields have well-formed names, the map
    [collect_related_fields] returns for a root holds, under the key of
    every non-empty relation path from the root, exactly the fields of the
    entity type at the end of the path that are no relation fields, once
    each and in the order of the entity type; the key is absent when that
    type has no such field. *)
Theorem collect_related_fields_columns (G : Schema) (root : Model) (fuel : nat)
    (accum : Related) (p : list string) (m : Model) :
  unique_names G -> clean_names G ->
  collect_related_fields G root fuel root ∅ [] = Some accum ->
  reach G root p m -> p <> [] ->
  accum !! (m, join_path p) =
  match filter (fun f => field_to f = None) (get_fields G m) with
  | [] => None
  | columns => Some columns
  end.
Proof.
  intros Hu Hc Hacc Hp Hne.
  assert (m <> root) as Hm.
  { intros ->. by rewrite (collect_related_fields_cycle G root [] root p fuel) in Hacc
      by (done || constructor). }
  rewrite collect_related_fields_entries in Hacc.
  destruct (related_entries G root fuel root []) as [es|] eqn:Hes; [|done].
  injection Hacc as <-.
  rewrite foldl_add_entry_lookup, lookup_empty.
  assert (entries_at m (join_path p) es
          = filter (fun f => field_to f = None) (get_fields G m)) as ->.
  { unfold entries_at.
    rewrite (filter_agree _ (fun e : Entry => e.1.2 = [] ++ p)).
    - rewrite (related_entries_at_path G root fuel root [] es p m Hu Hes Hp Hm).
      rewrite <- list_fmap_compose. apply list_fmap_id.
    - intros e He.
      destruct (related_entries_sound _ _ _ _ _ _ _ Hes He) as (r & Hr & Hreach & Hroot & _).
      simpl in Hr. simpl. rewrite Hr in *. split.
      + intros [Hm' Hj]. apply join_path_inj in Hj; [done|by eapply reach_clean..| |done].
        intros ->. by apply reach_nil_inv in Hreach.
      + intros ->. split; [by eapply reach_deterministic|done]. }
  by destruct (filter _ _).
Qed.

Lemma collect_related_fields_columns_witness :
  blog_related !! (Author, join_path ["user"]) =
  match filter (fun f => field_to f = None) (get_fields blog_schema Author) with
  | [] => None
  | columns => Some columns
  end.
Proof.
  apply (collect_related_fields_columns blog_schema Post 3 blog_related ["user"] Author
           blog_unique_names blog_clean_names).
  - vm_compute. reflexivity.
  - apply (reach_cons blog_schema Post (mkField "user" (Some Author)) Author []);
      [|done|constructor].
    simpl. set_solver.
  - discriminate.
Defined.
(** ** [Export.json_response]: one row per line *)

Lemma printable_app a b : printable (a +:+ b) = printable a && printable b.
Proof. induction a as [|c a IH]; [done|]. simpl. by rewrite IH, andb_assoc. Qed.

Lemma escape_char_printable c : printable (escape_char c) = true.
Proof. destruct c as [[] [] [] [] [] [] [] []]; vm_compute; reflexivity. Qed.

Lemma escape_string_printable s : printable (escape_string s) = true.
Proof.
  induction s as [|c s IH]; [done|].
  cbn [escape_string]. by rewrite printable_app, escape_char_printable, IH.
Qed.

Lemma dumps_string_printable s : printable (dumps_string s) = true.
Proof.
  unfold dumps_string. cbn [printable].
  rewrite printable_app, escape_string_printable. done.
Qed.

Lemma dumps_uint_printable u : printable (dumps_uint u) = true.
Proof. induction u; simpl; done. Qed.

Lemma dumps_int_printable z : printable (dumps_int z) = true.
Proof. unfold dumps_int. destruct (Z.to_int z); simpl; apply dumps_uint_printable. Qed.

Lemma printable_concat sep (l : list string) :
  printable sep = true -> Forall (fun x => printable x = true) l ->
  printable (String.concat sep l) = true.
Proof.
  intros Hsep. induction 1 as [|x l Hx Hl IH]; [done|].
  destruct l as [|y l].
  - by rewrite string_concat_one.
  - rewrite string_concat_cons2, !printable_app, Hx, Hsep, IH. done.
Qed.

Lemma json_dumps_printable v : printable (json_dumps v) = true.
Proof.
  induction v as [| [] | z | s | l IH | items IH] using json_nested_ind; try done.
  - apply dumps_int_printable.
  - apply dumps_string_printable.
  - cbn [json_dumps]. rewrite !printable_app, printable_concat; [done|done|].
    apply Forall_fmap. eapply Forall_impl; [exact IH|]. done.
  - cbn [json_dumps]. rewrite !printable_app, printable_concat; [done|done|].
    apply Forall_fmap. eapply Forall_impl; [exact IH|]. intros [k v] Hv. unfold compose. cbn [fst snd] in *.
    by rewrite !printable_app, dumps_string_printable, Hv.
Qed.

Lemma split_lines_app a b :
  printable a = true -> split_lines (a +:+ LF +:+ b) = a :: split_lines b.
Proof.
  induction a as [|c a IH]; intros Ha.
  - done.
  - simpl in Ha. apply andb_prop in Ha as [Hc Ha]. apply bool_decide_eq_true in Hc.
    change (String c a +:+ LF +:+ b) with (String c (a +:+ LF +:+ b)).
    cbn [split_lines]. rewrite IH by done.
    rewrite decide_False; [done|]. intros ->. vm_compute in Hc. by destruct Hc.
Qed.

Lemma split_lines_printable a : printable a = true -> split_lines a = [a].
Proof.
  induction a as [|c a IH]; intros Ha; [done|].
  simpl in Ha. apply andb_prop in Ha as [Hc Ha]. apply bool_decide_eq_true in Hc.
  cbn [split_lines]. rewrite IH by done.
  rewrite decide_False; [done|]. intros ->. vm_compute in Hc. by destruct Hc.
Qed.

Lemma split_lines_rows (texts : list string) :
  Forall (fun x => printable x = true) texts ->
  split_lines (String.concat row_separator texts +:+ LF +:+ "]") = row_lines texts ++ ["]"].
Proof.
  induction 1 as [|r texts Hr Hall IH]; [done|].
  destruct texts as [|r' texts].
  - rewrite string_concat_one, split_lines_app by done. done.
  - rewrite string_concat_cons2. unfold row_separator at 1.
    rewrite !string_app_assoc.
    replace (r +:+ "," +:+ LF +:+ String.concat row_separator (r' :: texts) +:+ LF +:+ "]")
      with ((r +:+ ",") +:+ LF +:+ String.concat row_separator (r' :: texts) +:+ LF +:+ "]")
      by (by rewrite !string_app_assoc).
    rewrite split_lines_app by (by rewrite printable_app, Hr).
    rewrite IH. done.
Qed.

Lemma row_lines_printable (texts : list string) :
  Forall (fun x => printable x = true) texts ->
  Forall (fun x => printable x = true) (row_lines texts).
Proof.
  induction 1 as [|r texts Hr Hall IH]; [by repeat constructor|].
  destruct texts as [|r' texts].
  - by repeat constructor.
  - cbn [row_lines]. constructor; [|exact IH]. by rewrite printable_app, Hr.
Qed.

Lemma generate_text (h : Helpers) (db : Database) (prepared_query : SelectQuery) :
  db_count db prepared_query = Z.of_nat (length (db_rows db prepared_query)) ->
  body_text (generate h db prepared_query) =
  "[" +:+ LF +:+
  String.concat row_separator (map (row_text h prepared_query) (db_rows db prepared_query))
  +:+ LF +:+ "]".
Proof.
  intros Hcount. unfold generate. rewrite !body_text_app, generate_rows_text by done.
  unfold body_text. rewrite !string_concat_one. by rewrite !string_app_assoc.
Qed.

(** X21. When [count()] gives the number of rows, the text the generator of
    [json_response] streams has one line for the opening bracket, one line
    for every row and one for the closing bracket: the rows never contain a
    line feed, whatever strings they hold, and every row but the last ends
    its line with a comma; with no rows there is one empty line between the
    brackets. Every character of the text other than the line feeds is a
    printable ASCII character. *)
Theorem json_response_lines (h : Helpers) (db : Database) (prepared_query : SelectQuery) :
  db_count db prepared_query = Z.of_nat (length (db_rows db prepared_query)) ->
  let lines := split_lines (body_text (generate h db prepared_query)) in
  lines = ["["] ++ row_lines (map (row_text h prepared_query) (db_rows db prepared_query))
          ++ ["]"] /\
  length lines = (2 + Nat.max 1 (length (db_rows db prepared_query)))%nat /\
  Forall (fun line => printable line = true) lines.
Proof.
  intros Hcount. simpl.
  assert (Forall (fun x => printable x = true)
            (map (row_text h prepared_query) (db_rows db prepared_query))) as Hall.
  { apply Forall_fmap, Forall_forall. intros obj _. apply json_dumps_printable. }
  assert (split_lines (body_text (generate h db prepared_query)) =
          ["["] ++ row_lines (map (row_text h prepared_query) (db_rows db prepared_query))
          ++ ["]"]) as ->.
  { rewrite generate_text by done.
    rewrite (split_lines_app "[") by done. by rewrite split_lines_rows. }
  split; [done|]. split.
  - rewrite !length_app. cbn [length].
    assert (forall texts : list string,
              length (row_lines texts) = Nat.max 1 (length texts)) as Hlen.
    { induction texts as [|r [|r' texts] IH]; [done|done|].
      cbn [row_lines length] in *. rewrite IH. lia. }
    rewrite Hlen, length_map. lia.
  - apply Forall_app. split; [by repeat constructor|].
    apply Forall_app. split; [by apply row_lines_printable|by repeat constructor].
Qed.

Lemma json_response_lines_witness :
  let lines :=
    split_lines (body_text (generate demo_helpers three_posts (select Post))) in
  lines = ["["] ++ row_lines (map (row_text demo_helpers (select Post))
                                  (db_rows three_posts (select Post))) ++ ["]"] /\
  length lines = (2 + Nat.max 1 3)%nat /\
  Forall (fun line => printable line = true) lines.
Proof.
  apply (json_response_lines demo_helpers three_posts (select Post)). reflexivity.
Defined.
(** ** [Admin.configure_routes]: the pages of a registered model *)

Lemma auth_required_admin {A} (h : Helpers) (auth : Auth)
    (func : A -> Request -> M Response) (a : A) (request : Request) user :
  get_logged_in_user auth request = Some user -> admin user = true ->
  auth_required h auth func a request = func a request.
Proof. unfold auth_required, check_user_permission. by intros -> ->. Qed.

(** X22. Every page of every registered model is routed: for each URL and
    callback of the model admin's [get_urls], [configure_routes] adds a rule
    under the admin name of the model, with the endpoint made of the admin
    name and the name of the callback, for GET and POST, and for a logged-in
    user who is an admin the view of the rule does exactly what the
    callback does. *)
Theorem configure_routes_pages (w : World) (self : Admin) (model : Model) (ma : ModelAdmin)
    (url name : string) (callback : View) :
  get_admin_for self model = Some ma ->
  (url, name, callback) ∈ get_urls w ma ->
  let admin_name := get_admin_name (w_schema w) (w_helpers w) ma in
  exists rule,
    rule ∈ configure_routes w self /\
    rule_url rule = "/" +:+ admin_name +:+ url /\
    endpoint rule = admin_name +:+ "_" +:+ name /\
    methods rule = ["GET"; "POST"] /\
    forall url_args request user,
      get_logged_in_user (admin_auth self) request = Some user -> admin user = true ->
      view_func rule url_args request = callback url_args request.
Proof.
  intros Hma Hurl. simpl.
  eexists (mkRule _ _ (auth_required (w_helpers w) (admin_auth self) callback) _).
  split; [|split; [reflexivity|split; [reflexivity|split; [reflexivity|]]]].
  - unfold configure_routes. apply elem_of_app. right. apply elem_of_app. left.
    apply list_elem_of_In, in_concat. eexists. split.
    + apply in_map_iff. exists ma. split; [reflexivity|].
      apply in_map_iff. exists (model, ma). split; [done|].
      apply list_elem_of_In, elem_of_map_to_list. exact Hma.
    + apply in_map_iff. exists (url, name, callback). split; [done|].
      by apply list_elem_of_In.
  - intros url_args request user Hu Ha. simpl. by apply (auth_required_admin _ _ _ _ _ user).
Qed.

Lemma configure_routes_pages_witness :
  exists rule,
    rule ∈ configure_routes demo_world demo_site /\
    rule_url rule = "/" +:+ "Post" +:+ "/_ajax/" /\
    endpoint rule = "Post" +:+ "_" +:+ "ajax_list" /\
    methods rule = ["GET"; "POST"] /\
    forall url_args request user,
      get_logged_in_user demo_auth request = Some user -> admin user = true ->
      view_func rule url_args request
      = ajax_list demo_helpers (default_admin "admin" Post) request.
Proof.
  apply (configure_routes_pages demo_world demo_site Post (default_admin "admin" Post)
           "/_ajax/" "ajax_list"
           (fun _ request => ajax_list demo_helpers (default_admin "admin" Post) request)).
  - reflexivity.
  - apply (list_elem_of_lookup_2 _ 5). reflexivity.
Defined.
(** ** [Export.prepare_query]: how it fails *)

Section PrepareQueryRaises.
Context (G : Schema) (self : Export).

Lemma switch_raises q m e : switch q m = Raise e -> e = AttributeError.
Proof. unfold switch. repeat case_decide; congruence. Qed.

Lemma join_raises q m e : join G q m = Raise e -> e = AttributeError.
Proof. unfold join. destruct (rel_exists _ _ _); congruence. Qed.

Lemma switch_join_raises q n m e :
  (q' ← switch q n; join G q' m) = Raise e -> e = AttributeError.
Proof.
  destruct (switch q n) as [q'|e'] eqn:E; simpl.
  - apply join_raises.
  - intros [= <-]. by eapply switch_raises.
Qed.

Lemma ensure_join_raises q m p e :
  ensure_join G self q m p = Raise e -> e = KeyError \/ e = AttributeError.
Proof.
  remember (String.length p) as n eqn:Hn. revert q m p Hn.
  induction (lt_wf n) as [n _ IH]. intros q m p -> H.
  rewrite ensure_join_eq in H. case_decide; [|done].
  destruct (rsplit2 p) as [[next tl]|] eqn:E.
  - unfold dict_get in H. destruct (alias_to_model self !! next) as [next_model|]; simpl in H.
    + destruct (ensure_join G self q next_model next) as [q1|e1] eqn:E1; simpl in H.
      * right. by eapply switch_join_raises.
      * injection H as <-. eapply (IH (String.length next)); [|done|exact E1].
        apply rsplit2_length in E. lia.
    + left. congruence.
  - right. by eapply switch_join_raises.
Qed.

Lemma prepare_loop_raises lookups clone sel e :
  prepare_loop G self lookups clone sel = Raise e -> e = KeyError \/ e = AttributeError.
Proof.
  revert clone sel. induction lookups as [|lookup rest IH]; intros clone sel; [done|].
  simpl. destruct (rsplit2 lookup) as [[path column]|].
  - unfold dict_get. destruct (alias_to_model self !! path) as [model|]; simpl.
    + destruct (ensure_join G self clone model path) as [clone1|e1] eqn:E1; simpl.
      * apply IH.
      * intros [= <-]. by eapply ensure_join_raises.
    + left. congruence.
  - simpl. apply IH.
Qed.

Lemma prepare_loop_unknown pre lookup rest path column clone sel :
  Forall (fun l => rsplit2 l = None) pre ->
  rsplit2 lookup = Some (path, column) -> alias_to_model self !! path = None ->
  prepare_loop G self (pre ++ lookup :: rest) clone sel = Raise KeyError.
Proof.
  intros Hpre Hl Ha. revert sel. induction Hpre as [|l pre Hn _ IH]; intros sel.
  - simpl. rewrite Hl. unfold dict_get. by rewrite Ha.
  - simpl. rewrite Hn. simpl. apply IH.
Qed.

End PrepareQueryRaises.

(** X23. [prepare_query] fails in two ways only: with [KeyError], for a
    selected path whose part before the last delimiter is no path of the
    related fields, and with [AttributeError], for a join the ORM refuses.
    A selected path that no related field stands for makes the call fail
    wherever it is among the fields, and with [KeyError] when only fields
    of the root come before it. *)
Theorem prepare_query_raises (G : Schema) (self : Export) :
  (forall e, prepare_query G self = Raise e -> e = KeyError \/ e = AttributeError) /\
  (forall lookup path column,
     lookup ∈ fields self -> rsplit2 lookup = Some (path, column) ->
     alias_to_model self !! path = None ->
     exists e, prepare_query G self = Raise e) /\
  (forall pre lookup rest path column,
     fields self = pre ++ lookup :: rest ->
     Forall (fun l => rsplit2 l = None) pre ->
     rsplit2 lookup = Some (path, column) -> alias_to_model self !! path = None ->
     prepare_query G self = Raise KeyError).
Proof.
  split; [|split].
  - intros e. unfold prepare_query.
    destruct (prepare_loop G self (fields self) (e_query self) ∅) as [[clone sel]|e'] eqn:E;
      [done|].
    simpl. intros [= <-]. by eapply prepare_loop_raises.
  - intros lookup path column Hin Hl Ha. unfold prepare_query.
    destruct (prepare_loop G self (fields self) (e_query self) ∅) as [[clone sel]|e'] eqn:E.
    + destruct (prepare_loop_spec _ _ _ _ _ _ _ E) as (l & targets & _ & _ & _ & _ & Hj & _).
      destruct (Hj _ _ _ Hin Hl) as (m & Hm & _). congruence.
    + by exists e'.
  - intros pre lookup rest path column Hf Hpre Hl Ha. unfold prepare_query.
    by rewrite Hf, (prepare_loop_unknown G self pre lookup rest path column).
Qed.
(** ** [ModelAdmin.export]: the page itself *)

(** X24. On an acyclic relation graph the export page returns, and for any
    method other than POST it renders the export template without sending a
    query, deleting or flashing anything: the depth the recursion needs is
    bounded by the rank of the model. *)
Theorem export_get_renders (G : Schema) (h : Helpers) (db : Database) (orm : Orm)
    (self : ModelAdmin) (request : Request) :
  acyclic_from G (ma_model self) -> method request <> "POST" ->
  exists fuel,
    forall fuel', (fuel <= fuel')%nat ->
      export G h db orm fuel' self request
      = Some ([], Ok (Rendered "admin/models/export.html")).
Proof.
  intros [rank Hrank] Hm.
  destruct (related_entries_terminates G (ma_model self) rank (ma_model self) Hrank
              (S (rank (ma_model self))) [] (ma_model self) [])
    as [es Hes]; [constructor|lia|].
  exists (S (rank (ma_model self))). intros fuel' Hle. unfold export.
  rewrite collect_related_fields_entries.
  rewrite (related_entries_mono _ _ _ _ _ _ _ Hle Hes). simpl.
  by rewrite decide_False.
Qed.

Lemma export_get_renders_witness :
  exists fuel,
    forall fuel', (fuel <= fuel')%nat ->
      export blog_schema demo_helpers three_posts demo_orm fuel' post_admin
        (mkRequest "GET" "/admin/Post/export/" [] [])
      = Some ([], Ok (Rendered "admin/models/export.html")).
Proof.
  apply (export_get_renders blog_schema demo_helpers three_posts demo_orm post_admin
           (mkRequest "GET" "/admin/Post/export/" [] []) blog_acyclic).
  discriminate.
Defined.

(** ** [Admin]: the panels *)

(** X25. The panels are kept by title: [register_panel] files the panel it
    builds under its title, in place of an earlier one of that title, and
    leaves the other panels and the models alone; [unregister_panel] raises
    [KeyError] for a title that is not there and otherwise removes that
    panel only; [get_panels] lists every registered panel once, sorted by
    slug. *)
Theorem panels_registry (h : Helpers) (self : Admin) (title : string) :
  (forall panel,
     let self' := register_panel self title panel in
     _panels self' !! title = Some (panel title) /\
     (forall other, other <> title -> _panels self' !! other = _panels self !! other) /\
     _registry self' = _registry self /\
     panel title ∈ get_panels h self') /\
  (_panels self !! title = None -> unregister_panel self title = Raise KeyError) /\
  (forall p, _panels self !! title = Some p ->
     exists self',
       unregister_panel self title = Ok self' /\
       _panels self' !! title = None /\
       (forall other, other <> title -> _panels self' !! other = _panels self !! other) /\
       _registry self' = _registry self) /\
  StronglySorted (fun a b => String.leb (panel_slug h a) (panel_slug h b) = true)
    (get_panels h self) /\
  get_panels h self ≡ₚ map snd (map_to_list (_panels self)) /\
  (forall p, p ∈ get_panels h self <-> exists t, _panels self !! t = Some p).
Proof.
  assert (forall s : Admin, forall p,
            p ∈ get_panels h s <-> exists t, _panels s !! t = Some p) as Hmem.
  { intros s p. unfold get_panels. rewrite sorted_perm, list_elem_of_fmap. split.
    - intros ([t x] & -> & Hin%elem_of_map_to_list). by exists t.
    - intros (t & Ht). exists (t, p). split; [done|]. by apply elem_of_map_to_list. }
  split; [|split; [|split; [|split; [|split]]]].
  - intros panel. simpl. rewrite lookup_insert_eq. split; [done|]. split; [|split; [done|]].
    + intros other Hne. by rewrite lookup_insert_ne.
    + apply Hmem. exists title. simpl. by rewrite lookup_insert_eq.
  - unfold unregister_panel. by intros ->.
  - intros p Hp. unfold unregister_panel. rewrite Hp. eexists. split; [done|]. simpl.
    rewrite lookup_delete_eq. split; [done|]. split; [|done].
    intros other Hne. by rewrite lookup_delete_ne.
  - unfold get_panels. apply sorted_sorted.
    + intros a b. apply String.leb_total.
    + intros a b c. apply string_leb_trans.
  - apply sorted_perm.
  - apply Hmem.
Qed.
(** ** [AdminTemplateHelper.get_model_name] *)

(** X26. An admin class whose constructor keeps the model it is given, as
    [ModelAdmin.__init__] does, keeps the registry consistent: [register]
    and [unregister] file every admin under its own model, starting from
    the empty registry. In a consistent registry [get_model_name] answers
    with the name of the class it is asked about, registered or not. *)
Theorem get_model_name_class (G : Schema) (self : Admin) :
  (_registry self = ∅ -> registry_consistent self) /\
  (forall model admin_class,
     (forall blueprint m, ma_model (admin_class blueprint m) = m) ->
     registry_consistent self -> registry_consistent (register self model admin_class)) /\
  (forall model self',
     unregister self model = Ok self' ->
     registry_consistent self -> registry_consistent self') /\
  (registry_consistent self ->
   forall model_class, get_model_name G self model_class = cls_name G model_class).
Proof.
  split; [|split; [|split]].
  - intros He model ma. by rewrite He, lookup_empty.
  - intros model admin_class Hclass Hcons m ma. simpl.
    destruct (decide (m = model)) as [->|Hne].
    + rewrite lookup_insert_eq. intros [= <-]. apply Hclass.
    + rewrite lookup_insert_ne by done. apply Hcons.
  - intros model self'. unfold unregister.
    destruct (_registry self !! model) as [old|]; [|done].
    intros [= <-] Hcons other ma. simpl.
    intros [_ Hother]%lookup_delete_Some. by apply Hcons.
  - intros Hcons model_class. unfold get_model_name, get_admin_for, get_display_name.
    destruct (_registry self !! model_class) as [ma|] eqn:E; [|done].
    by rewrite (Hcons _ _ E).
Qed.
